(** * The event aggregator of internal/events/aggregator.go

    A shallow embedding of the aggregator: the per-batch lookahead index
    ([eventsByRef]), the dispatch of one event ([processEvent]), the join of
    data arrival with message sequencing ([processDataArrived],
    [checkMessageComplete]), the blocked-context bookkeeping
    ([checkUpdateContextBlocked]) and the batch loop ([processEvents]).

    The aggregator talks to its collaborators (the database plugin, the
    broadcast manager, the event poller) through interfaces only, so the
    functions are embedded as programs over the signature [Op] of those
    calls.  A program is run against a handler, any implementation of the
    interfaces, and the run records the calls made and the answers received.
    A nil pointer dereference or an index out of range ends a program with a
    panic.  The calls to the logger and the context argument are left out. *)

From stdpp Require Import gmap strings list sorting.

Set Default Proof Using "Type".
Open Scope Z_scope.

(** ** Data model (package fftypes, as far as the aggregator uses it) *)

(** A UUID is a 128-bit value; the aggregator only compares UUIDs. *)
Definition UUID := N.
Definition FFTime := Z.

(** A Go [error] value; a nil error is [None] of [option error]. *)
Definition error := string.

(** [type EventType string] with the constants the aggregator names. *)
Inductive EventType :=
| EventTypeDataArrivedBroadcast
| EventTypeMessageSequencedBroadcast
| EventTypeMessageConfirmed
| EventTypeMessagesUnblocked
| EventTypeOther (name : string).

#[global] Instance EventType_eq_dec : EqDecision EventType.
Proof. solve_decision. Defined.

(** Pointer-typed fields ([*fftypes.UUID], [*fftypes.FFTime]) are options:
    [None] is the nil pointer. *)
Module Event.
Record t := mk {
  ID : option UUID;
  Sequence : Z;
  Typ : EventType;
  Namespace : string;
  Reference : option UUID }.
End Event.

Module MessageHeader.
Record t := mk {
  ID : option UUID;
  Namespace : string;
  Context : string;
  Group : option UUID }.
End MessageHeader.

Module Message.
Record t := mk {
  Header : MessageHeader.t;
  Sequence : Z;
  Confirmed : option FFTime;
  Data : list UUID }.
End Message.

Module MessageRef.
Record t := mk {
  ID : option UUID;
  Sequence : Z }.
End MessageRef.

Module Blocked.
Record t := mk {
  ID : option UUID;
  Namespace : string;
  Context : string;
  Group : option UUID;
  Created : FFTime;
  Message : option UUID }.
End Blocked.

#[global] Instance Event_eq_dec : EqDecision Event.t.
Proof. solve_decision. Defined.
#[global] Instance MessageHeader_eq_dec : EqDecision MessageHeader.t.
Proof. solve_decision. Defined.
#[global] Instance Message_eq_dec : EqDecision Message.t.
Proof. solve_decision. Defined.
#[global] Instance MessageRef_eq_dec : EqDecision MessageRef.t.
Proof. solve_decision. Defined.
#[global] Instance Blocked_eq_dec : EqDecision Blocked.t.
Proof. solve_decision. Defined.

(** The [Equals] method of a UUID pointer: a nil-safe comparison; two nil
    pointers are equal. *)
Definition Equals (u u2 : option UUID) : bool := bool_decide (u = u2).

(** Modelled from the spec: [fftypes.SystemNamespace], the reserved system
    namespace; the constant is declared in package fftypes. *)
Definition SystemNamespace : string := "ff_system".

(** ** Queries and updates handed to the database plugin

    The query builders ([fb.And], [fb.Eq], [fb.Gt], [Sort], [Limit],
    [NewUpdate().Set]) only build a description of the query; the
    description is kept as data. *)
Inductive FieldValue :=
| VNil
| VString (s : string)
| VUUID (u : UUID)
| VInt (z : Z)
| VTime (t : FFTime)
| VEventType (t : EventType).

#[global] Instance FieldValue_eq_dec : EqDecision FieldValue.
Proof. solve_decision. Defined.

(** A [*UUID] argument of a filter. *)
Definition ptr (u : option UUID) : FieldValue :=
  match u with Some u => VUUID u | None => VNil end.

Inductive Cond :=
| Eq (field : string) (value : FieldValue)
| Gt (field : string) (value : FieldValue).

Record Filter := mkFilter {
  conds : list Cond;          (* [fb.And(...)] *)
  sortBy : list string;       (* [.Sort(...)] *)
  limit : option nat }.       (* [.Limit(n)] *)

#[global] Instance Cond_eq_dec : EqDecision Cond.
Proof. solve_decision. Defined.
#[global] Instance Filter_eq_dec : EqDecision Filter.
Proof. solve_decision. Defined.

Definition And (cs : list Cond) : Filter := mkFilter cs [] None.
Definition Sort (f : Filter) (field : string) : Filter :=
  mkFilter (conds f) (sortBy f ++ [field]) (limit f).
Definition Limit (f : Filter) (n : nat) : Filter :=
  mkFilter (conds f) (sortBy f) (Some n).

(** [NewUpdate(ctx).Set(field, value)] *)
Abbreviation Update := (list (string * FieldValue)).
Definition Set_ (field : string) (value : FieldValue) : Update := [(field, value)].

(** ** The lookahead index *)

(** [type eventsByRef map[fftypes.UUID][]*fftypes.Event] *)
Abbreviation eventsByRef := (gmap UUID (list Event.t)).

Definition hasAnyOf (ebr : eventsByRef) (ref : UUID) (types : list EventType) : bool :=
  match ebr !! ref with
  | Some events =>
      existsb (fun ev => existsb (fun t => bool_decide (Event.Typ ev = t)) types) events
  | None => false
  end.

(** Index of the first event of a slice whose ID is [eventID]. *)
Fixpoint indexOfID (eventID : UUID) (events : list Event.t) : option nat :=
  match events with
  | [] => None
  | ev :: rest =>
      if Equals (Some eventID) (Event.ID ev) then Some 0%nat
      else S <$> indexOfID eventID rest
  end.

(** The outer [range] over the map, as a walk over its entries.  Go leaves the
    order of the walk open; it matters only when two events of a batch carry
    the same ID under different references. *)
Fixpoint removeFrom (eventID : UUID) (entries : list (UUID * list Event.t))
    (ebr : eventsByRef) : eventsByRef * bool :=
  match entries with
  | [] => (ebr, false)
  | (ref, events) :: rest =>
      match indexOfID eventID events with
      | Some i => (<[ref := take i events ++ drop (S i) events]> ebr, true)
      | None => removeFrom eventID rest ebr
      end
  end.

Definition remove (ebr : eventsByRef) (eventID : UUID) : eventsByRef * bool :=
  removeFrom eventID (map_to_list ebr) ebr.

(** ** Programs over the collaborators' interfaces *)

(** The calls the aggregator makes: [database.Plugin], [broadcast.Manager],
    [eventPoller.commitOffset], and the two sources of fresh values of
    package fftypes. *)
Inductive Op : Type :=
| GetMessageByID (id : option UUID)
| GetMessagesForData (dataID : option UUID) (filter : Filter)
| GetEvents (filter : Filter)
| CheckDataAvailable (msg : Message.t)
| GetBlockedByContext (ns context : string) (group : option UUID)
| GetMessageRefs (filter : Filter)
| UpsertBlocked (blocked : Blocked.t) (allowExisting : bool)
| UpdateBlocked (id : option UUID) (update : Update)
| DeleteBlocked (id : option UUID)
| UpdateMessage (id : option UUID) (update : Update)
| UpsertEvent (event : Event.t) (allowExisting : bool)
| HandleSystemBroadcast (msg : Message.t)
| commitOffset (sequence : Z)
| NewUUID
| Now.

#[global] Instance Op_eq_dec : EqDecision Op.
Proof. solve_decision. Defined.

(** What a call answers; a Go result [(v, err)] is a pair whose second
    component is the error. *)
Definition Answer (op : Op) : Type :=
  match op with
  | GetMessageByID _ => option Message.t * option error
  | GetMessagesForData _ _ => list Message.t * option error
  | GetEvents _ => list Event.t * option error
  | CheckDataAvailable _ => bool * option error
  | GetBlockedByContext _ _ _ => option Blocked.t * option error
  | GetMessageRefs _ => list MessageRef.t * option error
  | UpsertBlocked _ _ | UpdateBlocked _ _ | DeleteBlocked _ | UpdateMessage _ _
  | UpsertEvent _ _ | HandleSystemBroadcast _ | commitOffset _ => option error
  | NewUUID => UUID
  | Now => FFTime
  end%type.

(** Run-time panics of the Go code, by the place that raises them. *)
Inductive panic :=
| NilEventReference      (* [*event.Reference] in processEvents *)
| NilEventID             (* [*event.ID] in processEvents *)
| IndexOutOfRange        (* [events[len(events)-1]] in processEvents *)
| NilMessageID           (* [*msg.Header.ID] in processDataArrived *)
| NilMessageRefID.       (* [*unblockMsg.ID] in checkMessageComplete *)

Inductive Prog (A : Type) : Type :=
| Ret (a : A)
| Panic (p : panic)
| Call (op : Op) (k : Answer op -> Prog A).
Arguments Ret {A} a.
Arguments Panic {A} p.
Arguments Call {A} op k.

Fixpoint bind {A B} (m : Prog A) (f : A -> Prog B) : Prog B :=
  match m with
  | Ret a => f a
  | Panic p => Panic p
  | Call op k => Call op (fun r => bind (k r) f)
  end.

Arguments bind {A B} & m f.

Definition call (op : Op) : Prog (Answer op) := Call op Ret.

(** Dereference of a pointer: a nil pointer panics. *)
Definition deref {A} (p : panic) (u : option A) : Prog A :=
  match u with Some a => Ret a | None => Panic p end.

Notation "'let*' x ':=' c 'in' k" := (bind c (fun x => k))
  (at level 10, x pattern, c at level 100, k at level 200).

(** The Go result [(bool, error)] of the aggregator's functions. *)
Abbreviation result := (bool * option error)%type.

(** Modelled from the spec: [fftypes.NewEvent], which is declared in package
    fftypes: a derived event has a fresh id and the given type, namespace and
    reference; its sequence is assigned by the store at insert. *)
Definition NewEvent (t : EventType) (ns : string) (ref : option UUID) : Prog Event.t :=
  let* id := call NewUUID in
  Ret (Event.mk (Some id) 0 t ns ref).

(** ** The aggregator *)

Definition checkUpdateContextBlocked (msg : Message.t) (complete : bool)
    : Prog (option Blocked.t * option error) :=
  let hdr := Message.Header msg in
  (* Need to check if the context is already blocked *)
  let* (blocked, err) := call (GetBlockedByContext (MessageHeader.Namespace hdr)
                                  (MessageHeader.Context hdr) (MessageHeader.Group hdr)) in
  match err with
  | Some _ => Ret (None, err)
  | None =>
      match blocked, complete with
      | None, false =>
          let* id := call NewUUID in
          let* created := call Now in
          let blocked := Blocked.mk (Some id) (MessageHeader.Namespace hdr)
                           (MessageHeader.Context hdr) (MessageHeader.Group hdr)
                           created (MessageHeader.ID hdr) in
          let* err := call (UpsertBlocked blocked false) in
          match err with
          | Some _ => Ret (None, err)
          | None => Ret (Some blocked, None)
          end
      | _, _ => Ret (blocked, None)
      end
  end.

(** The filter of the envelope-arrived guard. *)
Definition sequencedFilter (msg : Message.t) : Filter :=
  Limit (And [Eq "reference" (ptr (MessageHeader.ID (Message.Header msg)));
              Eq "type" (VEventType EventTypeMessageSequencedBroadcast)]) 1.

(** The filter of the look forwards for a message to unblock. *)
Definition unblockableFilter (msg : Message.t) : Filter :=
  let hdr := Message.Header msg in
  Limit (Sort (And [Eq "namespace" (VString (MessageHeader.Namespace hdr));
                    Eq "group" (ptr (MessageHeader.Group hdr));
                    Eq "context" (VString (MessageHeader.Context hdr));
                    Gt "sequence" (VInt (Message.Sequence msg));
                    Eq "confirmed" VNil]) "sequence") 1.

(** The tail of checkMessageComplete: "Are we unblocking a context?", where
    [unblock := blockedBy != nil && blockedBy.Message.Equals(msg.Header.ID)]. *)
Definition unblockContext (msg : Message.t) (lookahead : eventsByRef)
    (blockedBy : option Blocked.t) : Prog result :=
  let hdr := Message.Header msg in
  match blockedBy with
  | None => Ret (false, None)
  | Some blockedBy =>
      if Equals (Blocked.Message blockedBy) (MessageHeader.ID hdr) then
        (* Check forwards to see if there is a message we could unblock *)
        let* (unblockable, err) := call (GetMessageRefs (unblockableFilter msg)) in
        match err with
        | Some _ => Ret (false, err)
        | None =>
            match unblockable with
            | unblockMsg :: _ =>
                (* Update the blocked record to this new message *)
                let u := Set_ "message" (ptr (MessageRef.ID unblockMsg)) in
                let* err := call (UpdateBlocked (Blocked.ID blockedBy) u) in
                match err with
                | Some _ => Ret (false, err)
                | None =>
                    let* ref := deref NilMessageRefID (MessageRef.ID unblockMsg) in
                    if hasAnyOf lookahead ref
                         [EventTypeMessageConfirmed; EventTypeMessageSequencedBroadcast]
                    then Ret (false, None)
                    else
                      (* Emit an event to cause the aggregator to process that message *)
                      let* unblockedEvent :=
                        NewEvent EventTypeMessagesUnblocked (MessageHeader.Namespace hdr)
                          (MessageRef.ID unblockMsg) in
                      let* err := call (UpsertEvent unblockedEvent false) in
                      match err with
                      | Some _ => Ret (false, err)
                      | None => Ret (true, None)   (* repoll = true *)
                      end
                end
            | [] =>
                let* err := call (DeleteBlocked (Blocked.ID blockedBy)) in
                match err with
                | Some _ => Ret (false, err)
                | None => Ret (false, None)
                end
            end
        end
      else Ret (false, None)
  end.

(** The middle of checkMessageComplete, from "Check this message is
    complete" to the confirmed event. *)
Definition completeAndConfirm (msg : Message.t) (lookahead : eventsByRef) : Prog result :=
  let hdr := Message.Header msg in
  (* Check this message is complete *)
  let* (complete, err) := call (CheckDataAvailable msg) in
  match err with
  | Some _ => Ret (false, err)
  | None =>
      (* Check if the context is currently blocked, or we will block it. *)
      let* (blockedBy, err) := checkUpdateContextBlocked msg complete in
      match err with
      | Some _ => Ret (false, err)
      | None =>
          if negb complete ||
             match blockedBy with
             | Some b => negb (Equals (Blocked.Message b) (MessageHeader.ID hdr))
             | None => false
             end
          then Ret (false, err)
          else
            (* Process system messages *)
            let* err :=
              if bool_decide (MessageHeader.Namespace hdr = SystemNamespace)
              then call (HandleSystemBroadcast msg)
              else Ret None in
            match err with
            | Some _ => Ret (false, err)
            | None =>
                (* This message is now confirmed *)
                let* now := call Now in
                let setConfirmed := Set_ "confirmed" (VTime now) in
                let* err := call (UpdateMessage (MessageHeader.ID hdr) setConfirmed) in
                match err with
                | Some _ => Ret (false, err)
                | None =>
                    (* Emit the confirmed event *)
                    let* confirmedEvent :=
                      NewEvent EventTypeMessageConfirmed (MessageHeader.Namespace hdr)
                        (MessageHeader.ID hdr) in
                    let* err := call (UpsertEvent confirmedEvent false) in
                    match err with
                    | Some _ => Ret (false, err)
                    | None => unblockContext msg lookahead blockedBy
                    end
                end
            end
      end
  end.

Definition checkMessageComplete (msg : Message.t) (lookahead : eventsByRef)
    (event : Event.t) : Prog result :=
  (* If we're triggering because of data arriving, we need to make sure the
     message itself has arrived *)
  if negb (Equals (Event.Reference event) (MessageHeader.ID (Message.Header msg))) then
    let* (msgs, err) := call (GetEvents (sequencedFilter msg)) in
    match err with
    | Some _ => Ret (false, err)
    | None =>
        if bool_decide (length msgs < 1)%nat then Ret (false, None)
        else completeAndConfirm msg lookahead
    end
  else completeAndConfirm msg lookahead.

(** The filter of processDataArrived: unconfirmed messages of the namespace. *)
Definition unconfirmedFilter (ns : string) : Filter :=
  Sort (And [Eq "namespace" (VString ns); Eq "confirmed" VNil]) "sequence".

(** The [range msgs] loop of processDataArrived; [repoll] is the loop's
    variable, the empty slice is the code after the loop. *)
Fixpoint processDataArrived_range (lookahead : eventsByRef) (event : Event.t)
    (msgs : list Message.t) (repoll : bool) : Prog result :=
  match msgs with
  | [] => Ret (repoll, None)
  | msg :: msgs =>
      let* id := deref NilMessageID (MessageHeader.ID (Message.Header msg)) in
      if hasAnyOf lookahead id [EventTypeMessageSequencedBroadcast]
      then processDataArrived_range lookahead event msgs repoll
      else
        let* (msgRepoll, err) := checkMessageComplete msg lookahead event in
        match err with
        | Some _ => Ret (false, err)
        | None => processDataArrived_range lookahead event msgs (repoll || msgRepoll)
        end
  end.

Definition processDataArrived (ns : string) (lookahead : eventsByRef)
    (event : Event.t) : Prog result :=
  (* Find all unconfirmed messages associated with this data *)
  let* (msgs, err) := call (GetMessagesForData (Event.Reference event)
                               (unconfirmedFilter ns)) in
  match err with
  | Some _ => Ret (false, err)
  | None => processDataArrived_range lookahead event msgs false
  end.

Definition processEvent (batchRefs : eventsByRef) (event : Event.t) : Prog result :=
  match Event.Typ event with
  | EventTypeDataArrivedBroadcast =>
      processDataArrived (Event.Namespace event) batchRefs event
  | EventTypeMessageSequencedBroadcast =>
      let* (msg, err) := call (GetMessageByID (Event.Reference event)) in
      match err with
      | Some _ => Ret (false, err)
      | None =>
          match msg with
          | Some m =>
              if bool_decide (Message.Confirmed m = None)
              then checkMessageComplete m batchRefs event
              else Ret (false, None)
          | None => Ret (false, None)
          end
      end
  | _ =>
      (* Other events do not need aggregation. *)
      Ret (false, None)
  end.

(** The first loop of processEvents: build a map by reference. *)
Fixpoint buildLookahead (lookahead : eventsByRef) (events : list Event.t)
    : Prog eventsByRef :=
  match events with
  | [] => Ret lookahead
  | event :: events =>
      let* ref := deref NilEventReference (Event.Reference event) in
      buildLookahead (<[ref := default [] (lookahead !! ref) ++ [event]]> lookahead) events
  end.

(** The second loop of processEvents and the code after it; [all] is the
    whole batch, [repoll] the named result, assigned by every iteration. *)
Fixpoint processEvents_range (all : list Event.t) (lookahead : eventsByRef)
    (events : list Event.t) (repoll : bool) : Prog result :=
  match events with
  | [] =>
      match last all with
      | Some lastEvent =>
          let* err := call (commitOffset (Event.Sequence lastEvent)) in
          Ret (repoll, err)
      | None => Panic IndexOutOfRange
      end
  | event :: events =>
      let* id := deref NilEventID (Event.ID event) in
      let '(lookahead, removed) := remove lookahead id in
      let* (repoll, err) := processEvent lookahead event in
      match err with
      | Some _ => Ret (false, err)
      | None => processEvents_range all lookahead events repoll
      end
  end.

Definition processEvents (events : list Event.t) : Prog result :=
  let* lookahead := buildLookahead ∅ events in
  processEvents_range events lookahead events false.

(** ** Running a program against an implementation of the interfaces *)

Inductive Outcome (A : Type) : Type :=
| Returned (a : A)
| Panicked (p : panic).
Arguments Returned {A} a.
Arguments Panicked {A} p.

(** One call made during a run, with the answer it received. *)
Inductive called : Type :=
| Called (op : Op) (answer : Answer op).

(** An implementation of the interfaces over its own state [W]. *)
Definition Handler (W : Type) : Type := forall op : Op, W -> Answer op * W.

Fixpoint run {W A} (h : Handler W) (p : Prog A) (w : W) : Outcome A * W * list called :=
  match p with
  | Ret a => (Returned a, w, [])
  | Panic p => (Panicked p, w, [])
  | Call op k =>
      let '(r, w1) := h op w in
      let '(o, w2, t) := run h (k r) w1 in
      (o, w2, Called op r :: t)
  end.

(** The error of a Go result, if the function returned at all. *)
Definition failed (o : Outcome result) : bool :=
  match o with
  | Returned (_, None) => false
  | _ => true
  end.

(** Programs run one after the other, up to and including the first one that
    returns an error or panics. *)
Fixpoint runAll {W} (h : Handler W) (ps : list (Prog result)) (w : W)
    : list (Outcome result) * W * list called :=
  match ps with
  | [] => ([], w, [])
  | p :: ps =>
      let '(o, w1, t1) := run h p w in
      if failed o then ([o], w1, t1)
      else
        let '(os, w2, t2) := runAll h ps w1 in
        (o :: os, w2, t1 ++ t2)
  end.

(** The repoll flag of an outcome ([false] when there is none). *)
Definition repollOf (o : Outcome result) : bool :=
  match o with
  | Returned (repoll, _) => repoll
  | Panicked _ => false
  end.

(** Classification of the calls. *)
Definition isCommitOffset (op : Op) : bool :=
  match op with commitOffset _ => true | _ => false end.

Definition isUpsertBlocked (op : Op) : bool :=
  match op with UpsertBlocked _ _ => true | _ => false end.

(** A message update, an event insertion, or a change to an existing Blocked
    row (everything the store can be asked to change, bar the creation of a
    Blocked row and the offset). *)
Definition isMutation (op : Op) : bool :=
  match op with
  | UpdateBlocked _ _ | DeleteBlocked _ | UpdateMessage _ _ | UpsertEvent _ _ => true
  | _ => false
  end.

Definition callIs (f : Op -> bool) (c : called) : bool :=
  match c with Called op _ => f op end.

(** A static bound on what a program can do, whatever the answers: every
    call it can make satisfies [okCall], every panic it can raise [okPanic]. *)
Fixpoint within {A} (okCall : Op -> bool) (okPanic : panic -> bool)
    (p : Prog A) : Prop :=
  match p with
  | Ret _ => True
  | Panic q => okPanic q = true
  | Call op k => okCall op = true /\ forall r, within okCall okPanic (k r)
  end.

(** ** A store behind the interfaces

    Modelled from the spec: the persistence engine (database plugin), the
    offset commit of the event poller and the system-broadcast handler are
    collaborators of the aggregator whose code lies outside these sources.
    The store below follows the table of store operations of the
    specification (section 6): [GetMessageByID] and [GetBlockedByContext]
    fetch or answer nil, [GetEvents], [GetMessagesForData] and
    [GetMessageRefs] are filtered, ordered queries, [UpsertEvent] inserts a
    new event whose sequence is assigned at insert and fails on an id
    collision, [UpdateMessage] and [UpdateBlocked] are partial updates,
    [CheckDataAvailable] is a boolean over all data references of a message,
    [DeleteBlocked] removes, and the offset commit records the sequence. *)
Module Store.
Record t := mk {
  messages : list Message.t;
  events : list Event.t;
  blocked : list Blocked.t;
  data : list UUID;              (* the data blobs locally available *)
  offset : Z }.
End Store.

(** The columns of the tables, by the names the filters use. *)
Definition messageField (m : Message.t) (field : string) : FieldValue :=
  let hdr := Message.Header m in
  if String.eqb field "id" then ptr (MessageHeader.ID hdr)
  else if String.eqb field "namespace" then VString (MessageHeader.Namespace hdr)
  else if String.eqb field "context" then VString (MessageHeader.Context hdr)
  else if String.eqb field "group" then ptr (MessageHeader.Group hdr)
  else if String.eqb field "sequence" then VInt (Message.Sequence m)
  else if String.eqb field "confirmed" then
    match Message.Confirmed m with Some t => VTime t | None => VNil end
  else VNil.

Definition eventField (e : Event.t) (field : string) : FieldValue :=
  if String.eqb field "id" then ptr (Event.ID e)
  else if String.eqb field "sequence" then VInt (Event.Sequence e)
  else if String.eqb field "type" then VEventType (Event.Typ e)
  else if String.eqb field "namespace" then VString (Event.Namespace e)
  else if String.eqb field "reference" then ptr (Event.Reference e)
  else VNil.

Definition holds (fieldOf : string -> FieldValue) (c : Cond) : bool :=
  match c with
  | Eq field value => bool_decide (fieldOf field = value)
  | Gt field value =>
      match fieldOf field, value with
      | VInt a, VInt b => bool_decide (b < a)
      | _, _ => false
      end
  end.

Definition sortKey (fieldOf : string -> FieldValue) (fields : list string) : Z :=
  match fields with
  | field :: _ => match fieldOf field with VInt z => z | _ => 0 end
  | [] => 0
  end.

(** Stable insertion sort, ascending in the key. *)
Fixpoint insertBy {A} (key : A -> Z) (x : A) (l : list A) : list A :=
  match l with
  | [] => [x]
  | y :: l' => if bool_decide (key x < key y) then x :: l else y :: insertBy key x l'
  end.

Definition sortOn {A} (key : A -> Z) (l : list A) : list A :=
  foldr (fun x acc => insertBy key x acc) [] l.

Definition query {A} (fieldOf : A -> string -> FieldValue) (f : Filter)
    (rows : list A) : list A :=
  let selected := List.filter (fun r => forallb (holds (fieldOf r)) (conds f)) rows in
  let sorted :=
    match sortBy f with
    | [] => selected
    | fields => sortOn (fun r => sortKey (fieldOf r) fields) selected
    end in
  match limit f with
  | Some n => take n sorted
  | None => sorted
  end.

Definition hasID (id : option UUID) (m : Message.t) : bool :=
  bool_decide (MessageHeader.ID (Message.Header m) = id).

Definition referencesData (dataID : option UUID) (m : Message.t) : bool :=
  match dataID with
  | Some d => bool_decide (d ∈ Message.Data m)
  | None => false
  end.

Definition dataAvailable (s : Store.t) (m : Message.t) : bool :=
  forallb (fun d => bool_decide (d ∈ Store.data s)) (Message.Data m).

Definition inContext (ns context : string) (group : option UUID) (b : Blocked.t) : bool :=
  bool_decide (Blocked.Namespace b = ns) && bool_decide (Blocked.Context b = context)
  && bool_decide (Blocked.Group b = group).

Definition blockedByContext (s : Store.t) (ns context : string) (group : option UUID)
    : option Blocked.t :=
  List.find (inContext ns context group) (Store.blocked s).

Definition toRef (m : Message.t) : MessageRef.t :=
  MessageRef.mk (MessageHeader.ID (Message.Header m)) (Message.Sequence m).

Definition updateMessage (u : Update) (m : Message.t) : Message.t :=
  foldl (fun m '(field, value) =>
           if String.eqb field "confirmed" then
             Message.mk (Message.Header m) (Message.Sequence m)
               (match value with VTime t => Some t | _ => None end) (Message.Data m)
           else m) m u.

Definition updateBlocked (u : Update) (b : Blocked.t) : Blocked.t :=
  foldl (fun b '(field, value) =>
           if String.eqb field "message" then
             Blocked.mk (Blocked.ID b) (Blocked.Namespace b) (Blocked.Context b)
               (Blocked.Group b) (Blocked.Created b)
               (match value with VUUID m => Some m | _ => None end)
           else b) b u.

(** The sequence the store assigns to the next event. *)
Definition nextSequence (s : Store.t) : Z :=
  1 + foldr (fun e acc => Z.max (Event.Sequence e) acc) 0 (Store.events s).

Definition withSequence (seq : Z) (e : Event.t) : Event.t :=
  Event.mk (Event.ID e) seq (Event.Typ e) (Event.Namespace e) (Event.Reference e).

(** The environment of a run: the store, the failures the persistence layer
    is going to report (one entry per store call, [Some e] fails the call
    with [e]; no entry, no failure), and the sources of fresh UUIDs and of
    time. *)
Record World := mkWorld {
  store : Store.t;
  faults : list (option error);
  nextUUID : UUID;
  clock : FFTime }.

Definition withStore (s : Store.t) (w : World) : World :=
  mkWorld s (faults w) (nextUUID w) (clock w).

(** The answer of a call that fails with [e]. *)
Definition failWith (op : Op) (e : error) : Answer op :=
  match op return Answer op with
  | GetMessageByID _ => (None, Some e)
  | GetMessagesForData _ _ => ([], Some e)
  | GetEvents _ => ([], Some e)
  | CheckDataAvailable _ => (false, Some e)
  | GetBlockedByContext _ _ _ => (None, Some e)
  | GetMessageRefs _ => ([], Some e)
  | UpsertBlocked _ _ | UpdateBlocked _ _ | DeleteBlocked _ | UpdateMessage _ _
  | UpsertEvent _ _ | HandleSystemBroadcast _ | commitOffset _ => Some e
  | NewUUID => 0%N
  | Now => 0
  end.

(** The answer and effect of a call that does not fail. *)
Definition perform (op : Op) (w : World) : Answer op * World :=
  let s := store w in
  match op return Answer op * World with
  | GetMessageByID id => ((List.find (hasID id) (Store.messages s), None), w)
  | GetMessagesForData dataID f =>
      ((query messageField f (List.filter (referencesData dataID) (Store.messages s)), None), w)
  | GetEvents f => ((query eventField f (Store.events s), None), w)
  | CheckDataAvailable msg => ((dataAvailable s msg, None), w)
  | GetBlockedByContext ns context group => ((blockedByContext s ns context group, None), w)
  | GetMessageRefs f => ((toRef <$> query messageField f (Store.messages s), None), w)
  | UpsertBlocked b allowExisting =>
      if existsb (fun b' => bool_decide (Blocked.ID b' = Blocked.ID b)) (Store.blocked s) then
        if allowExisting then
          (None, withStore (Store.mk (Store.messages s) (Store.events s)
                   ((fun b' => if bool_decide (Blocked.ID b' = Blocked.ID b) then b else b')
                      <$> Store.blocked s)
                   (Store.data s) (Store.offset s)) w)
        else (Some "blocked: id collision", w)
      else
        (None, withStore (Store.mk (Store.messages s) (Store.events s)
                 (Store.blocked s ++ [b]) (Store.data s) (Store.offset s)) w)
  | UpdateBlocked id u =>
      (None, withStore (Store.mk (Store.messages s) (Store.events s)
               ((fun b => if bool_decide (Blocked.ID b = id) then updateBlocked u b else b)
                  <$> Store.blocked s)
               (Store.data s) (Store.offset s)) w)
  | DeleteBlocked id =>
      (None, withStore (Store.mk (Store.messages s) (Store.events s)
               (List.filter (fun b => negb (bool_decide (Blocked.ID b = id))) (Store.blocked s))
               (Store.data s) (Store.offset s)) w)
  | UpdateMessage id u =>
      (None, withStore (Store.mk
               ((fun m => if hasID id m then updateMessage u m else m) <$> Store.messages s)
               (Store.events s) (Store.blocked s) (Store.data s) (Store.offset s)) w)
  | UpsertEvent e allowExisting =>
      if existsb (fun e' => bool_decide (Event.ID e' = Event.ID e)) (Store.events s) then
        if allowExisting then
          (None, withStore (Store.mk (Store.messages s)
                   ((fun e' => if bool_decide (Event.ID e' = Event.ID e)
                               then withSequence (Event.Sequence e') e else e')
                      <$> Store.events s)
                   (Store.blocked s) (Store.data s) (Store.offset s)) w)
        else (Some "event: id collision", w)
      else
        (None, withStore (Store.mk (Store.messages s)
                 (Store.events s ++ [withSequence (nextSequence s) e])
                 (Store.blocked s) (Store.data s) (Store.offset s)) w)
  | HandleSystemBroadcast _ => (None, w)
  | commitOffset seq =>
      (None, withStore (Store.mk (Store.messages s) (Store.events s) (Store.blocked s)
               (Store.data s) seq) w)
  | NewUUID => (nextUUID w, mkWorld s (faults w) (nextUUID w + 1)%N (clock w))
  | Now => (clock w, mkWorld s (faults w) (nextUUID w) (clock w + 1))
  end.

Definition canFail (op : Op) : bool :=
  match op with
  | NewUUID | Now => false
  | _ => true
  end.

Definition storeHandler : Handler World := fun op w =>
  if canFail op then
    match faults w with
    | Some e :: rest => (failWith op e, mkWorld (store w) rest (nextUUID w) (clock w))
    | None :: rest => perform op (mkWorld (store w) rest (nextUUID w) (clock w))
    | [] => perform op w
    end
  else perform op w.

(** Modelled from the spec: [database.RunAsGroup], which executes [fn] inside
    a single transaction: a returned error (or a panic) rolls the writes of
    the group back. *)
Definition RunAsGroup (fn : Prog result) (w : World) : Outcome result * World * list called :=
  let '(o, w', t) := run storeHandler fn w in
  if failed o then (o, withStore (store w) w', t) else (o, w', t).

(** [repoll] and [err] are the named results, assigned inside the group. *)
Definition processEventRetryAndGroup (events : list Event.t) (w : World)
    : Outcome result * World * list called :=
  RunAsGroup (processEvents events) w.

(** Modelled from the spec: ingestion and the event poller, which create the
    messages, the data and the original events, and hand the aggregator the
    events after the committed offset in batches.  A message carries the
    sequence of its own sequenced event; a batch is a bounded run of the
    events after the offset, in sequence order. *)
Definition initialWorld : World := mkWorld (Store.mk [] [] [] [] 0) [] 1%N 1.

Definition ingestData (dataID : UUID) (ns : string) (w : World) : World :=
  let s := store w in
  let e := Event.mk (Some (nextUUID w)) (nextSequence s) EventTypeDataArrivedBroadcast
             ns (Some dataID) in
  mkWorld (Store.mk (Store.messages s) (Store.events s ++ [e]) (Store.blocked s)
             (dataID :: Store.data s) (Store.offset s))
    (faults w) (nextUUID w + 1)%N (clock w).

Definition ingestMessage (hdr : MessageHeader.t) (data : list UUID) (w : World) : World :=
  let s := store w in
  let m := Message.mk hdr (nextSequence s) None data in
  let e := Event.mk (Some (nextUUID w)) (nextSequence s) EventTypeMessageSequencedBroadcast
             (MessageHeader.Namespace hdr) (MessageHeader.ID hdr) in
  mkWorld (Store.mk (Store.messages s ++ [m]) (Store.events s ++ [e]) (Store.blocked s)
             (Store.data s) (Store.offset s))
    (faults w) (nextUUID w + 1)%N (clock w).

(** The events after the committed offset. *)
Definition pending (s : Store.t) : list Event.t :=
  List.filter (fun e => bool_decide (Store.offset s < Event.Sequence e)) (Store.events s).

Inductive step : World -> World -> Prop :=
| step_data w dataID ns :
    step w (ingestData dataID ns w)
| step_message w hdr data :
    step w (ingestMessage hdr data w)
| step_batch w n o w' t :
    take n (pending (store w)) <> [] ->
    processEventRetryAndGroup (take n (pending (store w))) w = (o, w', t) ->
    step w w'.

Definition reachable (w : World) : Prop := rtc step initialWorld w.

(** Two messages of one (namespace, context, group). *)
Definition sameContext (m1 m2 : Message.t) : Prop :=
  MessageHeader.Namespace (Message.Header m1) = MessageHeader.Namespace (Message.Header m2) /\
  MessageHeader.Context (Message.Header m1) = MessageHeader.Context (Message.Header m2) /\
  MessageHeader.Group (Message.Header m1) = MessageHeader.Group (Message.Header m2).

(** Confirmation order equals sequence order: of two confirmed messages of
    one context, the one confirmed first has the lower sequence.  (The clock
    of the store advances at every reading, so the confirmed timestamps tell
    the order of the confirmations.) *)
Definition confirmedInSequenceOrder (s : Store.t) : Prop :=
  forall m1 m2 t1 t2,
    m1 ∈ Store.messages s -> m2 ∈ Store.messages s -> sameContext m1 m2 ->
    Message.Confirmed m1 = Some t1 -> Message.Confirmed m2 = Some t2 ->
    t1 < t2 ->
    Message.Sequence m1 < Message.Sequence m2.

(** ** Auxiliary definitions of the statements *)

(** The error a call was answered with. *)
Definition answerError (op : Op) : Answer op -> option error :=
  match op return Answer op -> option error with
  | GetMessageByID _ => snd
  | GetMessagesForData _ _ => snd
  | GetEvents _ => snd
  | CheckDataAvailable _ => snd
  | GetBlockedByContext _ _ _ => snd
  | GetMessageRefs _ => snd
  | UpsertBlocked _ _ | UpdateBlocked _ _ | DeleteBlocked _ | UpdateMessage _ _
  | UpsertEvent _ _ | HandleSystemBroadcast _ | commitOffset _ => fun err => err
  | NewUUID | Now => fun _ => None
  end.

Definition errorOf (c : called) : option error :=
  match c with Called op r => answerError op r end.

Definition isUpdateMessage (op : Op) : bool :=
  match op with UpdateMessage _ _ => true | _ => false end.

Definition notCommitOffset (op : Op) : bool := negb (isCommitOffset op).

Definition anyCall (op : Op) : bool := true.

(** The panics raised on a message or message reference handed out by the
    store, as opposed to those raised on the batch. *)
Definition messagePanic (p : panic) : bool :=
  match p with
  | NilMessageID | NilMessageRefID => true
  | _ => false
  end.

(** The lookup of the blocker of the context of a message. *)
Definition blockerLookup (msg : Message.t) : Op :=
  GetBlockedByContext (MessageHeader.Namespace (Message.Header msg))
    (MessageHeader.Context (Message.Header msg)) (MessageHeader.Group (Message.Header msg)).

(** The calls [pre] end with the checks that let the update of the message
    [id] through: the store answered that the data of the message is
    available, then that its context has no blocker or a blocker that names
    the message; only the system-broadcast handler (for a system message) and
    the reading of the time lie between these answers and the update. *)
Definition clearanceBefore (id : option UUID) (update : Update) (pre : list called) : Prop :=
  exists pre0 msg blockedBy sys now,
    pre = pre0 ++ [Called (CheckDataAvailable msg) (true, None);
                   Called (blockerLookup msg) (blockedBy, None)] ++ sys ++ [Called Now now] /\
    MessageHeader.ID (Message.Header msg) = id /\
    update = Set_ "confirmed" (VTime now) /\
    (blockedBy = None \/ exists b, blockedBy = Some b /\ Blocked.Message b = id) /\
    (sys = [] \/ sys = [Called (HandleSystemBroadcast msg) None]).

(** Every message update of a trace comes right after its clearance. *)
Definition cleared (t : list called) : Prop :=
  forall pre id update r post,
    t = pre ++ Called (UpdateMessage id update) r :: post -> clearanceBefore id update pre.

(** Every run of the program is cleared. *)
Definition Cleared {W A} (h : Handler W) (p : Prog A) : Prop :=
  forall w, cleared (run h p w).2.

(** An event the aggregator does not aggregate. *)
Definition inert (ev : Event.t) : Prop :=
  Event.Typ ev <> EventTypeDataArrivedBroadcast /\
  Event.Typ ev <> EventTypeMessageSequencedBroadcast.

(** An event whose ID and Reference pointers are not nil. *)
Definition wellFormed (ev : Event.t) : Prop :=
  Event.ID ev <> None /\ Event.Reference ev <> None.

(** The lookahead index as processEvent sees it for each event of a batch:
    the index after the removal of the event's own ID. *)
Definition removeEvent (lookahead : eventsByRef) (ev : Event.t) : eventsByRef :=
  match Event.ID ev with
  | Some id => (remove lookahead id).1
  | None => lookahead
  end.

(** The calls of processEvent a batch gives rise to, in order. *)
Fixpoint eventCalls (lookahead : eventsByRef) (events : list Event.t) : list (Prog result) :=
  match events with
  | [] => []
  | ev :: events =>
      processEvent (removeEvent lookahead ev) ev
      :: eventCalls (removeEvent lookahead ev) events
  end.

(** The index the first loop of processEvents builds for well-formed events. *)
Definition indexByRef (events : list Event.t) : eventsByRef :=
  foldl (fun lookahead ev =>
           match Event.Reference ev with
           | Some ref => <[ref := default [] (lookahead !! ref) ++ [ev]]> lookahead
           | None => lookahead
           end) ∅ events.

(** An unconfirmed message of namespace [ns] whose data references contain
    [dataID]. *)
Definition awaitsData (dataID : option UUID) (ns : string) (m : Message.t) : bool :=
  referencesData dataID m
  && bool_decide (MessageHeader.Namespace (Message.Header m) = ns)
  && bool_decide (Message.Confirmed m = None).

(** An unconfirmed message of the (namespace, group, context) of [msg] with a
    sequence above that of [msg]. *)
Definition succeeds (msg : Message.t) (m : Message.t) : bool :=
  bool_decide (MessageHeader.Namespace (Message.Header m)
               = MessageHeader.Namespace (Message.Header msg))
  && bool_decide (MessageHeader.Group (Message.Header m)
                  = MessageHeader.Group (Message.Header msg))
  && bool_decide (MessageHeader.Context (Message.Header m)
                  = MessageHeader.Context (Message.Header msg))
  && bool_decide (Message.Sequence msg < Message.Sequence m)
  && bool_decide (Message.Confirmed m = None).

Definition bySequence (m1 m2 : Message.t) : Prop :=
  Message.Sequence m1 <= Message.Sequence m2.

(** The messages of a query that processDataArrived does not skip. *)
Definition notSkipped (lookahead : eventsByRef) (msgs : list Message.t) : list Message.t :=
  List.filter (fun m =>
                 match MessageHeader.ID (Message.Header m) with
                 | Some id => negb (hasAnyOf lookahead id [EventTypeMessageSequencedBroadcast])
                 | None => true
                 end) msgs.

(** Following the words of the specification: the lookahead index has a
    remaining event for [ref] of one of the [types], that is, the slice the
    index holds for [ref] (none when [ref] is no key) has an event whose type
    is among [types]. *)
Definition hasRemaining (lookahead : eventsByRef) (ref : UUID) (types : list EventType)
    : Prop :=
  Exists (fun ev => Event.Typ ev ∈ types) (default [] (lookahead !! ref)).

#[global] Instance hasRemaining_dec lookahead ref types :
  Decision (hasRemaining lookahead ref types).
Proof. unfold hasRemaining. apply _. Defined.

(** Following the words of the specification: the envelope of the message is
    still to come in the batch, that is, the message has an ID for which the
    lookahead index has a remaining message-sequenced-broadcast event. *)
Definition envelopeAhead (lookahead : eventsByRef) (m : Message.t) : Prop :=
  exists id, MessageHeader.ID (Message.Header m) = Some id /\
             hasRemaining lookahead id [EventTypeMessageSequencedBroadcast].

(** Following the words of the specification: the messages of a query, in
    the order of the query, without those whose envelope is still to come. *)
Definition unskipped (lookahead : eventsByRef) (msgs : list Message.t) : list Message.t :=
  List.filter (fun m =>
                 match MessageHeader.ID (Message.Header m) with
                 | Some id =>
                     negb (bool_decide
                             (hasRemaining lookahead id [EventTypeMessageSequencedBroadcast]))
                 | None => true
                 end) msgs.

(** The result of a loop over calls that ORs their repoll flags into its own
    and leaves with [(false, err)] at the first error. *)
Fixpoint foldOr (repoll : bool) (os : list (Outcome result)) : Outcome result :=
  match os with
  | [] => Returned (repoll, None)
  | Returned (r, None) :: os => foldOr (repoll || r) os
  | Returned (_, Some e) :: _ => Returned (false, Some e)
  | Panicked p :: _ => Panicked p
  end.

(** The result of a loop over calls that assigns each repoll flag to its own
    and leaves with [(false, err)] at the first error. *)
Fixpoint lastRepoll (repoll : bool) (os : list (Outcome result)) : Outcome result :=
  match os with
  | [] => Returned (repoll, None)
  | Returned (r, None) :: os => lastRepoll r os
  | Returned (_, Some e) :: _ => Returned (false, Some e)
  | Panicked p :: _ => Panicked p
  end.

(** ** Auxiliary definitions of the further properties *)

(** The event carries the reference [ref]. *)
Definition hasRef (ref : UUID) (ev : Event.t) : bool :=
  bool_decide (Event.Reference ev = Some ref).

(** The type of the event is one of [types]. *)
Definition hasTypeOf (types : list EventType) (ev : Event.t) : bool :=
  existsb (fun t => bool_decide (Event.Typ ev = t)) types.

(** The events of a slice that carry the reference [ref], in order; no key
    when there is none. *)
Definition eventsFor (ref : UUID) (events : list Event.t) : option (list Event.t) :=
  match List.filter (hasRef ref) events with
  | [] => None
  | evs => Some evs
  end.

(** The index holds, for every reference of the batch [all], the events of
    [rest] that carry it. *)
Definition represents (all rest : list Event.t) (lookahead : eventsByRef) : Prop :=
  forall ref,
    lookahead !! ref
    = match List.filter (hasRef ref) all with
      | [] => None
      | _ => Some (List.filter (hasRef ref) rest)
      end.

(** A static bound on what a program can return, whatever the answers. *)
Fixpoint returns {A} (P : A -> Prop) (p : Prog A) : Prop :=
  match p with
  | Ret a => P a
  | Panic _ => True
  | Call op k => forall r, returns P (k r)
  end.

(** A Go result that carries an error carries no repoll request. *)
Definition quietOnError (res : result) : Prop :=
  match res with
  | (repoll, Some _) => repoll = false
  | (_, None) => True
  end.

(** The call is a successful insertion of a messages-unblocked event. *)
Definition isUnblockedInsert (c : called) : bool :=
  match c with
  | Called op r =>
      match op return Answer op -> bool with
      | UpsertEvent e _ =>
          fun err => bool_decide (Event.Typ e = EventTypeMessagesUnblocked)
                     && bool_decide (err = None)
      | _ => fun _ => false
      end r
  end.

(** A static bound on the calls and the outcome of every run of a program:
    [P] holds of the calls made and of how the program ended, whatever the
    calls are answered. *)
Fixpoint traced {A} (P : list called -> Outcome A -> Prop) (p : Prog A) : Prop :=
  match p with
  | Ret a => P [] (Returned a)
  | Panic q => P [] (Panicked q)
  | Call op k => forall r, traced (fun t o => P (Called op r :: t) o) (k r)
  end.

(** A returned repoll flag tells whether a messages-unblocked event was
    inserted, [repoll] being the flag before the calls. *)
Definition repollTellsUnblocked (repoll : bool) (t : list called) (o : Outcome result) : Prop :=
  match o with
  | Returned (r, None) => r = repoll || existsb isUnblockedInsert t
  | _ => True
  end.

(** ** The order of the calls

    A rule on the calls of a run says of a call what must come before it
    ([pre]) and after it ([post]). *)
Definition callRule : Type := list called -> called -> list called -> Prop.

(** Every call of [t] follows the rule. *)
Definition obeys (rule : callRule) (t : list called) : Prop :=
  forall pre c post, t = pre ++ c :: post -> rule pre c post.

Fixpoint obeysFrom (rule : callRule) (pre t : list called) : Prop :=
  match t with
  | [] => True
  | c :: post => rule pre c post /\ obeysFrom rule (pre ++ [c]) post
  end.

(** The rule looks at the calls next to a call only: more calls before or
    after do not break it. *)
Definition local (rule : callRule) : Prop :=
  forall x pre c post y, rule pre c post -> rule (x ++ pre) c (post ++ y).

(** The calls processEvent and processEvents make outside of
    checkMessageComplete. *)
Definition outsideCheck (op : Op) : bool :=
  match op with
  | GetMessagesForData _ _ | GetMessageByID _ | commitOffset _ => true
  | _ => false
  end.

(** The answers that let checkMessageComplete confirm the message [msg]:
    its data is available, and the lookup of the blocker of its context
    answered [blockedBy]; a message of the system namespace has then been
    accepted by the system-broadcast handler. *)
Definition clearanceCalls (msg : Message.t) (blockedBy : option Blocked.t) : list called :=
  [Called (CheckDataAvailable msg) (true, None);
   Called (blockerLookup msg) (blockedBy, None)]
  ++ (if bool_decide (MessageHeader.Namespace (Message.Header msg) = SystemNamespace)
      then [Called (HandleSystemBroadcast msg) None] else []).

(** The calls up to the successful update that confirms [msg] at [now]. *)
Definition confirmationCalls (msg : Message.t) (blockedBy : option Blocked.t)
    (now : FFTime) : list called :=
  clearanceCalls msg blockedBy
  ++ [Called Now now;
      Called (UpdateMessage (MessageHeader.ID (Message.Header msg))
                (Set_ "confirmed" (VTime now))) None].

(** The event [e] is a message-confirmed event of the message [msg], with
    the ID [id]. *)
Definition confirmedEventOf (msg : Message.t) (id : UUID) (e : Event.t) : Prop :=
  Event.ID e = Some id /\
  Event.Typ e = EventTypeMessageConfirmed /\
  Event.Namespace e = MessageHeader.Namespace (Message.Header msg) /\
  Event.Reference e = MessageHeader.ID (Message.Header msg).

(** What comes before the insertion of an event. *)
Definition insertedEvent (pre : list called) (e : Event.t) (allowExisting : bool) : Prop :=
  allowExisting = false /\
  ((exists msg blockedBy now id,
      confirmedEventOf msg id e /\
      confirmationCalls msg blockedBy now ++ [Called NewUUID id] `suffix_of` pre) \/
   (exists msg next rest blockedID id,
      Event.ID e = Some id /\
      Event.Typ e = EventTypeMessagesUnblocked /\
      Event.Namespace e = MessageHeader.Namespace (Message.Header msg) /\
      Event.Reference e = MessageRef.ID next /\
      Event.Reference e <> None /\
      [Called (GetMessageRefs (unblockableFilter msg)) (next :: rest, None);
       Called (UpdateBlocked blockedID (Set_ "message" (ptr (MessageRef.ID next)))) None;
       Called NewUUID id] `suffix_of` pre)).

Definition eventRule : callRule := fun pre c post =>
  match c with
  | Called (UpsertEvent e allowExisting) _ => insertedEvent pre e allowExisting
  | _ => True
  end.

(** What comes before and after the update of a message. *)
Definition confirmationRule : callRule := fun pre c post =>
  match c with
  | Called op r =>
      match op return Answer op -> Prop with
      | UpdateMessage id update => fun err =>
          exists msg blockedBy now,
            MessageHeader.ID (Message.Header msg) = id /\
            update = Set_ "confirmed" (VTime now) /\
            clearanceCalls msg blockedBy ++ [Called Now now] `suffix_of` pre /\
            (err = None ->
             exists i e r',
               confirmedEventOf msg i e /\
               [Called NewUUID i; Called (UpsertEvent e false) r'] `prefix_of` post)
      | _ => fun _ => True
      end r
  end.

(** What comes before and after a call of the system-broadcast handler. *)
Definition systemRule : callRule := fun pre c post =>
  match c with
  | Called op r =>
      match op return Answer op -> Prop with
      | HandleSystemBroadcast msg => fun err =>
          MessageHeader.Namespace (Message.Header msg) = SystemNamespace /\
          (exists blockedBy,
             (blockedBy = None \/
              exists b, blockedBy = Some b /\
                        Blocked.Message b = MessageHeader.ID (Message.Header msg)) /\
             [Called (CheckDataAvailable msg) (true, None);
              Called (blockerLookup msg) (blockedBy, None)] `suffix_of` pre) /\
          (err = None ->
           exists now r',
             [Called Now now;
              Called (UpdateMessage (MessageHeader.ID (Message.Header msg))
                        (Set_ "confirmed" (VTime now))) r'] `prefix_of` post)
      | _ => fun _ => True
      end r
  end.

(** What comes before a write to the Blocked rows. *)
Definition blockedRule : callRule := fun pre c post =>
  match c with
  | Called (UpsertBlocked row allowExisting) _ =>
      allowExisting = false /\
      exists msg id created,
        row = Blocked.mk (Some id) (MessageHeader.Namespace (Message.Header msg))
                (MessageHeader.Context (Message.Header msg))
                (MessageHeader.Group (Message.Header msg)) created
                (MessageHeader.ID (Message.Header msg)) /\
        [Called (CheckDataAvailable msg) (false, None);
         Called (blockerLookup msg) (None, None);
         Called NewUUID id; Called Now created] `suffix_of` pre
  | Called (UpdateBlocked blockedID update) _ =>
      exists msg b now i e next rest,
        Blocked.ID b = blockedID /\
        Blocked.Message b = MessageHeader.ID (Message.Header msg) /\
        confirmedEventOf msg i e /\
        update = Set_ "message" (ptr (MessageRef.ID next)) /\
        confirmationCalls msg (Some b) now
        ++ [Called NewUUID i; Called (UpsertEvent e false) None;
            Called (GetMessageRefs (unblockableFilter msg)) (next :: rest, None)]
        `suffix_of` pre
  | Called (DeleteBlocked blockedID) _ =>
      exists msg b now i e,
        Blocked.ID b = blockedID /\
        Blocked.Message b = MessageHeader.ID (Message.Header msg) /\
        confirmedEventOf msg i e /\
        confirmationCalls msg (Some b) now
        ++ [Called NewUUID i; Called (UpsertEvent e false) None;
            Called (GetMessageRefs (unblockableFilter msg)) ([], None)]
        `suffix_of` pre
  | _ => True
  end.

(** ** What a batch does to the store *)

(** The calls of the aggregator that write to the messages and the events:
    an update of a message sets its confirmed timestamp to a time, and an
    event is inserted with allowExisting = false. *)
Definition aggregatorCall (op : Op) : bool :=
  match op with
  | UpdateMessage _ [(field, VTime _)] => String.eqb field "confirmed"
  | UpdateMessage _ _ => false
  | UpsertEvent _ allowExisting => negb allowExisting
  | _ => true
  end.

Definition aggregatorRule : callRule := fun pre c post => callIs aggregatorCall c = true.

(** The message [m'] is the message [m], possibly confirmed since. *)
Definition keepsMessage (m m' : Message.t) : Prop :=
  Message.Header m' = Message.Header m /\
  Message.Sequence m' = Message.Sequence m /\
  Message.Data m' = Message.Data m /\
  (Message.Confirmed m <> None -> Message.Confirmed m' <> None).

(** The store [s'] holds the data of [s], the events of [s] followed by new
    ones, and the messages of [s], some of them confirmed since. *)
Definition grows (s s' : Store.t) : Prop :=
  Store.data s' = Store.data s /\
  Store.events s `prefix_of` Store.events s' /\
  Forall2 keepsMessage (Store.messages s) (Store.messages s').

(** The (namespace, context, group) a Blocked row blocks. *)
Definition contextOf (b : Blocked.t) : string * string * option UUID :=
  (Blocked.Namespace b, Blocked.Context b, Blocked.Group b).

(** No two Blocked rows of the store block the same context. *)
Definition oneBlockerPerContext (s : Store.t) : Prop :=
  NoDup (contextOf <$> Store.blocked s).

(** Every run of the program on the store keeps [I]. *)
Definition preserves {A} (I : World -> Prop) (p : Prog A) : Prop :=
  forall w, I w -> I (run storeHandler p w).1.2.

(** ** Confirmed messages and their events *)

(** The event [e] is a message-confirmed event that references the message
    [m]. *)
Definition announces (e : Event.t) (m : Message.t) : Prop :=
  Event.Typ e = EventTypeMessageConfirmed /\
  Event.Reference e = MessageHeader.ID (Message.Header m).

(** Every confirmed message of the store has a message-confirmed event. *)
Definition confirmedAreAnnounced (s : Store.t) : Prop :=
  forall m, m ∈ Store.messages s -> Message.Confirmed m <> None ->
            exists e, e ∈ Store.events s /\ announces e m.

(** The same, but for the messages with the ID [id], which wait for their
    event. *)
Definition announcedBut (id : option UUID) (s : Store.t) : Prop :=
  forall m, m ∈ Store.messages s -> Message.Confirmed m <> None ->
            MessageHeader.ID (Message.Header m) = id \/
            exists e, e ∈ Store.events s /\ announces e m.

(** A run of the program from a world with [P] that returns without error
    ends in a world with [Q]. *)
Definition ensures (P Q : World -> Prop) (p : Prog result) : Prop :=
  forall w, P w ->
            failed (run storeHandler p w).1.1 = false ->
            Q (run storeHandler p w).1.2.

(** The message [m] after the update that confirms the messages with the ID
    [id] at the time [now]. *)
Definition confirmAt (id : option UUID) (now : FFTime) (m : Message.t) : Message.t :=
  if hasID id m
  then Message.mk (Message.Header m) (Message.Sequence m) (Some now) (Message.Data m)
  else m.

(** ** Panics *)

(** Every message of the store has an ID. *)
Definition identified (s : Store.t) : Prop :=
  Forall (fun m => MessageHeader.ID (Message.Header m) <> None) (Store.messages s).

(** The messages and message references of an answer have an ID. *)
Definition answersIdentified (op : Op) : Answer op -> Prop :=
  match op return Answer op -> Prop with
  | GetMessagesForData _ _ => fun r =>
      Forall (fun m => MessageHeader.ID (Message.Header m) <> None) r.1
  | GetMessageRefs _ => fun r => Forall (fun m => MessageRef.ID m <> None) r.1
  | _ => fun _ => True
  end.

(** No run of the program panics, as long as the answers name no message
    without ID. *)
Fixpoint neverPanics {A} (p : Prog A) : Prop :=
  match p with
  | Ret _ => True
  | Panic _ => False
  | Call op k => forall r, answersIdentified op r -> neverPanics (k r)
  end.

(** ** The states of a store whose calls can fail

    [step] is the progress of ingestion and of the batches from a given
    world; no step of it makes the persistence layer fail a call.  [evolves]
    adds that: before any step, the calls that the persistence layer is
    going to fail can be set to any list (one entry per store call to come,
    [Some e] fails the call with [e]).  The worlds [attainable] from the
    empty store are those of every run of ingestion and batches in which any
    calls fail. *)
Inductive evolves : World -> World -> Prop :=
| evolves_step w w' : step w w' -> evolves w w'
| evolves_faults w fs : evolves w (mkWorld (store w) fs (nextUUID w) (clock w)).

Definition attainable (w : World) : Prop := rtc evolves initialWorld w.

(** ** Concrete runs used by the examples *)
Module Scenario.

Definition header (id : UUID) : MessageHeader.t :=
  MessageHeader.mk (Some id) "ns1" "ctx1" None.
Arguments header id%_N.

(** *** A later message confirmed before an earlier one

    The data 202 arrives; then the envelopes of message 101 (waiting for
    data 201) and of message 102 (waiting for data 202) arrive, in this
    order, in the same context.  The poller hands over the first pending
    event alone, the data-arrived event: message 102 is confirmed.  The next
    batch holds the two sequenced events (and the message-confirmed event):
    message 101 is not complete and blocks the context.  At last data 201
    arrives, and its event confirms message 101. *)
Definition dataArrived : World := ingestData 202%N "ns1" initialWorld.
Definition message1Arrived : World := ingestMessage (header 101) [201%N] dataArrived.
Definition message2Arrived : World := ingestMessage (header 102) [202%N] message1Arrived.
Definition firstBatch : list Event.t := take 1 (pending (store message2Arrived)).
Definition afterFirstBatch : World :=
  (processEventRetryAndGroup firstBatch message2Arrived).1.2.
Definition secondBatch : list Event.t := take 3 (pending (store afterFirstBatch)).
Definition afterSecondBatch : World :=
  (processEventRetryAndGroup secondBatch afterFirstBatch).1.2.
Definition lastDataArrived : World := ingestData 201%N "ns1" afterSecondBatch.
Definition lastBatch : list Event.t := take 1 (pending (store lastDataArrived)).
Definition afterLastBatch : World :=
  (processEventRetryAndGroup lastBatch lastDataArrived).1.2.

(** The two messages as the store holds them in the end. *)
Definition message1 : Message.t := Message.mk (header 101) 2 (Some 3) [201%N].
Definition message2 : Message.t := Message.mk (header 102) 3 (Some 1) [202%N].

(** *** A batch whose first event asks for a repoll

    The envelopes of message 101 (waiting for data 201) and of message 102
    (waiting for data 202) arrive and are processed: neither is complete, and
    the context is blocked by message 101.  Then data 201 and an unrelated
    data 209 arrive, and the poller hands over the two data-arrived events
    in one batch. *)
Definition envelopesArrived : World :=
  ingestMessage (header 102) [202%N] (ingestMessage (header 101) [201%N] initialWorld).
Definition envelopesProcessed : World :=
  (processEventRetryAndGroup (pending (store envelopesArrived)) envelopesArrived).1.2.
Definition beforeRepollBatch : World :=
  ingestData 209%N "ns1" (ingestData 201%N "ns1" envelopesProcessed).
Definition repollBatch : list Event.t := pending (store beforeRepollBatch).

(** *** Single events and messages *)
Definition sequenced (id : UUID) (seq : Z) (ref : UUID) : Event.t :=
  Event.mk (Some id) seq EventTypeMessageSequencedBroadcast "ns1" (Some ref).
Definition arrived (id : UUID) (seq : Z) (ref : UUID) : Event.t :=
  Event.mk (Some id) seq EventTypeDataArrivedBroadcast "ns1" (Some ref).
Definition confirmed (id : UUID) (seq : Z) (ref : UUID) : Event.t :=
  Event.mk (Some id) seq EventTypeMessageConfirmed "ns1" (Some ref).

Arguments sequenced id%_N seq%_Z ref%_N.
Arguments arrived id%_N seq%_Z ref%_N.
Arguments confirmed id%_N seq%_Z ref%_N.

(** Message 101 as the store holds it while it waits for data 201. *)
Definition waiting1 : Message.t := Message.mk (header 101) 1 None [201%N].

(** The store fails its first call. *)
Definition failing (w : World) : World :=
  mkWorld (store w) [Some "connection lost"] (nextUUID w) (clock w).

(** The calls of the first batch above, around the update of message 102. *)
Definition firstBatchCalls : list called :=
  (run storeHandler (processEvents firstBatch) message2Arrived).2.
Definition beforeUpdate : list called := take 5 firstBatchCalls.
Definition afterUpdate : list called := drop 6 firstBatchCalls.

(** Message 101 checked on its sequenced event while its data is missing. *)
Definition notReady : Outcome result * World * list called :=
  run storeHandler (checkMessageComplete waiting1 ∅ (sequenced 1 1 101)) envelopesArrived.

Definition blockerCreated : Outcome (option Blocked.t * option error) * World * list called :=
  run storeHandler (checkUpdateContextBlocked waiting1 false) envelopesArrived.

(** Message 101 checked on the arrival of its data, its context being
    blocked by itself. *)
Definition unblocking : Outcome result * World * list called :=
  run storeHandler (checkMessageComplete waiting1 ∅ (arrived 4 3 201)) beforeRepollBatch.
Definition blocker1 : Blocked.t :=
  Blocked.mk (Some 3%N) "ns1" "ctx1" None 1 (Some 101%N).

(** A store that hands out a message without ID. *)
Definition anonymous : World :=
  mkWorld (Store.mk [Message.mk (MessageHeader.mk None "ns1" "ctx1" None) 1 None [201%N]]
             [arrived 1 1 201] [] [201%N] 0) [] 2%N 1.

(** *** An envelope later in the batch

    Message 101 waits for data 201 and blocks its context.  Then data 201
    arrives and, after it, the envelope of message 102 of the same context:
    the poller hands over the data-arrived event and the envelope of 102 in
    one batch, so that the index holds the envelope of 102 while the
    data-arrived event is processed. *)
Definition blockedBy101 : World :=
  (processEventRetryAndGroup
     (pending (store (ingestMessage (header 101) [201%N] initialWorld)))
     (ingestMessage (header 101) [201%N] initialWorld)).1.2.
Definition successorArrived : World :=
  ingestMessage (header 102) [202%N] (ingestData 201%N "ns1" blockedBy101).
Definition successorAhead : eventsByRef :=
  removeEvent (indexByRef (pending (store successorArrived))) (arrived 3 2 201).
Definition blocker2 : Blocked.t :=
  Blocked.mk (Some 2%N) "ns1" "ctx1" None 1 (Some 101%N).
Definition notUnblocking : Outcome result * World * list called :=
  run storeHandler (checkMessageComplete waiting1 successorAhead (arrived 3 2 201))
    successorArrived.

(** *** Two messages waiting for the same data

    Message 101 waits for data 201 and 202 and blocks its context.  Then
    data 201 arrives and, after it, the envelope of message 102, which
    references data 201 too: while the data-arrived event is processed, the
    store holds both messages, and the index the envelope of 102 only. *)
Definition both101 : Message.t := Message.mk (header 101) 1 None [201%N; 202%N].
Definition second102 : Message.t := Message.mk (header 102) 3 None [201%N].
Definition partlyArrived : World :=
  (processEventRetryAndGroup
     (pending (store (ingestMessage (header 101) [201%N; 202%N] initialWorld)))
     (ingestMessage (header 101) [201%N; 202%N] initialWorld)).1.2.
Definition sharedArrived : World :=
  ingestMessage (header 102) [201%N] (ingestData 201%N "ns1" partlyArrived).
Definition sharedAhead : eventsByRef :=
  removeEvent (indexByRef (pending (store sharedArrived))) (arrived 3 2 201).

End Scenario.

(** ** Further runs of the aggregator *)
Module Cases.

(** The calls of the batch of the two data-arrived events of the scenario:
    message 101 is confirmed and the blocker redirected to message 102. *)
Definition repollCalls : list called :=
  (run storeHandler (processEvents Scenario.repollBatch) Scenario.beforeRepollBatch).2.
Definition unblocked102 : Event.t :=
  Event.mk (Some 7%N) 0 EventTypeMessagesUnblocked "ns1" (Some 102%N).

(** The calls of the batch of the two envelopes, whose data is missing:
    the context gets blocked by message 101. *)
Definition envelopes : list Event.t := pending (store Scenario.envelopesArrived).
Definition envelopeCalls : list called :=
  (run storeHandler (processEvents envelopes) Scenario.envelopesArrived).2.

(** The calls of the last batch of the scenario of the confirmation order:
    message 101 is confirmed and, message 102 being confirmed already, the
    blocker is deleted. *)
Definition lastCalls : list called :=
  (run storeHandler (processEvents Scenario.lastBatch) Scenario.lastDataArrived).2.

(** A message of the system namespace without data, and the batch of its
    envelope. *)
Definition systemHeader : MessageHeader.t :=
  MessageHeader.mk (Some 101%N) SystemNamespace "ctx1" None.
Definition systemMessage : Message.t := Message.mk systemHeader 1 None [].
Definition systemArrived : World := ingestMessage systemHeader [] initialWorld.
Definition systemCalls : list called :=
  (run storeHandler (processEvents (pending (store systemArrived))) systemArrived).2.

(** Message 102 as the store holds it once its data and its envelope have
    arrived, in the scenario of the confirmation order. *)
Definition waiting2 : Message.t := Message.mk (Scenario.header 102) 3 None [202%N].

(** The envelope of message 101 has arrived, its data has not, and the
    store is going to fail the fourth call that can fail, the creation of the
    Blocked row: the batch fails and is rolled back, and the poller hands the
    envelope over again. *)
Definition envelope101 : World := ingestMessage (Scenario.header 101) [201%N] initialWorld.
Definition failingUpsert : World :=
  mkWorld (store envelope101) [None; None; None; Some "connection lost"]
    (nextUUID envelope101) (clock envelope101).
Definition afterFailure : World :=
  (processEventRetryAndGroup (take 1 (pending (store failingUpsert))) failingUpsert).1.2.
Definition afterRetry : World :=
  (processEventRetryAndGroup (take 1 (pending (store afterFailure))) afterFailure).1.2.

(** In the scenario of the confirmation order, the store is going to fail
    the sixth call that can fail of the first batch: the update that
    confirms message 102 succeeds, the insertion of its message-confirmed
    event fails. *)
Definition failingInsert : World :=
  mkWorld (store Scenario.message2Arrived) (replicate 5 None ++ [Some "connection lost"])
    (nextUUID Scenario.message2Arrived) (clock Scenario.message2Arrived).
Definition failedInsert : Outcome result * World * list called :=
  processEventRetryAndGroup (take 1 (pending (store failingInsert))) failingInsert.
Definition confirmed102 : Event.t :=
  Event.mk (Some 4%N) 0 EventTypeMessageConfirmed "ns1" (Some 102%N).

End Cases.

(** * Properties *)

(** ** Runs and static bounds *)

Lemma run_bind {W A B} (h : Handler W) (m : Prog A) (f : A -> Prog B) (w : W) :
  run h (bind m f) w =
  match run h m w with
  | (Returned a, w1, t1) => let '(o, w2, t2) := run h (f a) w1 in (o, w2, t1 ++ t2)
  | (Panicked p, w1, t1) => (Panicked p, w1, t1)
  end.
Proof.
  revert w. induction m as [a|p|op k IH]; intros w; simpl.
  - destruct (run h (f a) w) as [[o w2] t2]. reflexivity.
  - reflexivity.
  - destruct (h op w) as [r w1]. rewrite IH.
    destruct (run h (k r) w1) as [[[a|p] w2] t]; [|reflexivity].
    destruct (run h (f a) w2) as [[o w3] t3]. reflexivity.
Qed.

Lemma within_bind {A B} okCall okPanic (m : Prog A) (f : A -> Prog B) :
  within okCall okPanic m -> (forall a, within okCall okPanic (f a)) ->
  within okCall okPanic (bind m f).
Proof.
  induction m as [a|p|op k IH]; simpl; intros Hm Hf; [auto|auto|].
  destruct Hm as [Hop Hk]. split; [exact Hop|]. intros r. apply IH; auto.
Qed.

Lemma within_run {W A} okCall okPanic (p : Prog A) (h : Handler W) (w : W) :
  within okCall okPanic p ->
  Forall (fun c => callIs okCall c = true) (run h p w).2 /\
  (forall q, (run h p w).1.1 = Panicked q -> okPanic q = true).
Proof.
  revert w. induction p as [a|p|op k IH]; intros w; simpl; intros Hp.
  - split; [constructor|]. intros q Hq. discriminate.
  - split; [constructor|]. intros q Hq. congruence.
  - destruct Hp as [Hop Hk]. destruct (h op w) as [r w1].
    specialize (IH r w1 (Hk r)). destruct (run h (k r) w1) as [[o w2] t]. simpl in *.
    destruct IH as [IH1 IH2]. split; [constructor; auto|auto].
Qed.

Ltac within_step :=
  match goal with
  | |- within _ _ (bind _ _) => apply within_bind
  | |- within _ _ (match ?x with _ => _ end) => destruct x
  | |- within _ _ (Call _ _) => split; [reflexivity|]
  | |- within _ _ (Ret _) => exact I
  | |- within _ _ (Panic _) => reflexivity
  | |- within _ _ (call _) => split; [reflexivity|]
  | |- within _ _ (deref _ _) => unfold deref
  | |- within _ _ (NewEvent _ _ _) => unfold NewEvent
  | |- forall _, _ => intros ?
  end.

Lemma checkUpdateContextBlocked_within msg complete :
  within notCommitOffset messagePanic (checkUpdateContextBlocked msg complete).
Proof. unfold checkUpdateContextBlocked. repeat within_step. Qed.

Lemma unblockContext_within msg lookahead blockedBy :
  within notCommitOffset messagePanic (unblockContext msg lookahead blockedBy).
Proof. unfold unblockContext. repeat within_step. Qed.

Lemma completeAndConfirm_within msg lookahead :
  within notCommitOffset messagePanic (completeAndConfirm msg lookahead).
Proof.
  unfold completeAndConfirm.
  repeat first [ apply checkUpdateContextBlocked_within
               | apply unblockContext_within
               | within_step ].
Qed.

Lemma checkMessageComplete_within msg lookahead event :
  within notCommitOffset messagePanic (checkMessageComplete msg lookahead event).
Proof.
  unfold checkMessageComplete.
  repeat first [ apply completeAndConfirm_within | within_step ].
Qed.

Lemma processDataArrived_range_within lookahead event msgs repoll :
  within notCommitOffset messagePanic (processDataArrived_range lookahead event msgs repoll).
Proof.
  revert repoll. induction msgs as [|msg msgs IH]; intros repoll; simpl; [exact I|].
  repeat first [ apply checkMessageComplete_within | apply IH | within_step ].
Qed.

Lemma processEvent_within batchRefs event :
  within notCommitOffset messagePanic (processEvent batchRefs event).
Proof.
  unfold processEvent, processDataArrived.
  repeat first [ apply checkMessageComplete_within
               | apply processDataArrived_range_within
               | within_step ].
Qed.

(** ** Events that need no aggregation *)

(** The first loop of processEvents makes no call: it either builds the index
    or panics on a nil Reference. *)
Lemma buildLookahead_ok lookahead events :
  Forall (fun ev => Event.Reference ev <> None) events ->
  exists lookahead', buildLookahead lookahead events = Ret lookahead'.
Proof.
  revert lookahead. induction events as [|ev events IH]; intros lookahead Hwf; simpl.
  - eauto.
  - inversion Hwf as [|? ? Hev Hrest]; subst.
    destruct (Event.Reference ev) as [ref|]; [|congruence]. simpl. apply IH, Hrest.
Qed.

Lemma buildLookahead_nil lookahead events :
  Exists (fun ev => Event.Reference ev = None) events ->
  buildLookahead lookahead events = Panic NilEventReference.
Proof.
  revert lookahead. induction events as [|ev events IH]; intros lookahead Hex; simpl.
  - inversion Hex.
  - destruct (Event.Reference ev) as [ref|] eqn:Href; simpl; [|reflexivity].
    apply IH. inversion Hex; subst; [congruence|assumption].
Qed.

Lemma buildLookahead_cases lookahead events :
  (exists lookahead', buildLookahead lookahead events = Ret lookahead') \/
  buildLookahead lookahead events = Panic NilEventReference.
Proof.
  revert lookahead. induction events as [|ev events IH]; intros lookahead; simpl.
  - eauto.
  - destruct (Event.Reference ev); simpl; [apply IH|auto].
Qed.

Lemma processEvent_inert batchRefs event :
  inert event -> processEvent batchRefs event = Ret (false, None).
Proof.
  intros [Hd Hs]. unfold processEvent. destruct (Event.Typ event); congruence.
Qed.

(** The second loop on events that are all inert. *)
Lemma processEvents_range_inert all lookahead events :
  Forall inert events ->
  processEvents_range all lookahead events false = Panic NilEventID \/
  processEvents_range all lookahead events false = processEvents_range all lookahead [] false.
Proof.
  revert lookahead. induction events as [|ev events IH]; intros lookahead Hin.
  - right. reflexivity.
  - inversion Hin as [|? ? Hev Hrest]; subst. simpl.
    destruct (Event.ID ev) as [id|]; simpl; [|left; reflexivity].
    destruct (remove lookahead id) as [lookahead' removed].
    rewrite (processEvent_inert _ _ Hev). simpl.
    destruct (IH lookahead' Hrest) as [H|H]; rewrite H; auto.
Qed.

(** C6: an event of type message-confirmed, messages-unblocked, or of any
    type other than data-arrived-broadcast and message-sequenced-broadcast
    makes processEvent return (false, nil) without a single call; and a batch
    of such events makes processEvents either panic before any call, or make
    one call only, the offset commit for the last event of the batch. *)
Theorem derived_events_are_inert :
  (forall batchRefs event, inert event -> processEvent batchRefs event = Ret (false, None)) /\
  (forall W (h : Handler W) (w : W) events,
     Forall inert events ->
     (exists p, run h (processEvents events) w = (Panicked p, w, [])) \/
     (exists lastEvent,
        last events = Some lastEvent /\
        let commit := commitOffset (Event.Sequence lastEvent) in
        run h (processEvents events) w =
          (Returned (false, (h commit w).1), (h commit w).2, [Called commit (h commit w).1]))).
Proof.
  split; [exact processEvent_inert|].
  intros W h w events Hin. unfold processEvents.
  destruct (buildLookahead_cases ∅ events) as [[lookahead Hb]|Hb]; rewrite Hb; simpl;
    [|left; eauto].
  destruct (processEvents_range_inert events lookahead events Hin) as [H|H]; rewrite H; simpl;
    [left; eauto|].
  destruct (last events) as [lastEvent|]; simpl; [|left; eauto].
  right. exists lastEvent. split; [reflexivity|].
  destruct (h (commitOffset (Event.Sequence lastEvent)) w) as [err w1]. reflexivity.
Qed.

(** ** What the lookahead index answers *)

(** hasAnyOf answers true exactly when the slice the index holds for the
    reference has an event of one of the types. *)
Lemma hasAnyOf_remaining lookahead ref types :
  hasAnyOf lookahead ref types = true <-> hasRemaining lookahead ref types.
Proof.
  unfold hasAnyOf, hasRemaining. destruct (lookahead !! ref) as [events|]; simpl.
  - rewrite existsb_exists, Exists_exists. split.
    + intros (ev & Hin & Hty). exists ev. split; [apply list_elem_of_In, Hin|].
      apply existsb_exists in Hty as (t & Ht & Heq).
      apply bool_decide_eq_true in Heq. rewrite Heq. apply list_elem_of_In, Ht.
    + intros (ev & Hin & Hty). exists ev. split; [apply list_elem_of_In, Hin|].
      apply existsb_exists. exists (Event.Typ ev). split; [apply list_elem_of_In, Hty|].
      apply bool_decide_eq_true. reflexivity.
  - split; [discriminate|]. intros H. inversion H.
Qed.

Lemma hasAnyOf_not_remaining lookahead ref types :
  hasAnyOf lookahead ref types = false <-> ~ hasRemaining lookahead ref types.
Proof.
  rewrite <- hasAnyOf_remaining. destruct (hasAnyOf lookahead ref types); split;
    congruence.
Qed.

Lemma notSkipped_unskipped lookahead msgs : notSkipped lookahead msgs = unskipped lookahead msgs.
Proof.
  unfold notSkipped, unskipped. apply filter_ext. intros m.
  destruct (MessageHeader.ID (Message.Header m)) as [id|]; [|reflexivity]. f_equal.
  destruct (hasAnyOf lookahead id [EventTypeMessageSequencedBroadcast]) eqn:Hh; symmetry.
  - apply bool_decide_eq_true, hasAnyOf_remaining, Hh.
  - apply bool_decide_eq_false, hasAnyOf_not_remaining, Hh.
Qed.

(** The messages that are not skipped are those whose envelope is not still
    to come, in the order of the query. *)
Lemma unskipped_spec lookahead msgs m :
  m ∈ unskipped lookahead msgs <-> m ∈ msgs /\ ~ envelopeAhead lookahead m.
Proof.
  unfold unskipped, envelopeAhead. rewrite !list_elem_of_In, filter_In.
  split; intros [Hin Hm]; (split; [exact Hin|]).
  - intros (id & Hid & Hrem). rewrite Hid in Hm.
    apply negb_true_iff, bool_decide_eq_false in Hm. contradiction.
  - destruct (MessageHeader.ID (Message.Header m)) as [id|]; [|reflexivity].
    apply negb_true_iff, bool_decide_eq_false. intros Hrem. apply Hm. eauto.
Qed.

(** ** The store's queries *)

Lemma insertBy_perm {A} (key : A -> Z) x l : insertBy key x l ≡ₚ x :: l.
Proof.
  induction l as [|y l IH]; simpl; [reflexivity|].
  case_bool_decide; [reflexivity|]. rewrite IH. apply Permutation_swap.
Qed.

Lemma sortOn_perm {A} (key : A -> Z) l : sortOn key l ≡ₚ l.
Proof.
  induction l as [|x l IH]; simpl; [reflexivity|].
  rewrite insertBy_perm, IH. reflexivity.
Qed.

Lemma insertBy_sorted {A} (key : A -> Z) x l :
  Sorted (fun a b => key a <= key b) l ->
  Sorted (fun a b => key a <= key b) (insertBy key x l).
Proof.
  induction l as [|y l IH]; simpl; intros Hs.
  - repeat constructor.
  - case_bool_decide as Hlt.
    + constructor; [exact Hs|]. constructor. lia.
    + inversion Hs as [|? ? Hs' Hhd]; subst. constructor; [apply IH, Hs'|].
      destruct l as [|z l]; simpl.
      * constructor. lia.
      * case_bool_decide; constructor; [lia|]. inversion Hhd; subst. assumption.
Qed.

Lemma sortOn_sorted {A} (key : A -> Z) l :
  Sorted (fun a b => key a <= key b) (sortOn key l).
Proof.
  induction l as [|x l IH]; simpl; [constructor|]. apply insertBy_sorted, IH.
Qed.

Lemma filter_ext_in_twice {A} (p q r : A -> bool) l :
  (forall x, r x = q x && p x) ->
  List.filter p (List.filter q l) = List.filter r l.
Proof.
  intros Hr. induction l as [|x l IH]; simpl; [reflexivity|].
  rewrite Hr. destruct (q x); simpl; [|exact IH].
  destruct (p x); simpl; [f_equal|]; exact IH.
Qed.

Lemma unconfirmed_conds ns m :
  forallb (holds (messageField m)) (conds (unconfirmedFilter ns))
  = bool_decide (MessageHeader.Namespace (Message.Header m) = ns)
    && bool_decide (Message.Confirmed m = None).
Proof.
  simpl. rewrite andb_true_r. unfold messageField. simpl. f_equal.
  - apply bool_decide_ext. split; congruence.
  - apply bool_decide_ext. destruct (Message.Confirmed m); split; congruence.
Qed.

Lemma unconfirmed_query dataID ns (s : Store.t) :
  query messageField (unconfirmedFilter ns)
    (List.filter (referencesData dataID) (Store.messages s))
  = sortOn Message.Sequence (List.filter (awaitsData dataID ns) (Store.messages s)).
Proof.
  unfold query. cbn [sortBy limit unconfirmedFilter Sort And app].
  rewrite (filter_ext_in_twice _ _ (awaitsData dataID ns)).
  - reflexivity.
  - intros m. rewrite unconfirmed_conds. unfold awaitsData. rewrite andb_assoc. reflexivity.
Qed.

Lemma unblockable_conds msg m :
  forallb (holds (messageField m)) (conds (unblockableFilter msg)) = succeeds msg m.
Proof.
  unfold succeeds. simpl. unfold messageField. simpl. rewrite andb_true_r.
  rewrite !andb_assoc. repeat f_equal.
  - apply bool_decide_ext. split; congruence.
  - apply bool_decide_ext.
    destruct (MessageHeader.Group (Message.Header m)),
             (MessageHeader.Group (Message.Header msg)); simpl; split; congruence.
  - apply bool_decide_ext. split; congruence.
  - apply bool_decide_ext. destruct (Message.Confirmed m); split; congruence.
Qed.

Lemma unblockable_query msg (s : Store.t) :
  query messageField (unblockableFilter msg) (Store.messages s)
  = take 1 (sortOn Message.Sequence (List.filter (succeeds msg) (Store.messages s))).
Proof.
  unfold query. cbn [sortBy limit unblockableFilter Limit Sort And app].
  rewrite (List.filter_ext _ (succeeds msg)) by (intros m; apply unblockable_conds).
  reflexivity.
Qed.

Lemma sortOn_head_least {A} (key : A -> Z) l x rest :
  sortOn key l = x :: rest ->
  x ∈ l /\ forall y, y ∈ l -> key x <= key y.
Proof.
  intros Hs.
  pose proof (sortOn_perm key l) as Hp. pose proof (sortOn_sorted key l) as Hsorted.
  rewrite Hs in Hp, Hsorted. split.
  - rewrite <- Hp. apply list_elem_of_here.
  - intros y Hy. rewrite <- Hp in Hy.
    apply Sorted_StronglySorted in Hsorted; [|intros a b c; lia].
    apply StronglySorted_inv in Hsorted as [_ Hall].
    apply elem_of_cons in Hy as [->|Hy]; [lia|].
    rewrite Forall_forall in Hall. apply Hall. exact Hy.
Qed.


(** ** The dispatch of a sequenced event *)

(** C9: a message-sequenced-broadcast event whose message the store does not
    have, or has with a confirmed timestamp, is a no-op: processEvent returns
    (false, nil), and the lookup of the message is the only call it makes (so
    checkMessageComplete is not called and nothing is written). *)
Theorem sequenced_event_without_unconfirmed_message {W} (h : Handler W) (w w1 : W)
    (batchRefs : eventsByRef) (event : Event.t) (msg : option Message.t) :
  Event.Typ event = EventTypeMessageSequencedBroadcast ->
  h (GetMessageByID (Event.Reference event)) w = ((msg, None), w1) ->
  (msg = None \/ exists m, msg = Some m /\ Message.Confirmed m <> None) ->
  run h (processEvent batchRefs event) w =
    (Returned (false, None), w1,
     [Called (GetMessageByID (Event.Reference event)) (msg, None)]).
Proof.
  intros Hty Hget Hmsg. unfold processEvent. rewrite Hty. simpl. rewrite Hget.
  destruct Hmsg as [->|[m [-> Hconf]]]; simpl; [reflexivity|].
  rewrite bool_decide_eq_false_2 by exact Hconf. reflexivity.
Qed.

(** ** The blocker of a context *)

(** C4: checkUpdateContextBlocked, once the lookup of the blocker of
    (msg.namespace, msg.context, msg.group) has answered: it asks the store to
    create a Blocked row exactly when there is no blocker and the message is
    not complete, and the row it creates names msg.id; an existing blocker is
    returned as it was read, and nothing is written; with no blocker and a
    complete message nothing is created and nil is returned. *)
Theorem checkUpdateContextBlocked_creates_only_when_needed {W} (h : Handler W) (w w1 : W)
    (msg : Message.t) (complete : bool) (blocked : option Blocked.t)
    (o : Outcome (option Blocked.t * option error)) (w' : W) (t : list called) :
  let hdr := Message.Header msg in
  let lookup := blockerLookup msg in
  h lookup w = ((blocked, None), w1) ->
  run h (checkUpdateContextBlocked msg complete) w = (o, w', t) ->
  (Exists (fun c => callIs isUpsertBlocked c = true) t <-> blocked = None /\ complete = false) /\
  match blocked, complete with
  | Some b, _ =>
      o = Returned (Some b, None) /\ w' = w1 /\ t = [Called lookup (Some b, None)]
  | None, true =>
      o = Returned (None, None) /\ w' = w1 /\ t = [Called lookup (None, None)]
  | None, false =>
      exists id created err,
        let row := Blocked.mk (Some id) (MessageHeader.Namespace hdr)
                     (MessageHeader.Context hdr) (MessageHeader.Group hdr)
                     created (MessageHeader.ID hdr) in
        t = [Called lookup (None, None); Called NewUUID id; Called Now created;
             Called (UpsertBlocked row false) err] /\
        o = Returned (match err with Some _ => (None, err) | None => (Some row, None) end)
  end.
Proof.
  intros hdr lookup Hget. unfold checkUpdateContextBlocked. simpl.
  fold hdr. change (GetBlockedByContext (MessageHeader.Namespace hdr)
                      (MessageHeader.Context hdr) (MessageHeader.Group hdr)) with lookup.
  rewrite Hget.
  destruct blocked as [b|]; [|destruct complete]; simpl.
  - intros [= <- <- <-]. split; [|auto].
    split; [intros H; inversion H as [? ? Hc|? ? Hc]; [discriminate Hc|inversion Hc]
           |intros [? ?]; discriminate].
  - intros [= <- <- <-]. split; [|auto].
    split; [intros H; inversion H as [? ? Hc|? ? Hc]; [discriminate Hc|inversion Hc]
           |intros [? ?]; discriminate].
  - destruct (h NewUUID w1) as [id w2]. destruct (h Now w2) as [created w3].
    match goal with |- context [h (UpsertBlocked ?row false) w3] =>
      destruct (h (UpsertBlocked row false) w3) as [err w4] end.
    destruct err as [e|]; simpl; intros [= <- <- <-].
    + split; [|exists id, created, (Some e); auto].
      split; [auto|]. intros _. do 3 apply Exists_cons_tl. apply Exists_cons_hd. reflexivity.
    + split; [|exists id, created, None; auto].
      split; [auto|]. intros _. do 3 apply Exists_cons_tl. apply Exists_cons_hd. reflexivity.
Qed.

(** ** Batches on which processEvents panics *)

Lemma within_weaken {A} (ok1 ok2 : Op -> bool) (pk1 pk2 : panic -> bool) (p : Prog A) :
  (forall op, ok1 op = true -> ok2 op = true) ->
  (forall q, pk1 q = true -> pk2 q = true) ->
  within ok1 pk1 p -> within ok2 pk2 p.
Proof.
  intros Hop Hpk. induction p as [a|q|op k IH]; simpl; [auto|auto|].
  intros [H1 H2]. split; [auto|]. intros r. apply IH, H2.
Qed.

Lemma processEvents_range_within all lookahead events repoll :
  all <> [] ->
  Forall wellFormed events ->
  within anyCall messagePanic (processEvents_range all lookahead events repoll).
Proof.
  intros Hall. revert lookahead repoll.
  induction events as [|ev events IH]; intros lookahead repoll Hwf; simpl.
  - destruct (last all) as [lastEvent|] eqn:Hlast.
    + simpl. split; [reflexivity|]. intros r. exact I.
    + apply last_None in Hlast. contradiction.
  - inversion Hwf as [|? ? [Hid Href] Hrest]; subst.
    destruct (Event.ID ev) as [id|]; [|congruence]. simpl.
    destruct (remove lookahead id) as [lookahead' removed].
    apply within_bind.
    + eapply within_weaken; [| |apply processEvent_within]; auto.
    + intros [repoll' [e|]]; [exact I|]. apply IH, Hrest.
Qed.

(** On the empty store nothing fails and processEvent finds nothing to do. *)
Lemma processEvent_initialWorld batchRefs event :
  exists t, run storeHandler (processEvent batchRefs event) initialWorld =
            (Returned (false, None), initialWorld, t).
Proof.
  unfold processEvent, processDataArrived.
  destruct (Event.Typ event); simpl; eauto.
Qed.

Lemma processEvents_range_nil_ID all lookahead events repoll :
  Exists (fun ev => Event.ID ev = None) events ->
  (run storeHandler (processEvents_range all lookahead events repoll) initialWorld).1.1
  = Panicked NilEventID.
Proof.
  revert lookahead repoll. induction events as [|ev events IH]; intros lookahead repoll Hex.
  - inversion Hex.
  - simpl. destruct (Event.ID ev) as [id|] eqn:Hid; simpl; [|reflexivity].
    destruct (remove lookahead id) as [lookahead' removed].
    rewrite run_bind.
    destruct (processEvent_initialWorld lookahead' ev) as [t Hrun]. rewrite Hrun.
    assert (Hrest : Exists (fun ev => Event.ID ev = None) events)
      by (inversion Hex; subst; [congruence|assumption]).
    specialize (IH lookahead' false Hrest).
    destruct (run storeHandler (processEvents_range all lookahead' events false) initialWorld)
      as [[o w2] t2]. exact IH.
Qed.

(** C10: processEvents is total only on non-empty batches of events whose ID
    and Reference are not nil.  The empty batch panics on the index of its
    last event; a nil Reference panics in the first loop, before any call; a
    nil ID panics in the second loop (for instance on the empty store, where
    no earlier event of the batch fails).  For a non-empty batch of events
    with non-nil ID and Reference, whatever the collaborators answer, none of
    these three panics is raised: a run can only panic on a nil ID of a
    message or message reference handed out by the store. *)
Theorem processEvents_panics_on_malformed_batches_only :
  processEvents [] = Panic IndexOutOfRange /\
  (forall events,
     Exists (fun ev => Event.Reference ev = None) events ->
     processEvents events = Panic NilEventReference) /\
  (forall events,
     Forall (fun ev => Event.Reference ev <> None) events ->
     Exists (fun ev => Event.ID ev = None) events ->
     (run storeHandler (processEvents events) initialWorld).1.1 = Panicked NilEventID) /\
  (forall W (h : Handler W) (w : W) events p,
     events <> [] ->
     Forall wellFormed events ->
     (run h (processEvents events) w).1.1 = Panicked p ->
     p <> IndexOutOfRange /\ p <> NilEventReference /\ p <> NilEventID).
Proof.
  split; [reflexivity|]. split; [|split].
  - intros events Hex. unfold processEvents. rewrite (buildLookahead_nil _ _ Hex). reflexivity.
  - intros events Href Hid. unfold processEvents.
    destruct (buildLookahead_ok ∅ events Href) as [lookahead Hb]. rewrite Hb. simpl.
    apply processEvents_range_nil_ID, Hid.
  - intros W h w events p Hne Hwf Hrun.
    assert (Href : Forall (fun ev => Event.Reference ev <> None) events)
      by (eapply Forall_impl; [exact Hwf|]; intros ev [_ H]; exact H).
    unfold processEvents in Hrun.
    destruct (buildLookahead_ok ∅ events Href) as [lookahead Hb]. rewrite Hb in Hrun.
    simpl in Hrun.
    pose proof (within_run anyCall messagePanic _ h w
                  (processEvents_range_within events lookahead events false Hne Hwf))
      as [_ Hp].
    specialize (Hp p Hrun). destruct p; simpl in Hp; try discriminate; repeat split; discriminate.
Qed.

(** ** Calls and their answers in a trace *)

Lemma called_inj op (r r' : Answer op) : Called op r = Called op r' -> r = r'.
Proof.
  intros H. inversion H as [H1].
  apply (Eqdep_dec.inj_pair2_eq_dec _ (decide_rel (=))) in H1. exact H1.
Qed.

Lemma called_op op op' (r : Answer op) (r' : Answer op') :
  Called op r = Called op' r' -> op = op'.
Proof. intros H. inversion H. reflexivity. Qed.

(** Use an equation between two recorded calls. *)
Ltac called_eq H :=
  let Hop := fresh "Hop" in
  pose proof (called_op _ _ _ _ H) as Hop;
  first [ discriminate Hop
        | clear Hop; apply called_inj in H; simplify_eq
        | simplify_eq; try (apply called_inj in H; simplify_eq) ].

(** Split a membership in an explicit trace into its cases. *)
Ltac trace_in H :=
  repeat (apply elem_of_cons in H; destruct H as [H|H]; [try called_eq H|]);
  try (apply elem_of_nil in H; contradiction).

Ltac bool_facts :=
  unfold Equals in *; simpl in *;
  repeat match goal with
  | H : _ || _ = false |- _ => apply orb_false_iff in H; destruct H
  | H : negb _ = false |- _ => apply negb_false_iff in H
  | H : negb _ = true |- _ => apply negb_true_iff in H
  | H : bool_decide _ = true |- _ => apply bool_decide_eq_true in H
  | H : bool_decide _ = false |- _ => apply bool_decide_eq_false in H
  end.

(** Run a program against an arbitrary handler, by cases on the answers. *)
Ltac exec_case x := tryif is_var x then destruct x else destruct x eqn:?.

Ltac exec h :=
  repeat (simpl in *;
    match goal with
    | |- context [run h (match ?x with _ => _ end) _] => exec_case x
    | |- context [bind (match ?x with _ => _ end) _] => exec_case x
    | |- context [h ?op ?w] => destruct (h op w) as [? ?]
    end);
  simpl in *.

(** ** The completion check *)

(** C3: checkMessageComplete returns false and leaves the messages, the
    events and the existing Blocked rows alone (no UpdateMessage, UpsertEvent,
    UpdateBlocked or DeleteBlocked call; at most a Blocked row is created)
    in each of the cases: (a) the event's reference is not msg.id and the
    store answers that no message-sequenced-broadcast event references
    msg.id; (b) the store answers that the data of the message is not all
    available; (c) the store answers with a blocker of the message's
    (namespace, context, group) whose message is not msg.id.  The error
    returned with false is nil unless a call of the run failed (which, in
    these cases, can only be the lookup or the creation of the blocker). *)
Theorem checkMessageComplete_not_ready {W} (h : Handler W) (w : W)
    (msg : Message.t) (lookahead : eventsByRef) (event : Event.t)
    (o : Outcome result) (w' : W) (t : list called) :
  let hdr := Message.Header msg in
  run h (checkMessageComplete msg lookahead event) w = (o, w', t) ->
  (Equals (Event.Reference event) (MessageHeader.ID hdr) = false /\
   Called (GetEvents (sequencedFilter msg)) ([], None) ∈ t) \/
  Called (CheckDataAvailable msg) (false, None) ∈ t \/
  (exists b,
     Called (blockerLookup msg) (Some b, None) ∈ t /\
     Blocked.Message b <> MessageHeader.ID hdr) ->
  (exists err, o = Returned (false, err) /\
               (Forall (fun c => errorOf c = None) t -> err = None)) /\
  Forall (fun c => callIs isMutation c = false) t.
Proof.
  intros hdr.
  unfold blockerLookup, checkMessageComplete, completeAndConfirm,
    checkUpdateContextBlocked, unblockContext, NewEvent, deref.
  fold hdr. exec h.
  all: intros [= <- <- <-] Hcase.
  all: destruct Hcase as [[Heq Hin]|[Hin|[blk [Hin Hne]]]]; trace_in Hin.
  all: try solve [bool_facts; congruence].
  all: split; [|repeat constructor].
  all: eexists; split; [reflexivity|].
  all: first [ intros _; reflexivity
             | intros Hf; rewrite !Forall_cons in Hf; simpl in Hf; intuition congruence ].
Qed.

(** Find the call that splits an explicit trace. *)
Ltac split_trace tac :=
  first [ exists []; tac | eexists [_]; tac | eexists [_; _]; tac
        | eexists [_; _; _]; tac | eexists [_; _; _; _]; tac
        | eexists [_; _; _; _; _]; tac | eexists [_; _; _; _; _; _]; tac
        | eexists [_; _; _; _; _; _; _]; tac | eexists [_; _; _; _; _; _; _; _]; tac
        | eexists [_; _; _; _; _; _; _; _; _]; tac ].

Ltac in_trace :=
  repeat first [ apply list_elem_of_here | apply list_elem_of_further ].

(** Use that no call of an explicit trace failed. *)
Ltac no_failure Hf :=
  rewrite ?Forall_cons in Hf; simpl in Hf;
  repeat match type of Hf with
         | _ /\ _ => let H := fresh in destruct Hf as [H Hf]; try discriminate H
         end.

(** C5: when checkMessageComplete confirms a message msg whose context
    blocker names msg.id, it asks the store for the unconfirmed messages of
    msg's (namespace, group, context) with a sequence above msg.sequence, in
    sequence order, limit 1: the store answers with such a message N of least
    sequence, or with nothing when there is none.  With an answer N (and no
    failing call) the blocker's message is updated to N.id, and then, if and
    only if the lookahead index has no remaining message-confirmed or
    message-sequenced-broadcast event for N.id (the slice the index holds for
    N.id has no event of these types), a messages-unblocked event referencing
    N.id is inserted and repoll = true is returned; when the index has such
    an event nothing is inserted and repoll = false is returned.  With no
    answer the blocker is deleted. *)
Theorem checkMessageComplete_unblocks_successor :
  (forall (w : World) (msg : Message.t),
     let messages := Store.messages (store w) in
     match (perform (GetMessageRefs (unblockableFilter msg)) w).1 with
     | ([], None) => forall m, m ∈ messages -> succeeds msg m = false
     | ([N], None) =>
         exists m, m ∈ messages /\ succeeds msg m = true /\ N = toRef m /\
                   forall m', m' ∈ messages -> succeeds msg m' = true ->
                              Message.Sequence m <= Message.Sequence m'
     | _ => False
     end) /\
  (forall W (h : Handler W) (w : W) (msg : Message.t) (lookahead : eventsByRef)
          (event : Event.t) (o : Outcome result) (w' : W) (t : list called)
          (b : Blocked.t) (now : FFTime),
     let hdr := Message.Header msg in
     run h (checkMessageComplete msg lookahead event) w = (o, w', t) ->
     Forall (fun c => errorOf c = None) t ->
     Called (blockerLookup msg) (Some b, None) ∈ t ->
     Blocked.Message b = MessageHeader.ID hdr ->
     Called (UpdateMessage (MessageHeader.ID hdr) (Set_ "confirmed" (VTime now))) None ∈ t ->
     exists pre unblockable rest,
       t = pre ++ Called (GetMessageRefs (unblockableFilter msg)) (unblockable, None) :: rest /\
       Called (UpdateMessage (MessageHeader.ID hdr) (Set_ "confirmed" (VTime now))) None
         ∈ pre /\
       match unblockable with
       | [] =>
           rest = [Called (DeleteBlocked (Blocked.ID b)) None] /\ o = Returned (false, None)
       | N :: _ =>
           forall n, MessageRef.ID N = Some n ->
             let update :=
               Called (UpdateBlocked (Blocked.ID b) (Set_ "message" (VUUID n))) None in
             let remaining :=
               hasRemaining lookahead n
                 [EventTypeMessageConfirmed; EventTypeMessageSequencedBroadcast] in
             (remaining /\ rest = [update] /\ o = Returned (false, None)) \/
             (~ remaining /\
              exists id,
                rest = [update; Called NewUUID id;
                        Called (UpsertEvent
                                  (Event.mk (Some id) 0 EventTypeMessagesUnblocked
                                     (MessageHeader.Namespace hdr) (Some n)) false)
                          None] /\
                o = Returned (true, None))
       end).
Proof.
  split.
  { intros w msg messages. cbn [perform fst]. rewrite unblockable_query. fold messages.
    destruct (sortOn Message.Sequence (List.filter (succeeds msg) messages))
      as [|m sorted] eqn:Hs.
    - simpl. intros m Hm.
      destruct (succeeds msg m) eqn:Hsucc; [|reflexivity].
      assert (Hin : m ∈ List.filter (succeeds msg) messages)
        by (apply list_elem_of_In, filter_In; split; [apply list_elem_of_In, Hm|exact Hsucc]).
      pose proof (sortOn_perm Message.Sequence (List.filter (succeeds msg) messages)) as Hp.
      rewrite Hs in Hp. apply Permutation_nil in Hp. rewrite Hp in Hin.
      apply elem_of_nil in Hin. contradiction.
    - simpl. apply sortOn_head_least in Hs as [Hin Hleast].
      apply list_elem_of_In, filter_In in Hin as [Hin Hsucc].
      exists m. split; [apply list_elem_of_In, Hin|]. split; [exact Hsucc|].
      split; [reflexivity|]. intros m' Hm' Hsucc'. apply Hleast.
      apply list_elem_of_In, filter_In. split; [apply list_elem_of_In, Hm'|exact Hsucc']. }
  intros W h w msg lookahead event o w' t b now.
  intros hdr.
  unfold blockerLookup, checkMessageComplete, completeAndConfirm, checkUpdateContextBlocked,
    unblockContext, NewEvent, deref.
  fold hdr. exec h.
  all: intros [= <- <- <-] Hf Hb Hmsg Hupd.
  all: no_failure Hf.
  all: trace_in Hupd.
  all: trace_in Hb.
  all: try solve [bool_facts; congruence].
  all: split_trace ltac:(eexists _, _; split; [reflexivity|]).
  all: (split; [in_trace|]).
  all: try (split; reflexivity).
  all: intros n Hn; simplify_eq.
  all: cbv zeta.
  all: match goal with
       | H : hasAnyOf _ _ _ = true |- _ =>
           left; split; [apply hasAnyOf_remaining, H|split; reflexivity]
       | H : hasAnyOf _ _ _ = false |- _ =>
           right; split; [apply hasAnyOf_not_remaining, H|eexists; split; reflexivity]
       end.
Qed.

(** ** The two loops as sequences of calls *)

Section Loops.
Context {W : Type} (h : Handler W).

Lemma runAll_app ps1 ps2 (w w1 : W) os t1 :
  runAll h ps1 w = (os, w1, t1) ->
  Forall (fun o => failed o = false) os ->
  runAll h (ps1 ++ ps2) w =
  let '(os2, w2, t2) := runAll h ps2 w1 in (os ++ os2, w2, t1 ++ t2).
Proof.
  revert w os t1. induction ps1 as [|p ps1 IH]; intros w os t1; simpl.
  - intros [= <- <- <-] _. destruct (runAll h ps2 w) as [[os2 w2] t2]. reflexivity.
  - destruct (run h p w) as [[o wa] ta]. destruct (failed o) eqn:Hfail.
    + intros [= <- <- <-] Hok. inversion Hok; subst. congruence.
    + destruct (runAll h ps1 wa) as [[os1 wb] tb] eqn:Hrest.
      intros [= <- <- <-] Hok. inversion Hok; subst.
      rewrite (IH wa os1 tb Hrest) by assumption.
      destruct (runAll h ps2 wb) as [[os2 w2] t2]. simpl. rewrite app_assoc. reflexivity.
Qed.

Lemma runAll_within okCall okPanic ps (w : W) :
  Forall (within okCall okPanic) ps ->
  Forall (fun c => callIs okCall c = true) (runAll h ps w).2.
Proof.
  revert w. induction ps as [|p ps IH]; intros w Hps; simpl; [constructor|].
  inversion Hps as [|? ? Hp Hrest]; subst.
  pose proof (within_run okCall okPanic p h w Hp) as [Ht _].
  destruct (run h p w) as [[o w1] t1]. simpl in Ht.
  destruct (failed o); [exact Ht|].
  specialize (IH w1 Hrest). destruct (runAll h ps w1) as [[os w2] t2]. simpl in *.
  apply Forall_app; auto.
Qed.

Lemma eventCalls_within lookahead events :
  Forall (within notCommitOffset messagePanic) (eventCalls lookahead events).
Proof.
  revert lookahead. induction events as [|ev events IH]; intros lookahead; simpl;
    constructor; [apply processEvent_within|apply IH].
Qed.

Lemma eventCalls_app lookahead pre post :
  eventCalls lookahead (pre ++ post) =
  eventCalls lookahead pre ++ eventCalls (foldl removeEvent lookahead pre) post.
Proof.
  revert lookahead. induction pre as [|ev pre IH]; intros lookahead; simpl; [reflexivity|].
  rewrite IH. reflexivity.
Qed.

Lemma foldOr_no_failure repoll os :
  Forall (fun o => failed o = false) os ->
  foldOr repoll os = Returned (repoll || existsb repollOf os, None).
Proof.
  revert repoll. induction os as [|o os IH]; intros repoll Hok; simpl.
  - rewrite orb_false_r. reflexivity.
  - inversion Hok as [|? ? Ho Hrest]; subst.
    destruct o as [[r [e|]]|p]; simpl in Ho; try discriminate.
    rewrite IH by assumption. simpl. rewrite orb_assoc. reflexivity.
Qed.

Lemma lastRepoll_failure repoll os r e :
  Forall (fun o => failed o = false) os ->
  lastRepoll repoll (os ++ [Returned (r, Some e)]) = Returned (false, Some e).
Proof.
  revert repoll. induction os as [|o os IH]; intros repoll Hok; simpl; [reflexivity|].
  inversion Hok as [|? ? Ho Hrest]; subst.
  destruct o as [[r' [e'|]]|p]; simpl in Ho; try discriminate. apply IH, Hrest.
Qed.

Lemma processDataArrived_range_run lookahead event msgs repoll (w : W) :
  Forall (fun m => MessageHeader.ID (Message.Header m) <> None) msgs ->
  run h (processDataArrived_range lookahead event msgs repoll) w =
  let '(os, w', t) :=
    runAll h (map (fun m => checkMessageComplete m lookahead event)
                (notSkipped lookahead msgs)) w in
  (foldOr repoll os, w', t).
Proof.
  revert repoll w. induction msgs as [|msg msgs IH]; intros repoll w Hids; [reflexivity|].
  inversion Hids as [|? ? Hid Hrest]; subst. simpl.
  destruct (MessageHeader.ID (Message.Header msg)) as [id|]; [|congruence]. simpl.
  destruct (hasAnyOf lookahead id [EventTypeMessageSequencedBroadcast]); simpl.
  - apply IH, Hrest.
  - rewrite run_bind.
    destruct (run h (checkMessageComplete msg lookahead event) w) as [[o w1] t1].
    destruct o as [[r [e|]]|p]; simpl.
    + rewrite app_nil_r. reflexivity.
    + rewrite (IH (repoll || r) w1 Hrest).
      destruct (runAll h _ w1) as [[os w2] t2]. reflexivity.
    + reflexivity.
Qed.

Lemma buildLookahead_foldl lookahead events :
  Forall (fun ev => Event.Reference ev <> None) events ->
  buildLookahead lookahead events =
  Ret (foldl (fun lookahead ev =>
                match Event.Reference ev with
                | Some ref => <[ref := default [] (lookahead !! ref) ++ [ev]]> lookahead
                | None => lookahead
                end) lookahead events).
Proof.
  revert lookahead. induction events as [|ev events IH]; intros lookahead Hwf; [reflexivity|].
  inversion Hwf as [|? ? Hev Hrest]; subst. simpl.
  destruct (Event.Reference ev) as [ref|]; [|congruence]. simpl. apply IH, Hrest.
Qed.

Lemma processEvents_range_run all lookahead events repoll (w : W) :
  Forall (fun ev => Event.ID ev <> None) events ->
  run h (processEvents_range all lookahead events repoll) w =
  let '(os, w1, t1) := runAll h (eventCalls lookahead events) w in
  match lastRepoll repoll os with
  | Returned (r, None) =>
      let '(o, w2, t2) := run h (processEvents_range all lookahead [] r) w1 in
      (o, w2, t1 ++ t2)
  | o => (o, w1, t1)
  end.
Proof.
  revert lookahead repoll w. induction events as [|ev events IH]; intros lookahead repoll w Hids.
  - cbn [eventCalls runAll lastRepoll].
    destruct (run h (processEvents_range all lookahead [] repoll) w) as [[o w2] t2].
    reflexivity.
  - inversion Hids as [|? ? Hid Hrest]; subst.
    cbn [processEvents_range eventCalls runAll]. unfold removeEvent at 1 2.
    destruct (Event.ID ev) as [id|]; [|congruence]. cbn [deref bind].
    destruct (remove lookahead id) as [lookahead' removed]. cbn [fst].
    rewrite run_bind.
    destruct (run h (processEvent lookahead' ev) w) as [[o w1] t1].
    destruct o as [[r [e|]]|p]; cbn [failed lastRepoll].
    + cbn [run]. rewrite app_nil_r. reflexivity.
    + rewrite (IH lookahead' r w1 Hrest).
      destruct (runAll h (eventCalls lookahead' events) w1) as [[os w2] t2].
      cbn [lastRepoll].
      destruct (lastRepoll r os) as [[r' [e'|]]|p']; try reflexivity.
      cbn [processEvents_range].
      match goal with |- context [run h ?p w2] => destruct (run h p w2) as [[o3 w3] t3] end.
      rewrite app_assoc. reflexivity.
    + reflexivity.
Qed.

End Loops.

(** C7: processDataArrived asks the store for the messages that reference
    the event's data, filtered to the namespace and to a nil confirmed
    timestamp, sorted by sequence; the store answers with exactly the
    unconfirmed messages of the namespace whose data references contain the
    data, in ascending sequence order.  The completion check is skipped for
    the messages for which the lookahead index has a remaining
    message-sequenced-broadcast event (the slice the index holds for the ID
    of the message has an event of that type), and for no others; it is
    called, in order, for the others; the repoll flags of the calls are ORed
    into the result, and the first error ends the loop.  processEvent calls
    it with the event's namespace. *)
Theorem processDataArrived_checks_unskipped_messages :
  (forall (w : World) (dataID : option UUID) (ns : string),
     exists msgs,
       (perform (GetMessagesForData dataID (unconfirmedFilter ns)) w).1 = (msgs, None) /\
       msgs ≡ₚ List.filter (awaitsData dataID ns) (Store.messages (store w)) /\
       Sorted bySequence msgs) /\
  (forall W (h : Handler W) (w w1 : W) ns lookahead event msgs,
     let ask := GetMessagesForData (Event.Reference event) (unconfirmedFilter ns) in
     h ask w = ((msgs, None), w1) ->
     Forall (fun m => MessageHeader.ID (Message.Header m) <> None) msgs ->
     run h (processDataArrived ns lookahead event) w =
     let '(os, w2, t) :=
       runAll h (map (fun m => checkMessageComplete m lookahead event)
                   (unskipped lookahead msgs)) w1 in
     (foldOr false os, w2, Called ask (msgs, None) :: t)) /\
  (forall lookahead msgs m,
     m ∈ unskipped lookahead msgs <-> m ∈ msgs /\ ~ envelopeAhead lookahead m) /\
  (forall os,
     Forall (fun o => failed o = false) os ->
     foldOr false os = Returned (existsb repollOf os, None)) /\
  (forall batchRefs event,
     Event.Typ event = EventTypeDataArrivedBroadcast ->
     processEvent batchRefs event = processDataArrived (Event.Namespace event) batchRefs event).
Proof.
  split; [|split; [|split; [|split]]].
  - intros w dataID ns. eexists. split; [reflexivity|]. cbn [fst].
    rewrite unconfirmed_query. split; [apply sortOn_perm|apply sortOn_sorted].
  - intros W h w w1 ns lookahead event msgs ask Hask Hids.
    unfold processDataArrived. cbn [call bind run]. fold ask. rewrite Hask.
    cbn [bind]. rewrite (processDataArrived_range_run h lookahead event msgs false w1 Hids).
    rewrite notSkipped_unskipped.
    destruct (runAll h _ w1) as [[os w2] t]. reflexivity.
  - apply unskipped_spec.
  - intros os Hok. apply (foldOr_no_failure false os Hok).
  - intros batchRefs event Hty. unfold processEvent. rewrite Hty. reflexivity.
Qed.

(** C8: when processEvent returns an error for an event of a batch (the
    events before it having been processed without error), processEvents
    returns (false, that error) at once: the calls of the run are those of
    the events up to the failing one, the offset commit is not among them,
    and the events after the failing one are not processed.  Run as a group
    against the store, the failed batch leaves the store, and so the offset,
    as it was. *)
Theorem processEvents_stops_at_first_error :
  (forall W (h : Handler W) (w w1 w2 : W) events pre event post os t1 t2 repoll err,
     events = pre ++ event :: post ->
     Forall wellFormed events ->
     let lookahead := indexByRef events in
     runAll h (eventCalls lookahead pre) w = (os, w1, t1) ->
     Forall (fun o => failed o = false) os ->
     run h (processEvent (removeEvent (foldl removeEvent lookahead pre) event) event) w1
     = (Returned (repoll, Some err), w2, t2) ->
     run h (processEvents events) w = (Returned (false, Some err), w2, t1 ++ t2) /\
     Forall (fun c => callIs isCommitOffset c = false) (t1 ++ t2)) /\
  (forall (w : World) events o w' t,
     processEventRetryAndGroup events w = (o, w', t) ->
     failed o = true ->
     store w' = store w).
Proof.
  split.
  - intros W h w w1 w2 events pre event post os t1 t2 repoll err Hev Hwf lookahead
      Hpre Hok Hrun.
    subst events.
    assert (Hrefs : Forall (fun ev => Event.Reference ev <> None) (pre ++ event :: post))
      by (eapply Forall_impl; [exact Hwf|]; intros ev [_ H]; exact H).
    assert (Hids : Forall (fun ev => Event.ID ev <> None) (pre ++ event :: post))
      by (eapply Forall_impl; [exact Hwf|]; intros ev [H _]; exact H).
    split.
    + unfold processEvents. rewrite (buildLookahead_foldl _ _ Hrefs). cbn [bind].
      fold (indexByRef (pre ++ event :: post)). fold lookahead.
      rewrite (processEvents_range_run h _ lookahead _ false w Hids).
      rewrite eventCalls_app.
      rewrite (runAll_app h _ _ w w1 os t1 Hpre Hok).
      cbn [eventCalls runAll]. rewrite Hrun. cbn [failed].
      rewrite (lastRepoll_failure false os repoll err Hok). reflexivity.
    + apply Forall_app. split.
      * pose proof (runAll_within h notCommitOffset messagePanic _ w
                      (eventCalls_within lookahead pre)) as Ht.
        rewrite Hpre in Ht. cbn [snd] in Ht.
        eapply Forall_impl; [exact Ht|]. intros [op r]; simpl.
        unfold notCommitOffset. apply negb_true_iff.
      * pose proof (within_run notCommitOffset messagePanic _ h w1
                      (processEvent_within
                         (removeEvent (foldl removeEvent lookahead pre) event) event))
          as [Ht _].
        rewrite Hrun in Ht. cbn [snd] in Ht.
        eapply Forall_impl; [exact Ht|]. intros [op r]; simpl.
        unfold notCommitOffset. apply negb_true_iff.
  - intros w events o w' t. unfold processEventRetryAndGroup, RunAsGroup.
    destruct (run storeHandler (processEvents events) w) as [[o1 w1] t1].
    destruct (failed o1) eqn:Hf; intros [= <- <- <-]; [reflexivity|congruence].
Qed.

(** ** What a confirmation waits for *)

Section Clearance.
Context {W : Type} (h : Handler W).

Lemma clearanceBefore_extend id update extra pre :
  clearanceBefore id update pre -> clearanceBefore id update (extra ++ pre).
Proof.
  intros (pre0 & msg & blockedBy & sys & now & -> & H).
  exists (extra ++ pre0), msg, blockedBy, sys, now. rewrite app_assoc. auto.
Qed.

Lemma cleared_app t1 t2 : cleared t1 -> cleared t2 -> cleared (t1 ++ t2).
Proof.
  intros H1 H2 pre id update r post Heq.
  apply app_eq_app in Heq as [l [[Ht1 Hpost]|[Hpre Ht2]]].
  - destruct l as [|c l]; simpl in Hpost.
    + rewrite app_nil_r in Ht1. subst pre. rewrite <- (app_nil_r t1).
      apply clearanceBefore_extend. apply (H2 [] id update r post). symmetry. exact Hpost.
    + injection Hpost as <- ->. apply (H1 pre id update r l Ht1).
  - subst pre. apply clearanceBefore_extend. apply (H2 l id update r post Ht2).
Qed.

Lemma cleared_nil : cleared [].
Proof. intros [|c pre] id update r post H; discriminate H. Qed.

Lemma cleared_call op (r : Answer op) t :
  isUpdateMessage op = false -> cleared t -> cleared (Called op r :: t).
Proof.
  intros Hop Ht. change (cleared ([Called op r] ++ t)). apply cleared_app; [|exact Ht].
  intros [|c pre] id update r' post H.
  - inversion H; subst. discriminate Hop.
  - destruct pre; discriminate H.
Qed.

Lemma Cleared_bind {A B} (m : Prog A) (f : A -> Prog B) :
  Cleared h m -> (forall a, Cleared h (f a)) -> Cleared h (bind m f).
Proof.
  intros Hm Hf w. rewrite run_bind. specialize (Hm w).
  destruct (run h m w) as [[[a|p] w1] t1]; [|exact Hm].
  specialize (Hf a w1). destruct (run h (f a) w1) as [[o w2] t2]. simpl in *.
  apply cleared_app; assumption.
Qed.

Lemma Cleared_call {A} op (k : Answer op -> Prog A) :
  isUpdateMessage op = false -> (forall r, Cleared h (k r)) -> Cleared h (Call op k).
Proof.
  intros Hop Hk w. simpl. destruct (h op w) as [r w1]. specialize (Hk r w1).
  destruct (run h (k r) w1) as [[o w2] t]. simpl in *. apply cleared_call; assumption.
Qed.

Lemma Cleared_ret {A} (a : A) : Cleared h (Ret a).
Proof. intros w. apply cleared_nil. Qed.

Lemma Cleared_panic {A} p : Cleared h (Panic p : Prog A).
Proof. intros w. apply cleared_nil. Qed.

Lemma cons_eq_inv {A} (x y : A) l l' : x :: l = y :: l' -> x = y /\ l = l'.
Proof. intros [= -> ->]. auto. Qed.

(** Look for the message update in an explicit trace. *)
Ltac scan_trace H pre :=
  first
    [ destruct pre; discriminate H
    | let c := fresh "c" in
      let Hhd := fresh "Hhd" in
      destruct pre as [|c pre]; simpl in H; apply cons_eq_inv in H as [Hhd H];
      [ called_eq Hhd | subst c; scan_trace H pre ] ].

Ltac clearance_witness :=
  unfold clearanceBefore, blockerLookup;
  first
    [ exists []; eexists _, _, [], _; split; [reflexivity|]
    | exists []; eexists _, _, [_], _; split; [reflexivity|]
    | eexists [_]; eexists _, _, [], _; split; [reflexivity|]
    | eexists [_]; eexists _, _, [_], _; split; [reflexivity|] ].

Lemma checkMessageComplete_cleared msg lookahead event :
  Cleared h (checkMessageComplete msg lookahead event).
Proof.
  intros w. 
  destruct (run h (checkMessageComplete msg lookahead event) w) as [[o w'] t] eqn:Hrun.
  simpl. revert Hrun.
  unfold checkMessageComplete, completeAndConfirm, checkUpdateContextBlocked,
    unblockContext, NewEvent, deref.
  exec h.
  all: intros [= <- <- <-].
  all: intros pre id update r post H.
  all: scan_trace H pre.
  all: bool_facts; subst; try congruence.
  all: clearance_witness.
  all: (split; [reflexivity|]); (split; [reflexivity|]).
  all: split;
    [ first [ left; reflexivity | right; eexists; split; [reflexivity|assumption] ]
    | first [ left; reflexivity | right; reflexivity ] ].
Qed.

Ltac cleared_step :=
  match goal with
  | |- Cleared _ (bind _ _) => apply Cleared_bind
  | |- Cleared _ (match ?x with _ => _ end) => destruct x
  | |- Cleared _ (Call _ _) => apply Cleared_call; [reflexivity|]
  | |- Cleared _ (call _) => apply Cleared_call; [reflexivity|]
  | |- Cleared _ (Ret _) => apply Cleared_ret
  | |- Cleared _ (Panic _) => apply Cleared_panic
  | |- Cleared _ (deref _ _) => unfold deref
  | |- Cleared _ (checkMessageComplete _ _ _) => apply checkMessageComplete_cleared
  | |- forall _, _ => intros ?
  end.

Lemma processDataArrived_range_cleared lookahead event msgs repoll :
  Cleared h (processDataArrived_range lookahead event msgs repoll).
Proof.
  revert repoll. induction msgs as [|msg msgs IH]; intros repoll; simpl.
  - apply Cleared_ret.
  - repeat first [ apply IH | cleared_step ].
Qed.

Lemma processEvent_cleared batchRefs event :
  Cleared h (processEvent batchRefs event).
Proof.
  unfold processEvent, processDataArrived.
  repeat first [ apply processDataArrived_range_cleared | cleared_step ].
Qed.

Lemma processEvents_range_cleared all lookahead events repoll :
  Cleared h (processEvents_range all lookahead events repoll).
Proof.
  revert lookahead repoll. induction events as [|ev events IH]; intros lookahead repoll; simpl.
  - repeat cleared_step.
  - destruct (Event.ID ev) as [id|]; simpl; [|apply Cleared_panic].
    destruct (remove lookahead id) as [lookahead' removed].
    repeat first [ apply processEvent_cleared | apply IH | cleared_step ].
Qed.

(** C1, as the code has it: whatever the store answers, a run of the
    aggregator over a batch updates a message (sets its confirmed timestamp)
    only right after the store has answered that the data of that message is
    available and that the (namespace, context, group) of the message has no
    Blocked row, or a Blocked row whose message field is the id of the
    message.  So no message is confirmed while the Blocked row of its context
    names another message. *)
Theorem confirmation_needs_clearance (w : W) (events : list Event.t)
    (pre post : list called) (id : option UUID) (update : Update) (r : option error) :
  (run h (processEvents events) w).2 = pre ++ Called (UpdateMessage id update) r :: post ->
  clearanceBefore id update pre.
Proof.
  intros Hrun.
  assert (Hg : Cleared h (processEvents events)).
  { unfold processEvents. apply Cleared_bind.
    - intros w0. destruct (buildLookahead_cases ∅ events) as [[la Hb]|Hb]; rewrite Hb;
        apply cleared_nil.
    - intros la. apply processEvents_range_cleared. }
  exact (Hg w pre id update r post Hrun).
Qed.

End Clearance.

(** ** What the batch loop returns *)

Lemma lastRepoll_no_failure repoll os :
  Forall (fun o => failed o = false) os ->
  lastRepoll repoll os = Returned (default repoll (repollOf <$> last os), None).
Proof.
  revert repoll. induction os as [|o os IH]; intros repoll Hok; [reflexivity|].
  inversion Hok as [|? ? Ho Hrest]; subst.
  destruct o as [[r [e|]]|p]; simpl in Ho; try discriminate.
  cbn [lastRepoll]. rewrite (IH r Hrest).
  destruct os as [|o' os]; [reflexivity|]. cbn [last]. simpl.
  destruct (last (o' :: os)) eqn:Hl; [reflexivity|].
  apply last_None in Hl. discriminate Hl.
Qed.

(** The repoll flag processEvents returns for a batch processed without
    error is the flag of the last event; the flags of the earlier events are
    overwritten. *)
Lemma processEvents_returns_last_repoll {W} (h : Handler W) (w w1 : W) events lastEvent os t1 :
  Forall wellFormed events ->
  last events = Some lastEvent ->
  runAll h (eventCalls (indexByRef events) events) w = (os, w1, t1) ->
  Forall (fun o => failed o = false) os ->
  let commit := commitOffset (Event.Sequence lastEvent) in
  run h (processEvents events) w =
    (Returned (default false (repollOf <$> last os), (h commit w1).1), (h commit w1).2,
     t1 ++ [Called commit (h commit w1).1]).
Proof.
  intros Hwf Hlast Hall Hok commit.
  assert (Hrefs : Forall (fun ev => Event.Reference ev <> None) events)
    by (eapply Forall_impl; [exact Hwf|]; intros ev [_ H]; exact H).
  assert (Hids : Forall (fun ev => Event.ID ev <> None) events)
    by (eapply Forall_impl; [exact Hwf|]; intros ev [H _]; exact H).
  unfold processEvents. rewrite (buildLookahead_foldl _ _ Hrefs). cbn [bind].
  fold (indexByRef events).
  rewrite (processEvents_range_run h events _ events false w Hids), Hall.
  rewrite (lastRepoll_no_failure false os Hok).
  cbn [processEvents_range]. rewrite Hlast. cbn [call bind run]. fold commit.
  destruct (h commit w1) as [err w2]. reflexivity.
Qed.

(** C2, on the batch of the two data-arrived events: the first event
    confirms message 101, redirects the blocker to message 102, inserts a
    messages-unblocked event and asks for a repoll; the second event finds
    nothing to do; processEvents returns repoll = false, not the logical OR
    of the two. *)
Theorem processEvents_loses_repoll :
  (runAll storeHandler
     (eventCalls (indexByRef Scenario.repollBatch) Scenario.repollBatch)
     Scenario.beforeRepollBatch).1.1
  = [Returned (true, None); Returned (false, None)] /\
  (run storeHandler (processEvents Scenario.repollBatch) Scenario.beforeRepollBatch).1.1
  = Returned (false, None).
Proof. split; vm_compute; reflexivity. Qed.

(** ** The claimed confirmation order fails *)

Lemma step_batch_of (w : World) (n : nat) :
  take n (pending (store w)) <> [] ->
  step w (processEventRetryAndGroup (take n (pending (store w))) w).1.2.
Proof.
  intros Hne.
  destruct (processEventRetryAndGroup (take n (pending (store w))) w) as [[o w'] t] eqn:Hrun.
  exact (step_batch w n o w' t Hne Hrun).
Qed.

Lemma afterLastBatch_reachable : reachable Scenario.afterLastBatch.
Proof.
  unfold reachable.
  eapply rtc_l; [apply (step_data initialWorld 202%N "ns1")|].
  eapply rtc_l; [apply (step_message Scenario.dataArrived (Scenario.header 101) [201%N])|].
  eapply rtc_l; [apply (step_message Scenario.message1Arrived (Scenario.header 102) [202%N])|].
  eapply rtc_l; [apply (step_batch_of Scenario.message2Arrived 1); vm_compute; discriminate|].
  eapply rtc_l; [apply (step_batch_of Scenario.afterFirstBatch 3); vm_compute; discriminate|].
  eapply rtc_l; [apply (step_data Scenario.afterSecondBatch 201%N "ns1")|].
  apply rtc_once.
  apply (step_batch_of Scenario.lastDataArrived 1). vm_compute. discriminate.
Qed.

(** C1 as claimed fails.  The data of the later message 102 arrives before
    the two envelopes, and the poller hands over the data-arrived event
    alone: message 102 (sequence 3) is confirmed while message 101 (sequence
    2) of the same context is not, and no Blocked row exists yet.  Message 101
    is confirmed two batches later, when its own data has arrived: the two
    messages of the context are confirmed in decreasing order of sequence. *)
Lemma later_message_confirmed_first :
  ~ (forall w, reachable w -> confirmedInSequenceOrder (store w)).
Proof.
  intros Hclaim.
  specialize (Hclaim _ afterLastBatch_reachable Scenario.message2 Scenario.message1 1 3).
  assert (Hlt : Message.Sequence Scenario.message2 < Message.Sequence Scenario.message1).
  { apply Hclaim.
    - vm_compute. apply list_elem_of_further, list_elem_of_here.
    - vm_compute. apply list_elem_of_here.
    - repeat split.
    - reflexivity.
    - reflexivity.
    - lia. }
  simpl in Hlt. lia.
Qed.

(** ** The theorems at concrete inputs *)

Lemma confirmation_needs_clearance_witness :
  (run storeHandler (processEvents Scenario.firstBatch) Scenario.message2Arrived).2
  = Scenario.beforeUpdate
    ++ Called (UpdateMessage (Some 102%N) (Set_ "confirmed" (VTime 1))) None
    :: Scenario.afterUpdate /\
  clearanceBefore (Some 102%N) (Set_ "confirmed" (VTime 1)) Scenario.beforeUpdate.
Proof.
  split; [vm_compute; reflexivity|].
  apply (confirmation_needs_clearance storeHandler Scenario.message2Arrived Scenario.firstBatch
           Scenario.beforeUpdate Scenario.afterUpdate (Some 102%N)
           (Set_ "confirmed" (VTime 1)) None).
  vm_compute. reflexivity.
Defined.

Lemma checkMessageComplete_not_ready_witness :
  Called (CheckDataAvailable Scenario.waiting1) (false, None) ∈ Scenario.notReady.2 /\
  (exists err, Scenario.notReady.1.1 = Returned (false, err) /\
               (Forall (fun c => errorOf c = None) Scenario.notReady.2 -> err = None)) /\
  Forall (fun c => callIs isMutation c = false) Scenario.notReady.2.
Proof.
  assert (Hin : Called (CheckDataAvailable Scenario.waiting1) (false, None)
                ∈ Scenario.notReady.2)
    by (vm_compute; apply list_elem_of_here).
  split; [exact Hin|].
  apply (checkMessageComplete_not_ready storeHandler Scenario.envelopesArrived
           Scenario.waiting1 ∅ (Scenario.sequenced 1 1 101)
           Scenario.notReady.1.1 Scenario.notReady.1.2 Scenario.notReady.2).
  - vm_compute. reflexivity.
  - right. left. exact Hin.
Defined.

Lemma checkUpdateContextBlocked_creates_only_when_needed_witness :
  storeHandler (blockerLookup Scenario.waiting1) Scenario.envelopesArrived
  = ((None, None), Scenario.envelopesArrived) /\
  (Exists (fun c => callIs isUpsertBlocked c = true) Scenario.blockerCreated.2
   <-> (None : option Blocked.t) = None /\ false = false).
Proof.
  split; [reflexivity|].
  apply (checkUpdateContextBlocked_creates_only_when_needed storeHandler
           Scenario.envelopesArrived Scenario.envelopesArrived Scenario.waiting1 false None
           Scenario.blockerCreated.1.1 Scenario.blockerCreated.1.2 Scenario.blockerCreated.2).
  - reflexivity.
  - vm_compute. reflexivity.
Defined.

Lemma checkMessageComplete_unblocks_successor_witness :
  Forall (fun c => errorOf c = None) Scenario.notUnblocking.2 /\
  Called (blockerLookup Scenario.waiting1) (Some Scenario.blocker2, None)
    ∈ Scenario.notUnblocking.2 /\
  Called (UpdateMessage (Some 101%N) (Set_ "confirmed" (VTime 2))) None
    ∈ Scenario.notUnblocking.2 /\
  hasRemaining Scenario.successorAhead 102%N
    [EventTypeMessageConfirmed; EventTypeMessageSequencedBroadcast] /\
  exists pre unblockable rest,
    Scenario.notUnblocking.2
    = pre ++ Called (GetMessageRefs (unblockableFilter Scenario.waiting1)) (unblockable, None)
          :: rest /\
    Called (UpdateMessage (Some 101%N) (Set_ "confirmed" (VTime 2))) None ∈ pre /\
    match unblockable with
    | [] =>
        rest = [Called (DeleteBlocked (Some 2%N)) None] /\
        Scenario.notUnblocking.1.1 = Returned (false, None)
    | N :: _ =>
        forall n, MessageRef.ID N = Some n ->
          let update := Called (UpdateBlocked (Some 2%N) (Set_ "message" (VUUID n))) None in
          let remaining :=
            hasRemaining Scenario.successorAhead n
              [EventTypeMessageConfirmed; EventTypeMessageSequencedBroadcast] in
          (remaining /\ rest = [update] /\
           Scenario.notUnblocking.1.1 = Returned (false, None)) \/
          (~ remaining /\
           exists id,
             rest = [update; Called NewUUID id;
                     Called (UpsertEvent
                               (Event.mk (Some id) 0 EventTypeMessagesUnblocked
                                  "ns1" (Some n)) false) None] /\
             Scenario.notUnblocking.1.1 = Returned (true, None))
    end.
Proof.
  assert (Hok : Forall (fun c => errorOf c = None) Scenario.notUnblocking.2)
    by (vm_compute; repeat constructor).
  assert (Hb : Called (blockerLookup Scenario.waiting1) (Some Scenario.blocker2, None)
               ∈ Scenario.notUnblocking.2)
    by (vm_compute; in_trace).
  assert (Hu : Called (UpdateMessage (Some 101%N) (Set_ "confirmed" (VTime 2))) None
               ∈ Scenario.notUnblocking.2)
    by (vm_compute; in_trace).
  assert (Hahead : hasRemaining Scenario.successorAhead 102%N
                     [EventTypeMessageConfirmed; EventTypeMessageSequencedBroadcast])
    by (apply hasAnyOf_remaining; vm_compute; reflexivity).
  split; [exact Hok|]. split; [exact Hb|]. split; [exact Hu|]. split; [exact Hahead|].
  apply (proj2 checkMessageComplete_unblocks_successor World storeHandler
           Scenario.successorArrived
           Scenario.waiting1 Scenario.successorAhead (Scenario.arrived 3 2 201)
           Scenario.notUnblocking.1.1 Scenario.notUnblocking.1.2 Scenario.notUnblocking.2
           Scenario.blocker2 2).
  - vm_compute. reflexivity.
  - exact Hok.
  - exact Hb.
  - reflexivity.
  - exact Hu.
Defined.

Lemma derived_events_are_inert_witness :
  inert (Scenario.confirmed 7 5 101) /\
  processEvent ∅ (Scenario.confirmed 7 5 101) = Ret (false, None).
Proof.
  assert (Hin : inert (Scenario.confirmed 7 5 101)) by (split; discriminate).
  split; [exact Hin|].
  apply (proj1 derived_events_are_inert ∅ (Scenario.confirmed 7 5 101) Hin).
Defined.

Lemma processDataArrived_checks_unskipped_messages_witness :
  let ask := GetMessagesForData (Some 201%N) (unconfirmedFilter "ns1") in
  let msgs := [Scenario.both101; Scenario.second102] in
  storeHandler ask Scenario.sharedArrived = ((msgs, None), Scenario.sharedArrived) /\
  Forall (fun m => MessageHeader.ID (Message.Header m) <> None) msgs /\
  envelopeAhead Scenario.sharedAhead Scenario.second102 /\
  ~ envelopeAhead Scenario.sharedAhead Scenario.both101 /\
  run storeHandler (processDataArrived "ns1" Scenario.sharedAhead (Scenario.arrived 3 2 201))
    Scenario.sharedArrived
  = let '(os, w2, t) :=
      runAll storeHandler
        (map (fun m => checkMessageComplete m Scenario.sharedAhead (Scenario.arrived 3 2 201))
           (unskipped Scenario.sharedAhead msgs))
        Scenario.sharedArrived in
    (foldOr false os, w2, Called ask (msgs, None) :: t).
Proof.
  intros ask msgs.
  assert (Hask : storeHandler ask Scenario.sharedArrived
                 = ((msgs, None), Scenario.sharedArrived))
    by (vm_compute; reflexivity).
  assert (Hids : Forall (fun m => MessageHeader.ID (Message.Header m) <> None) msgs)
    by (repeat constructor; discriminate).
  assert (Hskip : envelopeAhead Scenario.sharedAhead Scenario.second102).
  { exists 102%N. split; [reflexivity|]. apply hasAnyOf_remaining. vm_compute. reflexivity. }
  assert (Hcheck : ~ envelopeAhead Scenario.sharedAhead Scenario.both101).
  { intros (id & [= <-] & Hrem). apply hasAnyOf_remaining in Hrem. vm_compute in Hrem.
    discriminate Hrem. }
  split; [exact Hask|]. split; [exact Hids|]. split; [exact Hskip|]. split; [exact Hcheck|].
  exact (proj1 (proj2 processDataArrived_checks_unskipped_messages) World storeHandler
           Scenario.sharedArrived Scenario.sharedArrived "ns1" Scenario.sharedAhead
           (Scenario.arrived 3 2 201) msgs Hask Hids).
Defined.

Lemma processEvents_stops_at_first_error_witness :
  Forall wellFormed Scenario.repollBatch /\
  run storeHandler (processEvents Scenario.repollBatch)
    (Scenario.failing Scenario.beforeRepollBatch)
  = (Returned (false, Some "connection lost"),
     mkWorld (store Scenario.beforeRepollBatch) [] 6%N 2,
     [] ++ [Called (GetMessagesForData (Some 201%N) (unconfirmedFilter "ns1"))
              ([], Some "connection lost")]).
Proof.
  assert (Hwf : Forall wellFormed Scenario.repollBatch)
    by (vm_compute; repeat constructor; discriminate).
  split; [exact Hwf|].
  apply (proj1 processEvents_stops_at_first_error World storeHandler
           (Scenario.failing Scenario.beforeRepollBatch)
           (Scenario.failing Scenario.beforeRepollBatch)
           (mkWorld (store Scenario.beforeRepollBatch) [] 6%N 2)
           Scenario.repollBatch [] (Scenario.arrived 4 3 201) [Scenario.arrived 5 4 209]
           [] [] _ false "connection lost").
  - vm_compute. reflexivity.
  - exact Hwf.
  - reflexivity.
  - constructor.
  - vm_compute. reflexivity.
Defined.

Lemma sequenced_event_without_unconfirmed_message_witness :
  storeHandler (GetMessageByID (Some 101%N)) initialWorld = ((None, None), initialWorld) /\
  run storeHandler (processEvent ∅ (Scenario.sequenced 1 1 101)) initialWorld
  = (Returned (false, None), initialWorld,
     [Called (GetMessageByID (Some 101%N)) (None, None)]).
Proof.
  split; [reflexivity|].
  apply (sequenced_event_without_unconfirmed_message storeHandler initialWorld initialWorld
           ∅ (Scenario.sequenced 1 1 101) None).
  - reflexivity.
  - reflexivity.
  - left. reflexivity.
Defined.

Lemma processEvents_panics_on_malformed_batches_only_witness :
  (run storeHandler (processEvents [Scenario.arrived 1 1 201]) Scenario.anonymous).1.1
  = Panicked NilMessageID /\
  NilMessageID <> IndexOutOfRange /\ NilMessageID <> NilEventReference /\
  NilMessageID <> NilEventID.
Proof.
  split; [vm_compute; reflexivity|].
  apply (proj2 (proj2 (proj2 processEvents_panics_on_malformed_batches_only))
           World storeHandler Scenario.anonymous [Scenario.arrived 1 1 201] NilMessageID).
  - discriminate.
  - repeat constructor; discriminate.
  - vm_compute. reflexivity.
Defined.

Lemma processEvents_returns_last_repoll_witness :
  Forall wellFormed Scenario.repollBatch /\
  (run storeHandler (processEvents Scenario.repollBatch) Scenario.beforeRepollBatch).1.1
  = Returned (false, None).
Proof.
  assert (Hwf : Forall wellFormed Scenario.repollBatch)
    by (vm_compute; repeat constructor; discriminate).
  split; [exact Hwf|].
  pose proof (processEvents_returns_last_repoll storeHandler Scenario.beforeRepollBatch
                (runAll storeHandler
                   (eventCalls (indexByRef Scenario.repollBatch) Scenario.repollBatch)
                   Scenario.beforeRepollBatch).1.2
                Scenario.repollBatch (Scenario.arrived 5 4 209)
                [Returned (true, None); Returned (false, None)]
                (runAll storeHandler
                   (eventCalls (indexByRef Scenario.repollBatch) Scenario.repollBatch)
                   Scenario.beforeRepollBatch).2
                Hwf) as H.
  rewrite H; [reflexivity|reflexivity|vm_compute; reflexivity|repeat constructor].
Defined.

(** * Further properties *)

(** ** The lookahead index *)

Lemma indexOfID_Some eventID events i :
  indexOfID eventID events = Some i ->
  exists ev, events !! i = Some ev /\ Event.ID ev = Some eventID /\
             forall j ev', (j < i)%nat -> events !! j = Some ev' ->
                           Event.ID ev' <> Some eventID.
Proof.
  revert i. induction events as [|ev0 events IH]; intros i; simpl; [discriminate|].
  unfold Equals. case_bool_decide as Hid.
  - intros [= <-]. exists ev0. split; [reflexivity|]. split; [congruence|]. intros j ev' Hj. lia.
  - destruct (indexOfID eventID events) as [i'|] eqn:Hrest; simpl; [|discriminate].
    intros [= <-]. destruct (IH i' eq_refl) as (ev & Hev & Hidev & Hfirst).
    exists ev. split; [exact Hev|]. split; [exact Hidev|].
    intros [|j] ev' Hj; simpl.
    + intros [= <-]. congruence.
    + apply Hfirst. lia.
Qed.

Lemma indexOfID_None eventID events :
  indexOfID eventID events = None ->
  forall ev, ev ∈ events -> Event.ID ev <> Some eventID.
Proof.
  induction events as [|ev0 events IH]; simpl; intros Hnone ev Hev.
  - apply elem_of_nil in Hev. contradiction.
  - unfold Equals in Hnone. case_bool_decide as Hid; [discriminate|].
    destruct (indexOfID eventID events) as [i'|] eqn:Hrest; [discriminate|].
    apply elem_of_cons in Hev as [->|Hev]; [congruence|]. apply IH; [reflexivity|exact Hev].
Qed.

Lemma removeFrom_cases eventID entries (ebr : eventsByRef) :
  match removeFrom eventID entries ebr with
  | (ebr', true) =>
      exists ref events i,
        (ref, events) ∈ entries /\ indexOfID eventID events = Some i /\
        ebr' = <[ref := take i events ++ drop (S i) events]> ebr
  | (ebr', false) =>
      ebr' = ebr /\
      forall ref events, (ref, events) ∈ entries -> indexOfID eventID events = None
  end.
Proof.
  induction entries as [|[ref events] entries IH]; simpl.
  - split; [reflexivity|]. intros ref events H. apply elem_of_nil in H. contradiction.
  - destruct (indexOfID eventID events) as [i|] eqn:Hi.
    + exists ref, events, i. split; [apply list_elem_of_here|]. split; [exact Hi|reflexivity].
    + destruct (removeFrom eventID entries ebr) as [ebr' [|]].
      * destruct IH as (ref' & events' & i & Hin & Hi' & ->).
        exists ref', events', i. split; [apply list_elem_of_further, Hin|]. auto.
      * destruct IH as [-> Hall]. split; [reflexivity|].
        intros ref' events' Hin. apply elem_of_cons in Hin as [[= -> ->]|Hin]; [exact Hi|].
        apply (Hall ref' events' Hin).
Qed.

(** remove finds an event by its ID whatever its reference: it answers false
    and leaves the index alone iff no indexed event has the ID; otherwise it
    answers true and takes one event with the ID, the first of its slice, out
    of the slice of one reference, leaving the other references alone. *)
Theorem remove_takes_one_event_out (ebr : eventsByRef) (eventID : UUID) :
  match remove ebr eventID with
  | (ebr', true) =>
      exists ref events i ev,
        ebr !! ref = Some events /\ events !! i = Some ev /\
        Event.ID ev = Some eventID /\
        (forall j ev', (j < i)%nat -> events !! j = Some ev' ->
                       Event.ID ev' <> Some eventID) /\
        ebr' = <[ref := take i events ++ drop (S i) events]> ebr
  | (ebr', false) =>
      ebr' = ebr /\
      forall ref events ev, ebr !! ref = Some events -> ev ∈ events ->
                            Event.ID ev <> Some eventID
  end.
Proof.
  unfold remove. pose proof (removeFrom_cases eventID (map_to_list ebr) ebr) as H.
  destruct (removeFrom eventID (map_to_list ebr) ebr) as [ebr' [|]].
  - destruct H as (ref & events & i & Hin & Hi & ->).
    apply elem_of_map_to_list in Hin.
    destruct (indexOfID_Some _ _ _ Hi) as (ev & Hev & Hid & Hfirst).
    exists ref, events, i, ev. auto.
  - destruct H as [-> Hall]. split; [reflexivity|].
    intros ref events ev Hlook Hev.
    apply (indexOfID_None eventID events); [|exact Hev].
    apply (Hall ref events). apply elem_of_map_to_list. exact Hlook.
Qed.

(** remove never drops a reference from the index: the slice of a reference
    whose last event has been removed stays, empty. *)
Theorem remove_keeps_references (ebr : eventsByRef) (eventID : UUID) :
  dom (remove ebr eventID).1 = dom ebr.
Proof.
  unfold remove. pose proof (removeFrom_cases eventID (map_to_list ebr) ebr) as H.
  destruct (removeFrom eventID (map_to_list ebr) ebr) as [ebr' [|]]; simpl.
  - destruct H as (ref & events & i & Hin & _ & ->).
    apply elem_of_map_to_list in Hin. apply dom_insert_lookup_L. eauto.
  - destruct H as [-> _]. reflexivity.
Qed.

Lemma filter_hasRef_app ref l1 l2 :
  List.filter (hasRef ref) (l1 ++ l2) = List.filter (hasRef ref) l1 ++ List.filter (hasRef ref) l2.
Proof. apply List.filter_app. Qed.

(** The index after the first loop, for any index to start from. *)
Lemma indexByRef_from_lookup (lookahead : eventsByRef) events ref :
  Forall (fun ev => Event.Reference ev <> None) events ->
  foldl (fun lookahead ev =>
           match Event.Reference ev with
           | Some ref => <[ref := default [] (lookahead !! ref) ++ [ev]]> lookahead
           | None => lookahead
           end) lookahead events !! ref
  = match List.filter (hasRef ref) events with
    | [] => lookahead !! ref
    | evs => Some (default [] (lookahead !! ref) ++ evs)
    end.
Proof.
  revert lookahead. induction events as [|ev events IH]; intros lookahead Hrefs; [reflexivity|].
  inversion Hrefs as [|? ? Hev Hrest]; subst. cbn [foldl List.filter].
  destruct (Event.Reference ev) as [r|] eqn:Hr; [|congruence].
  rewrite (IH _ Hrest). unfold hasRef at 2. rewrite Hr.
  case_bool_decide as Heq.
  - injection Heq as ->. rewrite lookup_insert_eq. simpl.
    destruct (List.filter (hasRef ref) events); [reflexivity|].
    rewrite <- app_assoc. reflexivity.
  - rewrite lookup_insert_ne by congruence. reflexivity.
Qed.

Lemma indexByRef_lookup events ref :
  Forall (fun ev => Event.Reference ev <> None) events ->
  indexByRef events !! ref = eventsFor ref events.
Proof.
  intros Hrefs. unfold indexByRef, eventsFor.
  rewrite (indexByRef_from_lookup ∅ events ref Hrefs), lookup_empty. reflexivity.
Qed.

(** The first loop of processEvents either panics on a nil Reference or
    builds the index that maps each reference of the batch to the events of
    the batch that carry it, in batch order, and has no other key. *)
Theorem buildLookahead_indexes_batch (events : list Event.t) :
  match buildLookahead ∅ events with
  | Ret lookahead =>
      Forall (fun ev => Event.Reference ev <> None) events /\
      forall ref, lookahead !! ref = eventsFor ref events
  | Panic p =>
      p = NilEventReference /\ Exists (fun ev => Event.Reference ev = None) events
  | Call _ _ => False
  end.
Proof.
  destruct (decide (Forall (fun ev => Event.Reference ev <> None) events)) as [Hrefs|Hnil].
  - rewrite (buildLookahead_foldl ∅ events Hrefs). split; [exact Hrefs|].
    intros ref. apply (indexByRef_lookup events ref Hrefs).
  - apply not_Forall_Exists in Hnil; [|intros ev; apply _].
    assert (Hex : Exists (fun ev => Event.Reference ev = None) events).
    { eapply Exists_impl; [exact Hnil|]. intros ev Hev. simpl in Hev.
      destruct (Event.Reference ev); [|reflexivity]. exfalso. apply Hev. discriminate. }
    rewrite (buildLookahead_nil ∅ events Hex). auto.
Qed.

Lemma existsb_filter {A} (p q : A -> bool) l :
  existsb (fun x => p x && q x) l = existsb q (List.filter p l).
Proof.
  induction l as [|x l IH]; simpl; [reflexivity|].
  destruct (p x); simpl; rewrite IH; reflexivity.
Qed.

Lemma indexByRef_represents events :
  Forall (fun ev => Event.Reference ev <> None) events ->
  represents events events (indexByRef events).
Proof.
  intros Hrefs ref. rewrite (indexByRef_lookup events ref Hrefs). unfold eventsFor.
  destruct (List.filter (hasRef ref) events); reflexivity.
Qed.

(** Removing the ID of the next event of the batch takes that event, and
    nothing else, out of the index. *)
Lemma remove_represents all ev rest (lookahead : eventsByRef) id r :
  represents all (ev :: rest) lookahead ->
  ev ∈ all ->
  Event.ID ev = Some id ->
  Event.Reference ev = Some r ->
  (forall ev', ev' ∈ rest -> Event.ID ev' <> Some id) ->
  represents all rest (remove lookahead id).1.
Proof.
  intros Hrep Hall Hid Href Hfresh.
  assert (Hr : lookahead !! r = Some (ev :: List.filter (hasRef r) rest)).
  { rewrite (Hrep r). cbn [List.filter]. unfold hasRef at 2. rewrite Href.
    rewrite bool_decide_eq_true_2 by reflexivity.
    destruct (List.filter (hasRef r) all) eqn:Hf; [|reflexivity].
    assert (Hin : ev ∈ List.filter (hasRef r) all).
    { apply list_elem_of_In, filter_In. split; [apply list_elem_of_In, Hall|].
      unfold hasRef. rewrite Href. apply bool_decide_eq_true_2. reflexivity. }
    rewrite Hf in Hin. apply elem_of_nil in Hin. contradiction. }
  unfold remove. pose proof (removeFrom_cases id (map_to_list lookahead) lookahead) as H.
  destruct (removeFrom id (map_to_list lookahead) lookahead) as [lookahead' [|]]; cbn [fst].
  - destruct H as (ref & events & i & Hin & Hi & ->).
    apply elem_of_map_to_list in Hin.
    destruct (indexOfID_Some _ _ _ Hi) as (ev' & Hev' & Hid' & Hfirst).
    assert (Hevents : events = List.filter (hasRef ref) (ev :: rest)).
    { rewrite (Hrep ref) in Hin. destruct (List.filter (hasRef ref) all); congruence. }
    assert (Hmem : ev' ∈ List.filter (hasRef ref) (ev :: rest)).
    { rewrite <- Hevents. apply list_elem_of_lookup. eauto. }
    apply list_elem_of_In, filter_In in Hmem as [Hmem Hhas].
    apply list_elem_of_In, elem_of_cons in Hmem as [->|Hmem];
      [|exfalso; exact (Hfresh ev' Hmem Hid')].
    unfold hasRef in Hhas. apply bool_decide_eq_true_1 in Hhas.
    assert (ref = r) by congruence. subst ref.
    rewrite Hr in Hin. injection Hin as <-.
    assert (i = 0%nat) as ->.
    { destruct i as [|i]; [reflexivity|]. exfalso.
      apply (Hfirst 0%nat ev); [lia|reflexivity|exact Hid]. }
    cbn [take drop app]. intros ref. destruct (decide (ref = r)) as [->|Hne].
    + rewrite lookup_insert_eq.
      rewrite (Hrep r) in Hr. destruct (List.filter (hasRef r) all); [discriminate|reflexivity].
    + rewrite lookup_insert_ne by congruence. rewrite (Hrep ref). cbn [List.filter].
      unfold hasRef at 2. rewrite Href. rewrite bool_decide_eq_false_2 by congruence.
      reflexivity.
  - destruct H as [_ Hnone]. exfalso.
    assert (Hin : (r, ev :: List.filter (hasRef r) rest) ∈ map_to_list lookahead)
      by (apply elem_of_map_to_list, Hr).
    specialize (Hnone _ _ Hin). simpl in Hnone. unfold Equals in Hnone.
    rewrite Hid in Hnone. rewrite bool_decide_eq_true_2 in Hnone by reflexivity.
    discriminate.
Qed.

Lemma foldl_removeEvent_represents all pre rest (lookahead : eventsByRef) :
  represents all (pre ++ rest) lookahead ->
  (forall ev, ev ∈ pre -> ev ∈ all) ->
  Forall wellFormed pre ->
  NoDup (Event.ID <$> (pre ++ rest)) ->
  represents all rest (foldl removeEvent lookahead pre).
Proof.
  revert lookahead. induction pre as [|ev pre IH]; intros lookahead Hrep Hall Hwf Hnd;
    [exact Hrep|].
  inversion Hwf as [|? ? [Hid Href] Hwf']; subst.
  cbn [foldl]. apply IH.
  - unfold removeEvent.
    destruct (Event.ID ev) as [id|] eqn:Hid'; [|congruence].
    destruct (Event.Reference ev) as [r|] eqn:Href'; [|congruence].
    apply (remove_represents all ev (pre ++ rest) lookahead id r Hrep); auto.
    + apply Hall, list_elem_of_here.
    + intros ev' Hev' Hid''. cbn [fmap list_fmap app] in Hnd. 
      apply NoDup_cons in Hnd as [Hnotin _]. apply Hnotin.
      rewrite Hid', <- Hid''. apply list_elem_of_fmap_2. exact Hev'.
  - intros ev' Hev'. apply Hall, list_elem_of_further, Hev'.
  - exact Hwf'.
  - cbn [fmap list_fmap app] in Hnd. apply NoDup_cons in Hnd as [_ Hnd]. exact Hnd.
Qed.

(** With the lookahead index built from a batch of events with pairwise
    different IDs, and the IDs of the events up to and including the current
    one removed, hasAnyOf answers about the events after the current one, and
    about no other: it is true iff a later event of the batch carries the
    reference and has one of the types. *)
Theorem lookahead_shows_later_events events pre event post ref types :
  events = pre ++ event :: post ->
  Forall wellFormed events ->
  NoDup (Event.ID <$> events) ->
  hasAnyOf (removeEvent (foldl removeEvent (indexByRef events) pre) event) ref types
  = existsb (fun ev => hasRef ref ev && hasTypeOf types ev) post.
Proof.
  intros -> Hwf Hnd.
  assert (Hrefs : Forall (fun ev => Event.Reference ev <> None) (pre ++ event :: post))
    by (eapply Forall_impl; [exact Hwf|]; intros ev [_ H]; exact H).
  assert (Hrep : represents (pre ++ event :: post) post
                   (foldl removeEvent (indexByRef (pre ++ event :: post)) (pre ++ [event]))).
  { apply foldl_removeEvent_represents.
    - rewrite <- app_assoc. apply indexByRef_represents, Hrefs.
    - intros ev Hev. apply elem_of_app in Hev as [Hev|Hev].
      + apply elem_of_app. left. exact Hev.
      + apply elem_of_app. right. apply list_elem_of_singleton in Hev as ->.
        apply list_elem_of_here.
    - apply Forall_app in Hwf as [Hpre Hrest]. apply Forall_app. split; [exact Hpre|].
      inversion Hrest; subst. constructor; [assumption|constructor].
    - rewrite <- app_assoc. exact Hnd. }
  rewrite foldl_app in Hrep. cbn [foldl] in Hrep.
  unfold hasAnyOf. rewrite (Hrep ref). rewrite existsb_filter. fold (hasTypeOf types).
  destruct (List.filter (hasRef ref) (pre ++ event :: post)) eqn:Hall; [|reflexivity].
  rewrite List.filter_app in Hall. apply app_eq_nil in Hall as [_ Hall].
  cbn [List.filter] in Hall. destruct (hasRef ref event); [discriminate|].
  rewrite Hall. reflexivity.
Qed.

Lemma lookahead_shows_later_events_witness :
  Forall wellFormed Scenario.repollBatch /\
  NoDup (Event.ID <$> Scenario.repollBatch) /\
  hasAnyOf (removeEvent (foldl removeEvent (indexByRef Scenario.repollBatch) [])
              (Scenario.arrived 4 3 201))
    209%N [EventTypeDataArrivedBroadcast]
  = existsb (fun ev => hasRef 209%N ev && hasTypeOf [EventTypeDataArrivedBroadcast] ev)
      [Scenario.arrived 5 4 209].
Proof.
  assert (Hwf : Forall wellFormed Scenario.repollBatch)
    by (vm_compute; repeat constructor; discriminate).
  assert (Hids : NoDup (Event.ID <$> Scenario.repollBatch))
    by (vm_compute; apply NoDup_cons; split;
        [intros [H|H]%elem_of_cons; [discriminate|inversion H]
        |apply NoDup_singleton]).
  split; [exact Hwf|]. split; [exact Hids|].
  apply (lookahead_shows_later_events Scenario.repollBatch [] (Scenario.arrived 4 3 201)
           [Scenario.arrived 5 4 209] 209%N [EventTypeDataArrivedBroadcast]).
  - reflexivity.
  - exact Hwf.
  - exact Hids.
Defined.

(** ** What processEvent and processEvents return *)

Lemma returns_bind {A B} (P : B -> Prop) (m : Prog A) (f : A -> Prog B) :
  (forall a, returns P (f a)) -> returns P (bind m f).
Proof.
  intros Hf. induction m as [a|p|op k IH]; simpl; [apply Hf|exact I|].
  intros r. apply IH.
Qed.

Lemma returns_run {W A} (P : A -> Prop) (p : Prog A) (h : Handler W) (w : W) a :
  returns P p -> (run h p w).1.1 = Returned a -> P a.
Proof.
  revert w. induction p as [a'|q|op k IH]; intros w; simpl.
  - intros HP [= <-]. exact HP.
  - discriminate.
  - intros Hk. destruct (h op w) as [r w1]. specialize (IH r w1 (Hk r)).
    destruct (run h (k r) w1) as [[o w2] t]. exact IH.
Qed.

Ltac returns_step :=
  match goal with
  | |- returns _ (bind _ _) => apply returns_bind
  | |- returns _ (match ?x with _ => _ end) => destruct x
  | |- returns _ (Call _ _) => intros ?
  | |- returns _ (Ret _) => exact I || reflexivity
  | |- returns _ (Panic _) => exact I
  | |- forall _, _ => intros ?
  end.

Lemma unblockContext_quietOnError msg lookahead blockedBy :
  returns quietOnError (unblockContext msg lookahead blockedBy).
Proof. unfold unblockContext, NewEvent, deref, call. repeat returns_step. Qed.

Lemma checkMessageComplete_quietOnError msg lookahead event :
  returns quietOnError (checkMessageComplete msg lookahead event).
Proof.
  unfold checkMessageComplete, completeAndConfirm, NewEvent, call.
  repeat first [ apply unblockContext_quietOnError | returns_step ].
Qed.

Lemma processDataArrived_range_quietOnError lookahead event msgs repoll :
  returns quietOnError (processDataArrived_range lookahead event msgs repoll).
Proof.
  revert repoll. induction msgs as [|msg msgs IH]; intros repoll; simpl; [exact I|].
  unfold deref. repeat first [ apply IH | returns_step ].
Qed.

Lemma processEvent_quietOnError batchRefs event :
  returns quietOnError (processEvent batchRefs event).
Proof.
  unfold processEvent, processDataArrived, call.
  repeat first [ apply processDataArrived_range_quietOnError
               | apply checkMessageComplete_quietOnError
               | returns_step ].
Qed.

(** Whenever processEvent (for any event, whatever its collaborators answer)
    returns an error, the repoll flag it returns with it is false. *)
Theorem processEvent_error_without_repoll {W} (h : Handler W) (w : W)
    (batchRefs : eventsByRef) (event : Event.t) (repoll : bool) (err : error) :
  (run h (processEvent batchRefs event) w).1.1 = Returned (repoll, Some err) ->
  repoll = false.
Proof.
  intros Hrun.
  exact (returns_run quietOnError _ h w _ (processEvent_quietOnError batchRefs event) Hrun).
Qed.

(** The calls of the second loop of processEvents and of the code after it:
    calls other than the offset commit, then the commit or nothing. *)
Lemma processEvents_range_calls {W} (h : Handler W) all lookahead events repoll (w : W) :
  exists t1 t2,
    (run h (processEvents_range all lookahead events repoll) w).2 = t1 ++ t2 /\
    Forall (fun c => callIs isCommitOffset c = false) t1 /\
    ((t2 = [] /\
      match (run h (processEvents_range all lookahead events repoll) w).1.1 with
      | Returned (r, Some _) => r = false
      | Returned (_, None) => False
      | Panicked _ => True
      end) \/
     (exists lastEvent r repoll',
        last all = Some lastEvent /\
        t2 = [Called (commitOffset (Event.Sequence lastEvent)) r] /\
        (run h (processEvents_range all lookahead events repoll) w).1.1
        = Returned (repoll', r))).
Proof.
  revert lookahead repoll w. induction events as [|ev events IH]; intros lookahead repoll w.
  - cbn [processEvents_range]. destruct (last all) as [lastEvent|] eqn:Hlast.
    + cbn [call bind run]. destruct (h (commitOffset (Event.Sequence lastEvent)) w) as [r w1].
      exists [], [Called (commitOffset (Event.Sequence lastEvent)) r].
      split; [reflexivity|]. split; [constructor|]. right.
      exists lastEvent, r, repoll. auto.
    + exists [], []. split; [reflexivity|]. split; [constructor|]. left. simpl. auto.
  - cbn [processEvents_range].
    destruct (Event.ID ev) as [id|]; cbn [deref bind];
      [|exists [], []; split; [reflexivity|]; split; [constructor|]; left; simpl; auto].
    destruct (remove lookahead id) as [lookahead' removed].
    rewrite run_bind.
    pose proof (within_run notCommitOffset messagePanic _ h w
                  (processEvent_within lookahead' ev)) as [Hcalls _].
    destruct (run h (processEvent lookahead' ev) w) as [[o w1] t0]. cbn [fst snd] in *.
    assert (Ht0 : Forall (fun c => callIs isCommitOffset c = false) t0).
    { eapply Forall_impl; [exact Hcalls|]. intros [op r]; simpl.
      unfold notCommitOffset. apply negb_true_iff. }
    destruct o as [[r [e|]]|p].
    + cbn [run]. exists t0, []. split; [reflexivity|]. split; [exact Ht0|]. left.
      split; [reflexivity|]. reflexivity.
    + destruct (IH lookahead' r w1) as (t1 & t2 & Ht & Hno & Hcases).
      destruct (run h (processEvents_range all lookahead' events r) w1) as [[o2 w2] t].
      cbn [fst snd] in *. subst t. exists (t0 ++ t1), t2.
      split; [apply app_assoc|]. split; [apply Forall_app; auto|]. exact Hcases.
    + exists t0, []. split; [rewrite app_nil_r; reflexivity|]. split; [exact Ht0|]. left.
      simpl. auto.
Qed.

Lemma processEvents_calls {W} (h : Handler W) events (w : W) :
  exists t1 t2,
    (run h (processEvents events) w).2 = t1 ++ t2 /\
    Forall (fun c => callIs isCommitOffset c = false) t1 /\
    ((t2 = [] /\
      match (run h (processEvents events) w).1.1 with
      | Returned (r, Some _) => r = false
      | Returned (_, None) => False
      | Panicked _ => True
      end) \/
     (exists lastEvent r repoll',
        last events = Some lastEvent /\
        t2 = [Called (commitOffset (Event.Sequence lastEvent)) r] /\
        (run h (processEvents events) w).1.1 = Returned (repoll', r))).
Proof.
  unfold processEvents.
  destruct (buildLookahead_cases ∅ events) as [[lookahead Hb]|Hb]; rewrite Hb; cbn [bind].
  - apply processEvents_range_calls.
  - exists [], []. split; [reflexivity|]. split; [constructor|]. left. simpl. auto.
Qed.

Lemma app_single_split {A} (l1 pre post : list A) (c x : A) (P : A -> Prop) :
  l1 ++ [c] = pre ++ x :: post -> Forall P l1 -> ~ P x ->
  pre = l1 /\ x = c /\ post = [].
Proof.
  revert pre. induction l1 as [|a l1 IH]; intros pre Heq Hall Hx.
  - destruct pre as [|b pre]; simpl in Heq.
    + injection Heq as -> <-. auto.
    + injection Heq as _ Heq. destruct pre; discriminate.
  - inversion Hall as [|? ? Ha Hrest]; subst.
    destruct pre as [|b pre]; simpl in Heq.
    + injection Heq as -> _. contradiction.
    + injection Heq as -> Heq. destruct (IH pre Heq Hrest Hx) as (-> & -> & ->). auto.
Qed.

Lemma app_split_before {A} (P : A -> Prop) (l1 l2 pre post : list A) (x : A) :
  l1 ++ l2 = pre ++ x :: post -> Forall P l1 -> ~ P x ->
  exists pre', pre = l1 ++ pre' /\ l2 = pre' ++ x :: post.
Proof.
  revert pre. induction l1 as [|a l1 IH]; intros pre Heq Hall Hx.
  - exists pre. auto.
  - inversion Hall as [|? ? Ha Hrest]; subst. destruct pre as [|b pre]; simpl in Heq.
    + injection Heq as -> _. contradiction.
    + injection Heq as -> Heq. destruct (IH pre Heq Hrest Hx) as (pre' & -> & ->).
      exists pre'. auto.
Qed.

Lemma buildLookahead_Ret lookahead events lookahead' :
  buildLookahead lookahead events = Ret lookahead' ->
  Forall (fun ev => Event.Reference ev <> None) events.
Proof.
  revert lookahead. induction events as [|ev events IH]; intros lookahead; simpl;
    [constructor|].
  destruct (Event.Reference ev) as [ref|] eqn:Href; simpl; [|discriminate].
  intros H. constructor; [congruence|exact (IH _ H)].
Qed.

(** A commit among the calls of the second loop of processEvents: every
    event before it was processed, none with an error or a panic. *)
Lemma processEvents_range_commit {W} (h : Handler W) all lookahead events repoll (w : W)
    pre sequence (r : option error) post :
  (run h (processEvents_range all lookahead events repoll) w).2
  = pre ++ Called (commitOffset sequence) r :: post ->
  Forall (fun ev => Event.ID ev <> None) events /\
  exists os w1,
    runAll h (eventCalls lookahead events) w = (os, w1, pre) /\
    length os = length events /\
    Forall (fun o => failed o = false) os /\
    h (commitOffset sequence) w1
    = (r, (run h (processEvents_range all lookahead events repoll) w).1.2).
Proof.
  revert lookahead repoll w pre.
  induction events as [|ev events IH]; intros lookahead repoll w pre.
  - cbn [processEvents_range]. destruct (last all) as [lastEvent|]; cbn [call bind run].
    + destruct (h (commitOffset (Event.Sequence lastEvent)) w) as [r' w2] eqn:Hh.
      cbn [fst snd]. intros Heq. destruct pre as [|c pre]; simpl in Heq.
      * apply cons_eq_inv in Heq as [Hc _].
        pose proof (called_op _ _ _ _ Hc) as Hop. injection Hop as Hseq.
        rewrite Hseq in Hc, Hh. apply called_inj in Hc. subst r'.
        split; [constructor|]. exists [], w. repeat split; [constructor|exact Hh].
      * apply cons_eq_inv in Heq as [_ Heq]. destruct pre; discriminate Heq.
    + intros Heq. destruct pre; discriminate Heq.
  - cbn [processEvents_range eventCalls runAll]. unfold removeEvent at 1 2.
    destruct (Event.ID ev) as [id|] eqn:Hid; cbn [deref bind];
      [|intros Heq; destruct pre; discriminate Heq].
    destruct (remove lookahead id) as [lookahead' removed]. cbn [fst].
    rewrite run_bind.
    pose proof (within_run notCommitOffset messagePanic _ h w
                  (processEvent_within lookahead' ev)) as [Hcalls _].
    destruct (run h (processEvent lookahead' ev) w) as [[o w1] t0]. cbn [fst snd] in *.
    assert (Ht0 : Forall (fun c => callIs isCommitOffset c = false) t0).
    { eapply Forall_impl; [exact Hcalls|]. intros [op r0]; simpl.
      unfold notCommitOffset. apply negb_true_iff. }
    assert (Hnot : ~ callIs isCommitOffset (Called (commitOffset sequence) r) = false)
      by (simpl; discriminate).
    assert (Hnone : forall pre post, t0 <> pre ++ Called (commitOffset sequence) r :: post).
    { intros pre0 post0 Heq. rewrite Heq in Ht0. apply Forall_app in Ht0 as [_ Ht0].
      inversion Ht0; subst. contradiction. }
    destruct o as [[r0 [e|]]|q]; cbn [failed].
    + cbn [run]. rewrite app_nil_r. intros Heq. destruct (Hnone _ _ Heq).
    + specialize (IH lookahead' r0 w1).
      destruct (run h (processEvents_range all lookahead' events r0) w1) as [[o2 w2] t'].
      cbn [fst snd] in *. intros Heq.
      destruct (app_split_before _ _ _ _ _ _ Heq Ht0 Hnot) as (pre' & -> & Ht').
      destruct (IH pre' Ht') as (Hids & os & w1' & Hall & Hlen & Hok & Hcommit).
      split; [constructor; [congruence|exact Hids]|].
      exists (Returned (r0, None) :: os), w1'. rewrite Hall.
      repeat split; [simpl; congruence|constructor; [reflexivity|exact Hok]|exact Hcommit].
    + intros Heq. destruct (Hnone _ _ Heq).
Qed.

(** processEvents commits the offset at most once per batch, and only as its
    very last call, after every event of the batch has been processed
    without error: the events have non-nil ID and Reference, the calls
    before the commit are exactly those of processEvent for every event of
    the batch, in order, each of which returned without error, the commit is
    made in the world they left, the sequence committed is that of the last
    event of the batch, and what the commit answers is the error
    processEvents returns. *)
Theorem processEvents_commits_last {W} (h : Handler W) (w : W) (events : list Event.t)
    (pre post : list called) (sequence : Z) (r : option error) :
  (run h (processEvents events) w).2 = pre ++ Called (commitOffset sequence) r :: post ->
  post = [] /\
  Forall wellFormed events /\
  (exists os w1,
     runAll h (eventCalls (indexByRef events) events) w = (os, w1, pre) /\
     length os = length events /\
     Forall (fun o => failed o = false) os /\
     h (commitOffset sequence) w1 = (r, (run h (processEvents events) w).1.2)) /\
  Forall (fun c => callIs isCommitOffset c = false) pre /\
  (exists lastEvent, last events = Some lastEvent /\ sequence = Event.Sequence lastEvent) /\
  exists repoll, (run h (processEvents events) w).1.1 = Returned (repoll, r).
Proof.
  intros Ht.
  assert (Hshape : post = [] /\
                   Forall (fun c => callIs isCommitOffset c = false) pre /\
                   (exists lastEvent,
                      last events = Some lastEvent /\ sequence = Event.Sequence lastEvent) /\
                   exists repoll, (run h (processEvents events) w).1.1 = Returned (repoll, r)).
  { destruct (processEvents_calls h events w) as (t1 & t2 & Ht' & Hno & Hcases).
    rewrite Ht in Ht'.
    assert (Hnot : ~ callIs isCommitOffset (Called (commitOffset sequence) r) = false)
      by (simpl; discriminate).
    destruct Hcases as [[-> _]|(lastEvent & r' & repoll' & Hlast & -> & Ho)].
    - rewrite app_nil_r in Ht'. subst t1. apply Forall_app in Hno as [_ Hno].
      inversion Hno; subst. contradiction.
    - symmetry in Ht'.
      destruct (app_single_split _ _ _ _ _ _ Ht' Hno Hnot) as (-> & Hc & ->).
      split; [reflexivity|]. split; [exact Hno|].
      assert (Hop := called_op _ _ _ _ Hc). injection Hop as ->.
      apply called_inj in Hc. subst r'. eauto. }
  destruct Hshape as (Hpost & Hno & Hlast & Ho).
  split; [exact Hpost|].
  assert (Hrun : Forall wellFormed events /\
                 exists os w1,
                   runAll h (eventCalls (indexByRef events) events) w = (os, w1, pre) /\
                   length os = length events /\
                   Forall (fun o => failed o = false) os /\
                   h (commitOffset sequence) w1 = (r, (run h (processEvents events) w).1.2)).
  { revert Ht. unfold processEvents.
    destruct (buildLookahead_cases ∅ events) as [[lookahead Hb]|Hb]; rewrite Hb; cbn [bind];
      [|intros Heq; destruct pre; discriminate Heq].
    pose proof (buildLookahead_Ret _ _ _ Hb) as Hrefs.
    rewrite (buildLookahead_foldl _ _ Hrefs) in Hb. injection Hb as <-.
    fold (indexByRef events). intros Ht.
    destruct (processEvents_range_commit h events (indexByRef events) events false w
                pre sequence r post Ht) as (Hids & Hos).
    split; [|exact Hos].
    apply Forall_forall. intros ev Hin. split.
    - exact (proj1 (Forall_forall _ _) Hids ev Hin).
    - exact (proj1 (Forall_forall _ _) Hrefs ev Hin). }
  destruct Hrun as [Hwf Hos]. auto.
Qed.

(** processEvents returns an error together with repoll = true only when the
    failing call is the offset commit, its last call. *)
Theorem processEvents_error_with_repoll {W} (h : Handler W) (w : W) (events : list Event.t)
    (err : error) :
  (run h (processEvents events) w).1.1 = Returned (true, Some err) ->
  exists pre lastEvent,
    last events = Some lastEvent /\
    (run h (processEvents events) w).2
    = pre ++ [Called (commitOffset (Event.Sequence lastEvent)) (Some err)].
Proof.
  intros Ho. destruct (processEvents_calls h events w) as (t1 & t2 & Ht & _ & Hcases).
  rewrite Ho in Hcases.
  destruct Hcases as [[_ Hfalse]|(lastEvent & r & repoll' & Hlast & -> & [= <- <-])];
    [discriminate|].
  exists t1, lastEvent. auto.
Qed.

Lemma processEvent_error_without_repoll_witness :
  (run storeHandler (processEvent ∅ (Scenario.arrived 4 3 201))
     (Scenario.failing Scenario.beforeRepollBatch)).1.1
  = Returned (false, Some "connection lost") /\
  false = false.
Proof.
  assert (H : (run storeHandler (processEvent ∅ (Scenario.arrived 4 3 201))
                 (Scenario.failing Scenario.beforeRepollBatch)).1.1
              = Returned (false, Some "connection lost"))
    by (vm_compute; reflexivity).
  split; [exact H|].
  exact (processEvent_error_without_repoll storeHandler
           (Scenario.failing Scenario.beforeRepollBatch) ∅ (Scenario.arrived 4 3 201)
           false "connection lost" H).
Defined.

Lemma processEvents_commits_last_witness :
  (run storeHandler (processEvents Scenario.repollBatch) Scenario.beforeRepollBatch).2
  = take 13 (run storeHandler (processEvents Scenario.repollBatch)
               Scenario.beforeRepollBatch).2
    ++ Called (commitOffset 4) None :: [] /\
  @nil called = [] /\
  Forall wellFormed Scenario.repollBatch /\
  (exists os w1,
     runAll storeHandler
       (eventCalls (indexByRef Scenario.repollBatch) Scenario.repollBatch)
       Scenario.beforeRepollBatch
     = (os, w1, take 13 (run storeHandler (processEvents Scenario.repollBatch)
                           Scenario.beforeRepollBatch).2) /\
     length os = length Scenario.repollBatch /\
     Forall (fun o => failed o = false) os /\
     storeHandler (commitOffset 4) w1
     = (None, (run storeHandler (processEvents Scenario.repollBatch)
                 Scenario.beforeRepollBatch).1.2)) /\
  Forall (fun c => callIs isCommitOffset c = false)
    (take 13 (run storeHandler (processEvents Scenario.repollBatch)
                Scenario.beforeRepollBatch).2) /\
  (exists lastEvent,
     last Scenario.repollBatch = Some lastEvent /\ 4 = Event.Sequence lastEvent) /\
  exists repoll,
    (run storeHandler (processEvents Scenario.repollBatch) Scenario.beforeRepollBatch).1.1
    = Returned (repoll, None).
Proof.
  assert (H : (run storeHandler (processEvents Scenario.repollBatch)
                 Scenario.beforeRepollBatch).2
              = take 13 (run storeHandler (processEvents Scenario.repollBatch)
                           Scenario.beforeRepollBatch).2
                ++ Called (commitOffset 4) None :: [])
    by (vm_compute; reflexivity).
  split; [exact H|].
  exact (processEvents_commits_last storeHandler Scenario.beforeRepollBatch
           Scenario.repollBatch _ [] 4 None H).
Defined.

Lemma processEvents_error_with_repoll_witness :
  let w := mkWorld (store Scenario.beforeRepollBatch)
             (replicate 9 None ++ [Some "connection lost"]) 6%N 2 in
  (run storeHandler (processEvents [Scenario.arrived 4 3 201]) w).1.1
  = Returned (true, Some "connection lost") /\
  exists pre lastEvent,
    last [Scenario.arrived 4 3 201] = Some lastEvent /\
    (run storeHandler (processEvents [Scenario.arrived 4 3 201]) w).2
    = pre ++ [Called (commitOffset (Event.Sequence lastEvent)) (Some "connection lost")].
Proof.
  intros w.
  assert (H : (run storeHandler (processEvents [Scenario.arrived 4 3 201]) w).1.1
              = Returned (true, Some "connection lost"))
    by (vm_compute; reflexivity).
  split; [exact H|].
  exact (processEvents_error_with_repoll storeHandler w [Scenario.arrived 4 3 201]
           "connection lost" H).
Defined.

(** ** What a repoll request means *)

Lemma traced_impl {A} (P Q : list called -> Outcome A -> Prop) (p : Prog A) :
  (forall t o, P t o -> Q t o) -> traced P p -> traced Q p.
Proof.
  revert P Q. induction p as [a|q|op k IH]; intros P Q HPQ; simpl; [apply HPQ..|].
  intros Hk r. apply (IH r (fun t o => P (Called op r :: t) o)); [|apply Hk].
  intros t o. apply HPQ.
Qed.

Lemma traced_bind {A B} (Q : list called -> Outcome A -> Prop)
    (P : list called -> Outcome B -> Prop) (m : Prog A) (f : A -> Prog B) :
  traced Q m ->
  (forall t q, Q t (Panicked q) -> P t (Panicked q)) ->
  (forall t1 a, Q t1 (Returned a) -> traced (fun t2 o => P (t1 ++ t2) o) (f a)) ->
  traced P (bind m f).
Proof.
  revert P Q. induction m as [a|q|op k IH]; intros P Q Hm Hpanic Hf; simpl in *.
  - exact (Hf [] a Hm).
  - exact (Hpanic [] q Hm).
  - intros r. apply (IH r _ (fun t o => Q (Called op r :: t) o)); [apply Hm| |].
    + intros t q. apply Hpanic.
    + intros t1 a HQ. exact (Hf (Called op r :: t1) a HQ).
Qed.

Lemma traced_run {W A} (P : list called -> Outcome A -> Prop) (p : Prog A)
    (h : Handler W) (w : W) :
  traced P p -> P (run h p w).2 (run h p w).1.1.
Proof.
  revert P w. induction p as [a|q|op k IH]; intros P w; simpl; [auto..|].
  intros Hk. destruct (h op w) as [r w1]. specialize (IH r _ w1 (Hk r)).
  destruct (run h (k r) w1) as [[o w2] t]. exact IH.
Qed.

(** One step through a program, by cases on the answers. *)
Ltac traced_step :=
  cbn [traced bind];
  match goal with
  | |- traced _ (match ?x with _ => _ end) => tryif is_var x then destruct x else destruct x eqn:?
  | |- traced _ (bind (match ?x with _ => _ end) _) =>
      tryif is_var x then destruct x else destruct x eqn:?
  | |- forall _, _ => intros ?
  end.

Lemma checkMessageComplete_repoll msg lookahead event :
  traced (repollTellsUnblocked false) (checkMessageComplete msg lookahead event).
Proof.
  unfold checkMessageComplete, completeAndConfirm, checkUpdateContextBlocked,
    unblockContext, NewEvent, deref, call.
  repeat traced_step.
  all: cbn [traced bind]; try exact I.
  all: reflexivity.
Qed.


Lemma processDataArrived_range_repoll lookahead event msgs repoll :
  traced (repollTellsUnblocked repoll) (processDataArrived_range lookahead event msgs repoll).
Proof.
  revert repoll. induction msgs as [|msg msgs IH]; intros repoll; cbn [processDataArrived_range].
  - simpl. rewrite orb_false_r. reflexivity.
  - unfold deref. destruct (MessageHeader.ID (Message.Header msg)) as [id|]; cbn [bind];
      [|exact I].
    destruct (hasAnyOf lookahead id [EventTypeMessageSequencedBroadcast]); [apply IH|].
    eapply traced_bind; [apply checkMessageComplete_repoll|intros; exact I|].
    intros t1 [msgRepoll [e|]] H1; [exact I|]. simpl in H1.
    eapply traced_impl; [|apply IH]. intros t2 [[r [e|]]|q]; simpl; try exact (fun _ => I).
    intros ->. rewrite existsb_app, H1. simpl. symmetry. apply orb_assoc.
Qed.

Lemma processEvent_repoll batchRefs event :
  traced (repollTellsUnblocked false) (processEvent batchRefs event).
Proof.
  unfold processEvent, processDataArrived, call.
  destruct (Event.Typ event); cbn [bind traced]; try reflexivity.
  all: intros [x [e|]]; cbn [traced]; [exact I|].
  - eapply traced_impl; [|apply processDataArrived_range_repoll].
    intros t [[r [e|]]|q]; simpl; auto.
  - destruct x as [m|]; [|reflexivity].
    destruct (bool_decide (Message.Confirmed m = None)); [|reflexivity].
    eapply traced_impl; [|apply checkMessageComplete_repoll].
    intros t [[r [e|]]|q]; simpl; auto.
Qed.

(** processEvent asks for a repoll exactly when it has inserted a
    messages-unblocked event: when it returns without error, the repoll flag
    is true if and only if one of its calls is the successful insertion of
    an event of type messages-unblocked. *)
Theorem processEvent_repolls_for_unblocked_event {W} (h : Handler W) (w w' : W)
    (batchRefs : eventsByRef) (event : Event.t) (repoll : bool) (t : list called) :
  run h (processEvent batchRefs event) w = (Returned (repoll, None), w', t) ->
  repoll = existsb isUnblockedInsert t.
Proof.
  intros Hrun.
  pose proof (traced_run _ _ h w (processEvent_repoll batchRefs event)) as H.
  rewrite Hrun in H. exact H.
Qed.

Lemma processEvent_repolls_for_unblocked_event_witness :
  (run storeHandler (processEvent ∅ (Scenario.arrived 4 3 201))
     Scenario.beforeRepollBatch).1.1 = Returned (true, None) /\
  true = existsb isUnblockedInsert
           (run storeHandler (processEvent ∅ (Scenario.arrived 4 3 201))
              Scenario.beforeRepollBatch).2.
Proof.
  split; [vm_compute; reflexivity|].
  apply (processEvent_repolls_for_unblocked_event storeHandler Scenario.beforeRepollBatch
           (run storeHandler (processEvent ∅ (Scenario.arrived 4 3 201))
              Scenario.beforeRepollBatch).1.2
           ∅ (Scenario.arrived 4 3 201) true).
  vm_compute. reflexivity.
Defined.

(** ** The order of the calls of a batch *)

Lemma obeysFrom_obeys rule pre0 t :
  obeysFrom rule pre0 t ->
  forall pre c post, t = pre ++ c :: post -> rule (pre0 ++ pre) c post.
Proof.
  revert pre0. induction t as [|c0 t IH]; intros pre0 Hall pre c post Heq.
  - destruct pre; discriminate Heq.
  - destruct Hall as [Hc Hrest]. destruct pre as [|c1 pre]; simpl in Heq.
    + injection Heq as -> ->. rewrite app_nil_r. exact Hc.
    + injection Heq as -> ->.
      replace (pre0 ++ c1 :: pre) with ((pre0 ++ [c1]) ++ pre)
        by (rewrite <- app_assoc; reflexivity).
      apply (IH _ Hrest). reflexivity.
Qed.

Lemma obeys_checked rule t : obeysFrom rule [] t -> obeys rule t.
Proof. intros H pre c post Heq. exact (obeysFrom_obeys rule [] t H pre c post Heq). Qed.

Section Protocol.
Variable rule : callRule.
Hypothesis rule_local : local rule.
Hypothesis rule_outside :
  forall pre op r post, outsideCheck op = true -> rule pre (Called op r) post.
Hypothesis rule_check :
  forall msg lookahead event,
    traced (fun t _ => obeys rule t) (checkMessageComplete msg lookahead event).

Lemma obeys_nil : obeys rule [].
Proof. intros [|c pre] c' post H; discriminate H. Qed.

Lemma obeys_app t1 t2 : obeys rule t1 -> obeys rule t2 -> obeys rule (t1 ++ t2).
Proof using rule_local.
  intros H1 H2 pre c post Heq.
  apply app_eq_app in Heq as [l [[Ht1 Hpost]|[Hpre Ht2]]].
  - destruct l as [|c' l]; simpl in Hpost.
    + rewrite app_nil_r in Ht1. subst pre.
      rewrite <- (app_nil_r t1), <- (app_nil_r post).
      apply rule_local. apply (H2 [] c post). symmetry. exact Hpost.
    + injection Hpost as <- ->. rewrite <- (app_nil_l pre).
      apply rule_local. apply (H1 pre c l Ht1).
  - subst pre. rewrite <- (app_nil_r post). apply rule_local. apply (H2 l c post Ht2).
Qed.

Lemma obeys_outside op (r : Answer op) :
  outsideCheck op = true -> obeys rule [Called op r].
Proof using rule_outside.
  intros Hop [|c pre] c' post H.
  - injection H as <- <-. apply rule_outside, Hop.
  - destruct pre; discriminate H.
Qed.

Lemma Obeys_bind {A B} (m : Prog A) (f : A -> Prog B) :
  traced (fun t _ => obeys rule t) m ->
  (forall a, traced (fun t _ => obeys rule t) (f a)) ->
  traced (fun t _ => obeys rule t) (bind m f).
Proof using rule_local.
  intros Hm Hf. eapply traced_bind; [exact Hm|auto|].
  intros t1 a H1. eapply traced_impl; [|apply Hf].
  intros t2 o H2. apply obeys_app; assumption.
Qed.

Lemma Obeys_call {A} op (k : Answer op -> Prog A) :
  outsideCheck op = true ->
  (forall r, traced (fun t _ => obeys rule t) (k r)) ->
  traced (fun t _ => obeys rule t) (Call op k).
Proof using rule_local rule_outside.
  intros Hop Hk r. eapply traced_impl; [|apply Hk].
  intros t o Ht. change (obeys rule ([Called op r] ++ t)).
  apply obeys_app; [apply obeys_outside, Hop|exact Ht].
Qed.

Lemma processDataArrived_range_obeys lookahead event msgs repoll :
  traced (fun t _ => obeys rule t) (processDataArrived_range lookahead event msgs repoll).
Proof using rule_local rule_check.
  revert repoll. induction msgs as [|msg msgs IH]; intros repoll; cbn [processDataArrived_range].
  - apply obeys_nil.
  - unfold deref. destruct (MessageHeader.ID (Message.Header msg)) as [id|]; cbn [bind];
      [|apply obeys_nil].
    destruct (hasAnyOf lookahead id [EventTypeMessageSequencedBroadcast]); [apply IH|].
    apply Obeys_bind; [apply rule_check|].
    intros [msgRepoll [e|]]; [apply obeys_nil|apply IH].
Qed.

Lemma processEvent_obeys batchRefs event :
  traced (fun t _ => obeys rule t) (processEvent batchRefs event).
Proof using rule_local rule_outside rule_check.
  unfold processEvent, processDataArrived, call.
  destruct (Event.Typ event); cbn [bind]; try apply obeys_nil.
  all: apply Obeys_call; [reflexivity|]; intros [x [e|]]; [apply obeys_nil|].
  - apply processDataArrived_range_obeys.
  - destruct x as [m|]; [|apply obeys_nil].
    destruct (bool_decide (Message.Confirmed m = None)); [apply rule_check|apply obeys_nil].
Qed.

Lemma processEvents_range_obeys all lookahead events repoll :
  traced (fun t _ => obeys rule t) (processEvents_range all lookahead events repoll).
Proof using rule_local rule_outside rule_check.
  revert lookahead repoll.
  induction events as [|ev events IH]; intros lookahead repoll; cbn [processEvents_range].
  - destruct (last all) as [lastEvent|]; [|apply obeys_nil].
    unfold call. cbn [bind]. apply Obeys_call; [reflexivity|]. intros r. apply obeys_nil.
  - unfold deref. destruct (Event.ID ev) as [id|]; cbn [bind]; [|apply obeys_nil].
    destruct (remove lookahead id) as [lookahead' removed].
    apply Obeys_bind; [apply processEvent_obeys|].
    intros [r [e|]]; [apply obeys_nil|apply IH].
Qed.

Lemma processEvents_obeys events :
  traced (fun t _ => obeys rule t) (processEvents events).
Proof using rule_local rule_outside rule_check.
  unfold processEvents.
  destruct (buildLookahead_cases ∅ events) as [[lookahead Hb]|Hb]; rewrite Hb; cbn [bind].
  - apply processEvents_range_obeys.
  - apply obeys_nil.
Qed.

End Protocol.

Lemma suffix_here {A} (l : list A) : l `suffix_of` l.
Proof. exists []. reflexivity. Qed.

Lemma prefix_here {A} (l k : list A) : l `prefix_of` l ++ k.
Proof. exists k. reflexivity. Qed.

Ltac find_suffix :=
  cbn [app];
  repeat first [ apply suffix_here | apply suffix_cons_r ].

(** Put the answers of a leaf back into the shape the rules name them in. *)
Ltac leaf_facts :=
  repeat match goal with
         | H : MessageRef.ID _ = Some ?u |- context [Some ?u] => rewrite <- H
         | H : MessageRef.ID ?m = None |- context [ptr None] =>
             replace (ptr None) with (ptr (MessageRef.ID m)) by (rewrite H; reflexivity)
         end;
  repeat match goal with
         | H : _ || _ = false |- _ => apply orb_false_iff in H; destruct H
         | H : negb _ = false |- _ => apply negb_false_iff in H
         | H : negb _ = true |- _ => apply negb_true_iff in H
         | H : Equals _ _ = true |- _ => apply bool_decide_eq_true in H
         | H : Equals _ _ = false |- _ => apply bool_decide_eq_false in H
         end;
  subst; try (exfalso; congruence).

Ltac open_calls :=
  unfold confirmationCalls, clearanceCalls, confirmedEventOf, blockerLookup;
  try match goal with
      | H : bool_decide (_ = SystemNamespace) = _ |- _ => rewrite H
      end.

Ltac run_check :=
  unfold checkMessageComplete, completeAndConfirm, checkUpdateContextBlocked,
    unblockContext, NewEvent, deref, call;
  repeat traced_step;
  cbn [traced bind]; apply obeys_checked; cbn [obeysFrom app];
  repeat match goal with
         | |- _ /\ _ => split
         | |- True => exact I
         end.

Lemma eventRule_local : local eventRule.
Proof.
  intros x pre [op r] post y. destruct op; try exact (fun H => H). simpl.
  intros [Hallow [(msg & blockedBy & now & id & He & Hpre)
                 |(msg & next & rest & blockedID & id & H1 & H2 & H3 & H4 & H5 & Hpre)]].
  - split; [exact Hallow|]. left. exists msg, blockedBy, now, id.
    split; [exact He|]. apply suffix_app_r, Hpre.
  - split; [exact Hallow|]. right. exists msg, next, rest, blockedID, id.
    repeat (split; [assumption|]). apply suffix_app_r, Hpre.
Qed.

Lemma eventRule_check msg lookahead event :
  traced (fun t _ => obeys eventRule t) (checkMessageComplete msg lookahead event).
Proof.
  run_check.
  all: cbn [eventRule]; try exact I.
  all: leaf_facts.
  all: (split; [reflexivity|]).
  all: first
         [ left; exists msg; eexists _, _, _; open_calls; split;
           [repeat split; reflexivity|find_suffix; fail]
         | right; exists msg; eexists _, _, _, _; repeat split;
           [discriminate || (simpl; congruence)|find_suffix; fail] ].
Qed.

Lemma eventRule_outside pre op r post :
  outsideCheck op = true -> eventRule pre (Called op r) post.
Proof. destruct op; try discriminate; intros _; exact I. Qed.

Ltac find_prefix := eexists; cbn [app]; reflexivity.

Lemma confirmationRule_local : local confirmationRule.
Proof.
  intros x pre [op r] post y. destruct op; try exact (fun H => H). simpl.
  intros (msg & blockedBy & now & Hid & Hu & Hpre & Hpost).
  exists msg, blockedBy, now. repeat (split; [assumption|]).
  split; [apply suffix_app_r, Hpre|].
  intros Herr. destruct (Hpost Herr) as (i & e & r' & He & Hp).
  exists i, e, r'. split; [exact He|]. apply prefix_app_r, Hp.
Qed.

Lemma confirmationRule_outside pre op r post :
  outsideCheck op = true -> confirmationRule pre (Called op r) post.
Proof. destruct op; try discriminate; intros _; exact I. Qed.

Lemma confirmationRule_check msg lookahead event :
  traced (fun t _ => obeys confirmationRule t) (checkMessageComplete msg lookahead event).
Proof.
  run_check.
  all: cbn [confirmationRule]; try exact I.
  all: leaf_facts.
  all: exists msg; eexists _, _; open_calls.
  all: split; [reflexivity|]; split; [reflexivity|]; split; [find_suffix; fail|].
  all: intros Herr; try discriminate Herr.
  all: eexists _, _, _; (split; [|find_prefix]); repeat split; reflexivity.
Qed.

Lemma systemRule_local : local systemRule.
Proof.
  intros x pre [op r] post y. destruct op; try exact (fun H => H). simpl.
  intros (Hns & (blockedBy & Hb & Hpre) & Hpost).
  split; [exact Hns|]. split.
  - exists blockedBy. split; [exact Hb|]. apply suffix_app_r, Hpre.
  - intros Herr. destruct (Hpost Herr) as (now & r' & Hp).
    exists now, r'. apply prefix_app_r, Hp.
Qed.

Lemma systemRule_outside pre op r post :
  outsideCheck op = true -> systemRule pre (Called op r) post.
Proof. destruct op; try discriminate; intros _; exact I. Qed.

Lemma systemRule_check msg lookahead event :
  traced (fun t _ => obeys systemRule t) (checkMessageComplete msg lookahead event).
Proof.
  run_check.
  all: cbn [systemRule]; try exact I.
  all: leaf_facts.
  all: split; [eapply bool_decide_eq_true_1; eassumption|]; unfold blockerLookup; split.
  all: try (eexists; (split; [|find_suffix; fail]);
            first [ left; reflexivity
                  | right; eexists; split; [reflexivity|assumption] ]).
  all: intros Herr; try discriminate Herr.
  all: eexists _, _; find_prefix.
Qed.

Lemma blockedRule_local : local blockedRule.
Proof.
  intros x pre [op r] post y. destruct op; try exact (fun H => H); simpl.
  - intros (Hallow & msg & id & created & Hrow & Hpre).
    split; [exact Hallow|]. exists msg, id, created. split; [exact Hrow|].
    apply suffix_app_r, Hpre.
  - intros (msg & b & now & i & e & next & rest & H1 & H2 & H3 & H4 & Hpre).
    exists msg, b, now, i, e, next, rest. repeat (split; [assumption|]).
    apply suffix_app_r, Hpre.
  - intros (msg & b & now & i & e & H1 & H2 & H3 & Hpre).
    exists msg, b, now, i, e. repeat (split; [assumption|]).
    apply suffix_app_r, Hpre.
Qed.

Lemma blockedRule_outside pre op r post :
  outsideCheck op = true -> blockedRule pre (Called op r) post.
Proof. destruct op; try discriminate; intros _; exact I. Qed.

Lemma blockedRule_check msg lookahead event :
  traced (fun t _ => obeys blockedRule t) (checkMessageComplete msg lookahead event).
Proof.
  run_check.
  all: cbn [blockedRule]; try exact I.
  all: leaf_facts.
  all: first
         [ split; [reflexivity|]; exists msg; eexists _, _; unfold blockerLookup;
           split; [reflexivity|find_suffix; fail]
         | exists msg; eexists _, _, _, _, _, _; open_calls;
           (repeat split; try (find_suffix; fail)); first [reflexivity|assumption]
         | exists msg; eexists _, _, _, _; open_calls;
           (repeat split; try (find_suffix; fail)); first [reflexivity|assumption] ].
Qed.

(** Every event the aggregator inserts while it processes a batch, whatever
    the store answers, is inserted with allowExisting = false under a fresh
    ID, and is one of two: the message-confirmed event of a message (same
    namespace, reference = the ID of the message), inserted right after the
    successful update that confirms that message; or a messages-unblocked
    event that references the first message the look forwards returned,
    inserted right after the Blocked row has been redirected to that
    message. *)
Theorem inserted_events_follow_their_update {W} (h : Handler W) (w : W)
    (events : list Event.t) (pre post : list called) (e : Event.t) (allowExisting : bool)
    (r : option error) :
  (run h (processEvents events) w).2 = pre ++ Called (UpsertEvent e allowExisting) r :: post ->
  insertedEvent pre e allowExisting.
Proof.
  intros Hrun.
  exact (traced_run _ _ h w
           (processEvents_obeys eventRule eventRule_local eventRule_outside
              eventRule_check events)
           pre _ post Hrun).
Qed.

Lemma inserted_events_follow_their_update_witness :
  Cases.repollCalls
  = take 11 Cases.repollCalls
    ++ Called (UpsertEvent Cases.unblocked102 false) None :: drop 12 Cases.repollCalls /\
  insertedEvent (take 11 Cases.repollCalls) Cases.unblocked102 false.
Proof.
  assert (H : Cases.repollCalls
              = take 11 Cases.repollCalls
                ++ Called (UpsertEvent Cases.unblocked102 false) None
                   :: drop 12 Cases.repollCalls)
    by (vm_compute; reflexivity).
  split; [exact H|].
  exact (inserted_events_follow_their_update storeHandler Scenario.beforeRepollBatch
           Scenario.repollBatch _ _ _ _ _ H).
Defined.

(** Every update of a message in a batch sets its confirmed timestamp to the
    time read just before, and comes right after the clearance of that
    message: its data was answered available, the blocker of its context was
    looked up, and, exactly when the message is of the system namespace, the
    system-broadcast handler accepted it.  A successful update is followed
    at once by the insertion of the message-confirmed event of the message
    under a fresh ID: no message is confirmed without its event being
    written in the same batch. *)
Theorem confirmation_is_announced {W} (h : Handler W) (w : W) (events : list Event.t)
    (pre post : list called) (id : option UUID) (update : Update) (err : option error) :
  (run h (processEvents events) w).2 = pre ++ Called (UpdateMessage id update) err :: post ->
  exists msg blockedBy now,
    MessageHeader.ID (Message.Header msg) = id /\
    update = Set_ "confirmed" (VTime now) /\
    clearanceCalls msg blockedBy ++ [Called Now now] `suffix_of` pre /\
    (err = None ->
     exists i e r',
       confirmedEventOf msg i e /\
       [Called NewUUID i; Called (UpsertEvent e false) r'] `prefix_of` post).
Proof.
  intros Hrun.
  exact (traced_run _ _ h w
           (processEvents_obeys confirmationRule confirmationRule_local
              confirmationRule_outside confirmationRule_check events)
           pre _ post Hrun).
Qed.

Lemma confirmation_is_announced_witness :
  Cases.repollCalls
  = take 5 Cases.repollCalls
    ++ Called (UpdateMessage (Some 101%N) (Set_ "confirmed" (VTime 2))) None
       :: drop 6 Cases.repollCalls /\
  exists msg blockedBy now,
    MessageHeader.ID (Message.Header msg) = Some 101%N /\
    Set_ "confirmed" (VTime 2) = Set_ "confirmed" (VTime now) /\
    clearanceCalls msg blockedBy ++ [Called Now now] `suffix_of` take 5 Cases.repollCalls /\
    (@None error = None ->
     exists i e r',
       confirmedEventOf msg i e /\
       [Called NewUUID i; Called (UpsertEvent e false) r']
       `prefix_of` drop 6 Cases.repollCalls).
Proof.
  assert (H : Cases.repollCalls
              = take 5 Cases.repollCalls
                ++ Called (UpdateMessage (Some 101%N) (Set_ "confirmed" (VTime 2))) None
                   :: drop 6 Cases.repollCalls)
    by (vm_compute; reflexivity).
  split; [exact H|].
  exact (confirmation_is_announced storeHandler Scenario.beforeRepollBatch
           Scenario.repollBatch _ _ _ _ _ H).
Defined.

(** The system-broadcast handler is called in a batch only for a message of
    the system namespace, and only right after the clearance of that message
    (its data answered available; no blocker of its context, or a blocker
    that names the message).  When the handler accepts the message, the time
    is read and the message is updated as confirmed at once. *)
Theorem system_handler_only_for_cleared_system_messages {W} (h : Handler W) (w : W)
    (events : list Event.t) (pre post : list called) (msg : Message.t)
    (err : option error) :
  (run h (processEvents events) w).2 = pre ++ Called (HandleSystemBroadcast msg) err :: post ->
  MessageHeader.Namespace (Message.Header msg) = SystemNamespace /\
  (exists blockedBy,
     (blockedBy = None \/
      exists b, blockedBy = Some b /\
                Blocked.Message b = MessageHeader.ID (Message.Header msg)) /\
     [Called (CheckDataAvailable msg) (true, None);
      Called (blockerLookup msg) (blockedBy, None)] `suffix_of` pre) /\
  (err = None ->
   exists now r',
     [Called Now now;
      Called (UpdateMessage (MessageHeader.ID (Message.Header msg))
                (Set_ "confirmed" (VTime now))) r'] `prefix_of` post).
Proof.
  intros Hrun.
  exact (traced_run _ _ h w
           (processEvents_obeys systemRule systemRule_local systemRule_outside
              systemRule_check events)
           pre _ post Hrun).
Qed.

Lemma system_handler_only_for_cleared_system_messages_witness :
  Cases.systemCalls
  = take 3 Cases.systemCalls
    ++ Called (HandleSystemBroadcast Cases.systemMessage) None :: drop 4 Cases.systemCalls /\
  MessageHeader.Namespace (Message.Header Cases.systemMessage) = SystemNamespace /\
  (exists blockedBy,
     (blockedBy = None \/
      exists b, blockedBy = Some b /\
                Blocked.Message b = MessageHeader.ID (Message.Header Cases.systemMessage)) /\
     [Called (CheckDataAvailable Cases.systemMessage) (true, None);
      Called (blockerLookup Cases.systemMessage) (blockedBy, None)]
     `suffix_of` take 3 Cases.systemCalls) /\
  (@None error = None ->
   exists now r',
     [Called Now now;
      Called (UpdateMessage (MessageHeader.ID (Message.Header Cases.systemMessage))
                (Set_ "confirmed" (VTime now))) r'] `prefix_of` drop 4 Cases.systemCalls).
Proof.
  assert (H : Cases.systemCalls
              = take 3 Cases.systemCalls
                ++ Called (HandleSystemBroadcast Cases.systemMessage) None
                   :: drop 4 Cases.systemCalls)
    by (vm_compute; reflexivity).
  split; [exact H|].
  exact (system_handler_only_for_cleared_system_messages storeHandler Cases.systemArrived
           (pending (store Cases.systemArrived)) _ _ _ _ H).
Defined.

(** A Blocked row is created in a batch only for a message whose data was
    just answered not available and whose context was just answered to have
    no blocker: the row is created with allowExisting = false, under a fresh
    ID, with the time read just before, for the namespace, context and group
    of the message, and it names the message. *)
Theorem blocker_created_for_incomplete_message {W} (h : Handler W) (w : W)
    (events : list Event.t) (pre post : list called) (row : Blocked.t)
    (allowExisting : bool) (r : option error) :
  (run h (processEvents events) w).2
  = pre ++ Called (UpsertBlocked row allowExisting) r :: post ->
  allowExisting = false /\
  exists msg id created,
    row = Blocked.mk (Some id) (MessageHeader.Namespace (Message.Header msg))
            (MessageHeader.Context (Message.Header msg))
            (MessageHeader.Group (Message.Header msg)) created
            (MessageHeader.ID (Message.Header msg)) /\
    [Called (CheckDataAvailable msg) (false, None);
     Called (blockerLookup msg) (None, None);
     Called NewUUID id; Called Now created] `suffix_of` pre.
Proof.
  intros Hrun.
  exact (traced_run _ _ h w
           (processEvents_obeys blockedRule blockedRule_local blockedRule_outside
              blockedRule_check events)
           pre _ post Hrun).
Qed.

Lemma blocker_created_for_incomplete_message_witness :
  Cases.envelopeCalls
  = take 5 Cases.envelopeCalls
    ++ Called (UpsertBlocked Scenario.blocker1 false) None :: drop 6 Cases.envelopeCalls /\
  false = false /\
  exists msg id created,
    Scenario.blocker1
    = Blocked.mk (Some id) (MessageHeader.Namespace (Message.Header msg))
        (MessageHeader.Context (Message.Header msg))
        (MessageHeader.Group (Message.Header msg)) created
        (MessageHeader.ID (Message.Header msg)) /\
    [Called (CheckDataAvailable msg) (false, None);
     Called (blockerLookup msg) (None, None);
     Called NewUUID id; Called Now created] `suffix_of` take 5 Cases.envelopeCalls.
Proof.
  assert (H : Cases.envelopeCalls
              = take 5 Cases.envelopeCalls
                ++ Called (UpsertBlocked Scenario.blocker1 false) None
                   :: drop 6 Cases.envelopeCalls)
    by (vm_compute; reflexivity).
  split; [exact H|].
  exact (blocker_created_for_incomplete_message storeHandler Scenario.envelopesArrived
           Cases.envelopes _ _ _ _ _ H).
Defined.

(** The Blocked row of a context is redirected in a batch only by the
    message it names, and only after that message has been confirmed: the
    row updated is the one the lookup of the blocker returned, it named the
    message, the message was cleared, updated and its message-confirmed
    event inserted, all without error, and the look forwards has just
    returned a first message, which the row is redirected to. *)
Theorem blocker_redirected_by_its_confirmed_message {W} (h : Handler W) (w : W)
    (events : list Event.t) (pre post : list called) (blockedID : option UUID)
    (update : Update) (r : option error) :
  (run h (processEvents events) w).2
  = pre ++ Called (UpdateBlocked blockedID update) r :: post ->
  exists msg b now i e next rest,
    Blocked.ID b = blockedID /\
    Blocked.Message b = MessageHeader.ID (Message.Header msg) /\
    confirmedEventOf msg i e /\
    update = Set_ "message" (ptr (MessageRef.ID next)) /\
    confirmationCalls msg (Some b) now
    ++ [Called NewUUID i; Called (UpsertEvent e false) None;
        Called (GetMessageRefs (unblockableFilter msg)) (next :: rest, None)]
    `suffix_of` pre.
Proof.
  intros Hrun.
  exact (traced_run _ _ h w
           (processEvents_obeys blockedRule blockedRule_local blockedRule_outside
              blockedRule_check events)
           pre _ post Hrun).
Qed.

Lemma blocker_redirected_by_its_confirmed_message_witness :
  Cases.repollCalls
  = take 9 Cases.repollCalls
    ++ Called (UpdateBlocked (Some 3%N) (Set_ "message" (VUUID 102%N))) None
       :: drop 10 Cases.repollCalls /\
  exists msg b now i e next rest,
    Blocked.ID b = Some 3%N /\
    Blocked.Message b = MessageHeader.ID (Message.Header msg) /\
    confirmedEventOf msg i e /\
    Set_ "message" (VUUID 102%N) = Set_ "message" (ptr (MessageRef.ID next)) /\
    confirmationCalls msg (Some b) now
    ++ [Called NewUUID i; Called (UpsertEvent e false) None;
        Called (GetMessageRefs (unblockableFilter msg)) (next :: rest, None)]
    `suffix_of` take 9 Cases.repollCalls.
Proof.
  assert (H : Cases.repollCalls
              = take 9 Cases.repollCalls
                ++ Called (UpdateBlocked (Some 3%N) (Set_ "message" (VUUID 102%N))) None
                   :: drop 10 Cases.repollCalls)
    by (vm_compute; reflexivity).
  split; [exact H|].
  exact (blocker_redirected_by_its_confirmed_message storeHandler Scenario.beforeRepollBatch
           Scenario.repollBatch _ _ _ _ _ H).
Defined.

(** The Blocked row of a context is deleted in a batch only by the message
    it names, and only after that message has been confirmed: the row
    deleted is the one the lookup of the blocker returned, it named the
    message, the message was cleared, updated and its message-confirmed
    event inserted, all without error, and the look forwards has just
    returned no message. *)
Theorem blocker_deleted_by_its_confirmed_message {W} (h : Handler W) (w : W)
    (events : list Event.t) (pre post : list called) (blockedID : option UUID)
    (r : option error) :
  (run h (processEvents events) w).2 = pre ++ Called (DeleteBlocked blockedID) r :: post ->
  exists msg b now i e,
    Blocked.ID b = blockedID /\
    Blocked.Message b = MessageHeader.ID (Message.Header msg) /\
    confirmedEventOf msg i e /\
    confirmationCalls msg (Some b) now
    ++ [Called NewUUID i; Called (UpsertEvent e false) None;
        Called (GetMessageRefs (unblockableFilter msg)) ([], None)]
    `suffix_of` pre.
Proof.
  intros Hrun.
  exact (traced_run _ _ h w
           (processEvents_obeys blockedRule blockedRule_local blockedRule_outside
              blockedRule_check events)
           pre _ post Hrun).
Qed.

Lemma blocker_deleted_by_its_confirmed_message_witness :
  Cases.lastCalls
  = take 9 Cases.lastCalls ++ Called (DeleteBlocked (Some 5%N)) None :: drop 10 Cases.lastCalls /\
  exists msg b now i e,
    Blocked.ID b = Some 5%N /\
    Blocked.Message b = MessageHeader.ID (Message.Header msg) /\
    confirmedEventOf msg i e /\
    confirmationCalls msg (Some b) now
    ++ [Called NewUUID i; Called (UpsertEvent e false) None;
        Called (GetMessageRefs (unblockableFilter msg)) ([], None)]
    `suffix_of` take 9 Cases.lastCalls.
Proof.
  assert (H : Cases.lastCalls
              = take 9 Cases.lastCalls
                ++ Called (DeleteBlocked (Some 5%N)) None :: drop 10 Cases.lastCalls)
    by (vm_compute; reflexivity).
  split; [exact H|].
  exact (blocker_deleted_by_its_confirmed_message storeHandler Scenario.lastDataArrived
           Scenario.lastBatch _ _ _ _ H).
Defined.

(** ** What a batch does to the store *)

Lemma aggregatorRule_local : local aggregatorRule.
Proof. intros x pre c post y H. exact H. Qed.

Lemma aggregatorRule_outside pre op r post :
  outsideCheck op = true -> aggregatorRule pre (Called op r) post.
Proof. destruct op; try discriminate; intros _; reflexivity. Qed.

Lemma aggregatorRule_check msg lookahead event :
  traced (fun t _ => obeys aggregatorRule t) (checkMessageComplete msg lookahead event).
Proof.
  run_check.
  all: reflexivity.
Qed.

Lemma processEvents_calls_aggregatorCall {W} (h : Handler W) (w : W) events :
  Forall (fun c => callIs aggregatorCall c = true) (run h (processEvents events) w).2.
Proof.
  pose proof (traced_run _ _ h w
                (processEvents_obeys aggregatorRule aggregatorRule_local
                   aggregatorRule_outside aggregatorRule_check events)) as H.
  simpl in H. apply Forall_forall. intros c Hc.
  apply list_elem_of_split in Hc as (pre & post & Heq). exact (H pre c post Heq).
Qed.

(** A property of the worlds that every allowed call keeps is kept by a run
    whose calls are all allowed. *)
Lemma run_keeps {W A} (h : Handler W) (R : W -> W -> Prop) (okCall : Op -> bool)
    (p : Prog A) (w : W) :
  (forall w, R w w) ->
  (forall w1 w2 w3, R w1 w2 -> R w2 w3 -> R w1 w3) ->
  (forall op w, okCall op = true -> R w (h op w).2) ->
  Forall (fun c => callIs okCall c = true) (run h p w).2 ->
  R w (run h p w).1.2.
Proof.
  intros Hrefl Htrans Hstep. revert w.
  induction p as [a|q|op k IH]; intros w; simpl; [auto..|].
  pose proof (Hstep op w) as Hop. destruct (h op w) as [r w1].
  specialize (IH r w1). destruct (run h (k r) w1) as [[o w2] t]. simpl in *.
  intros Hall. inversion Hall as [|? ? Hc Hrest]; subst.
  apply (Htrans _ w1); [apply Hop, Hc|apply IH, Hrest].
Qed.

Lemma keepsMessage_refl m : keepsMessage m m.
Proof. repeat split; auto. Qed.

Lemma keepsMessage_trans m1 m2 m3 :
  keepsMessage m1 m2 -> keepsMessage m2 m3 -> keepsMessage m1 m3.
Proof.
  intros (H1 & H2 & H3 & H4) (H1' & H2' & H3' & H4').
  repeat split; try congruence. auto.
Qed.

Lemma keepsMessages_refl l : Forall2 keepsMessage l l.
Proof. induction l; constructor; [apply keepsMessage_refl|assumption]. Qed.

Lemma grows_refl s : grows s s.
Proof. repeat split; [reflexivity|apply keepsMessages_refl]. Qed.

Lemma grows_trans s1 s2 s3 : grows s1 s2 -> grows s2 s3 -> grows s1 s3.
Proof.
  intros (Hd & He & Hm) (Hd' & He' & Hm'). split; [congruence|]. split.
  - etransitivity; eassumption.
  - revert Hm Hm'. generalize (Store.messages s1) (Store.messages s2) (Store.messages s3).
    intros l1 l2 l3 H12. revert l3.
    induction H12 as [|m1 m2 l1 l2 Hm H12 IH]; intros l3 H23; inversion H23; subst;
      constructor; [eapply keepsMessage_trans; eassumption|auto].
Qed.

Lemma updateMessage_keeps field t m :
  String.eqb field "confirmed" = true ->
  keepsMessage m (updateMessage [(field, VTime t)] m).
Proof.
  intros Hf. unfold updateMessage. simpl. rewrite Hf. repeat split. discriminate.
Qed.

Ltac same_rows := split; [reflexivity|]; split; [reflexivity|apply keepsMessages_refl].

Lemma perform_grows op w :
  aggregatorCall op = true -> grows (store w) (store (perform op w).2).
Proof.
  intros Hop. destruct op; simpl in *; try apply grows_refl; try solve [same_rows].
  - destruct (existsb _ _); [destruct allowExisting|]; simpl;
      first [apply grows_refl|same_rows].
  - destruct update as [|[field value] rest]; [discriminate|].
    destruct value; try (destruct rest; discriminate).
    destruct rest; [|discriminate].
    split; [reflexivity|]. split; [reflexivity|]. simpl.
    induction (Store.messages (store w)) as [|m l IH]; simpl; constructor; [|exact IH].
    destruct (hasID id m); [apply updateMessage_keeps, Hop|apply keepsMessage_refl].
  - destruct allowExisting; [discriminate|].
    destruct (existsb _ _); simpl; [apply grows_refl|].
    split; [reflexivity|]. split; [apply prefix_app_r; reflexivity|apply keepsMessages_refl].
Qed.

Lemma storeHandler_grows op w :
  aggregatorCall op = true -> grows (store w) (store (storeHandler op w).2).
Proof.
  intros Hop. unfold storeHandler.
  destruct (canFail op); [|apply perform_grows, Hop].
  destruct (faults w) as [|[e|] rest]; simpl.
  - apply perform_grows, Hop.
  - apply grows_refl.
  - apply (perform_grows op (mkWorld (store w) rest (nextUUID w) (clock w)) Hop).
Qed.

(** A batch, whether it succeeds, fails or panics, and whatever calls fail,
    never removes or alters anything but the Blocked rows and the offset: the
    data of the store is untouched, the events are appended to only, and
    every message keeps its header, sequence and data references, and stays
    confirmed when it was confirmed. *)
Theorem batch_only_confirms_and_appends (events : list Event.t) (w : World) :
  grows (store w) (store (processEventRetryAndGroup events w).1.2).
Proof.
  unfold processEventRetryAndGroup, RunAsGroup.
  pose proof (run_keeps storeHandler (fun w w' => grows (store w) (store w'))
                aggregatorCall (processEvents events) w
                (fun w => grows_refl (store w))
                (fun w1 w2 w3 => grows_trans (store w1) (store w2) (store w3))
                storeHandler_grows
                (processEvents_calls_aggregatorCall storeHandler w events)) as H.
  destruct (run storeHandler (processEvents events) w) as [[o w'] t]. simpl in H.
  destruct (failed o); simpl; [apply grows_refl|exact H].
Qed.

Lemma run_no_call {W A} (h : Handler W) (p : Prog A) (w : W) :
  (run h p w).2 = [] -> (run h p w).1.2 = w.
Proof.
  destruct p as [a|q|op k]; simpl; [reflexivity..|].
  destruct (h op w) as [r w1]. destruct (run h (k r) w1) as [[o w2] t]. discriminate.
Qed.

(** The world a run ends in is the one its last call left. *)
Lemma run_last_call {W A} (h : Handler W) (p : Prog A) (w : W) t op (r : Answer op) :
  (run h p w).2 = t ++ [Called op r] ->
  exists w1, h op w1 = (r, (run h p w).1.2).
Proof.
  revert w t. induction p as [a|q|op0 k IH]; intros w t; simpl.
  - intros H. destruct t; discriminate H.
  - intros H. destruct t; discriminate H.
  - destruct (h op0 w) as [r0 w1] eqn:Hh.
    pose proof (run_no_call h (k r0) w1) as Hnil. specialize (IH r0 w1).
    destruct (run h (k r0) w1) as [[o w2] t']. simpl in *.
    destruct t as [|c t]; simpl; intros H; apply cons_eq_inv in H as [Hc Ht].
    + subst t'. rewrite (Hnil eq_refl).
      pose proof (called_op _ _ _ _ Hc) as Hop. subst op0.
      apply called_inj in Hc. subst r0. exists w. exact Hh.
    + exact (IH t Ht).
Qed.

Lemma storeHandler_commit seq w1 w' :
  storeHandler (commitOffset seq) w1 = (None, w') -> Store.offset (store w') = seq.
Proof.
  unfold storeHandler. simpl. destruct (faults w1) as [|[e|] rest]; simpl.
  - intros [= <-]. reflexivity.
  - discriminate.
  - intros [= <-]. reflexivity.
Qed.

(** A batch that processEventRetryAndGroup processes without error moves the
    committed offset of the store to the sequence of the last event of the
    batch, so that the poller reads on after the batch. *)
Theorem successful_batch_moves_offset (events : list Event.t) (w w' : World)
    (repoll : bool) (t : list called) :
  processEventRetryAndGroup events w = (Returned (repoll, None), w', t) ->
  exists lastEvent,
    last events = Some lastEvent /\
    Store.offset (store w') = Event.Sequence lastEvent.
Proof.
  unfold processEventRetryAndGroup, RunAsGroup.
  destruct (processEvents_calls storeHandler events w) as (t1 & t2 & Ht & _ & Hcases).
  pose proof (run_last_call storeHandler (processEvents events) w t1) as Hlast.
  destruct (run storeHandler (processEvents events) w) as [[o w2] t0]. simpl in *.
  destruct o as [[r [e|]]|q]; simpl; intros [= <- <- <-].
  destruct Hcases as [[_ []]|(lastEvent & err & repoll' & Hl & -> & [= <- <-])].
  exists lastEvent. split; [exact Hl|].
  destruct (Hlast (commitOffset (Event.Sequence lastEvent)) None Ht) as [w1 Hw1].
  exact (storeHandler_commit _ _ _ Hw1).
Qed.

Lemma successful_batch_moves_offset_witness :
  (processEventRetryAndGroup Scenario.repollBatch Scenario.beforeRepollBatch).1.1
  = Returned (false, None) /\
  exists lastEvent,
    last Scenario.repollBatch = Some lastEvent /\
    Store.offset
      (store (processEventRetryAndGroup Scenario.repollBatch Scenario.beforeRepollBatch).1.2)
    = Event.Sequence lastEvent.
Proof.
  split; [vm_compute; reflexivity|].
  apply (successful_batch_moves_offset Scenario.repollBatch Scenario.beforeRepollBatch _ false
           (processEventRetryAndGroup Scenario.repollBatch Scenario.beforeRepollBatch).2).
  vm_compute. reflexivity.
Defined.

(** ** One blocker per context *)

Lemma preserves_bind {A B} (I : World -> Prop) (m : Prog A) (f : A -> Prog B) :
  preserves I m -> (forall a, preserves I (f a)) -> preserves I (bind m f).
Proof.
  intros Hm Hf w Hw. rewrite run_bind. specialize (Hm w Hw).
  destruct (run storeHandler m w) as [[[a|q] w1] t1]; [|exact Hm].
  specialize (Hf a w1 Hm). destruct (run storeHandler (f a) w1) as [[o w2] t2]. exact Hf.
Qed.

Lemma preserves_call {A} (I : World -> Prop) op (k : Answer op -> Prog A) :
  (forall w, I w -> I (storeHandler op w).2) ->
  (forall r, preserves I (k r)) ->
  preserves I (Call op k).
Proof.
  intros Hop Hk w Hw. simpl. specialize (Hop w Hw).
  destruct (storeHandler op w) as [r w1]. specialize (Hk r w1 Hop).
  destruct (run storeHandler (k r) w1) as [[o w2] t]. exact Hk.
Qed.

Lemma preserves_ret {A} (I : World -> Prop) (a : A) : preserves I (Ret a).
Proof. intros w Hw. exact Hw. Qed.

Lemma preserves_panic {A} (I : World -> Prop) q : preserves I (Panic q : Prog A).
Proof. intros w Hw. exact Hw. Qed.

Lemma updateBlocked_context u b : contextOf (updateBlocked u b) = contextOf b.
Proof.
  unfold updateBlocked. revert b. induction u as [|[field value] u IH]; intros b; simpl.
  - reflexivity.
  - rewrite IH. destruct (String.eqb field "message"); reflexivity.
Qed.

Lemma oneBlocker_updated id u l :
  NoDup (contextOf <$> l) ->
  NoDup (contextOf <$>
           ((fun b => if bool_decide (Blocked.ID b = id) then updateBlocked u b else b) <$> l)).
Proof.
  intros H. rewrite <- list_fmap_compose.
  erewrite list_fmap_ext; [exact H|]. intros i b _. simpl.
  destruct (bool_decide (Blocked.ID b = id)); [apply updateBlocked_context|reflexivity].
Qed.

Lemma oneBlocker_filtered (f : Blocked.t -> bool) l :
  NoDup (contextOf <$> l) -> NoDup (contextOf <$> List.filter f l).
Proof.
  induction l as [|b l IH]; simpl; [auto|]. intros H. apply NoDup_cons in H as [Hb Hl].
  destruct (f b); simpl; [|auto]. apply NoDup_cons. split; [|auto].
  intros Hin. apply Hb. apply list_elem_of_fmap in Hin as (b' & -> & Hb').
  apply list_elem_of_fmap. exists b'. split; [reflexivity|].
  apply list_elem_of_In, filter_In in Hb'. apply list_elem_of_In, Hb'.
Qed.

(** The calls other than the creation of a Blocked row keep the rows apart. *)
Lemma perform_oneBlocker op w :
  isUpsertBlocked op = false ->
  oneBlockerPerContext (store w) -> oneBlockerPerContext (store (perform op w).2).
Proof.
  unfold oneBlockerPerContext. intros Hop Hw. destruct op; simpl in *; try exact Hw;
    try discriminate.
  - apply oneBlocker_updated, Hw.
  - apply oneBlocker_filtered, Hw.
  - destruct (existsb _ _); [destruct allowExisting|]; exact Hw.
Qed.

Lemma storeHandler_oneBlocker op w :
  isUpsertBlocked op = false ->
  oneBlockerPerContext (store w) -> oneBlockerPerContext (store (storeHandler op w).2).
Proof.
  intros Hop Hw. unfold storeHandler.
  destruct (canFail op); [|apply perform_oneBlocker; assumption].
  destruct (faults w) as [|[e|] rest]; simpl.
  - apply perform_oneBlocker; assumption.
  - exact Hw.
  - apply (perform_oneBlocker op (mkWorld (store w) rest (nextUUID w) (clock w)) Hop Hw).
Qed.

Lemma blockedByContext_None s ns context group :
  blockedByContext s ns context group = None ->
  (ns, context, group) ∉ contextOf <$> Store.blocked s.
Proof.
  unfold blockedByContext. intros Hfind Hin.
  apply list_elem_of_fmap in Hin as (b & Hb & Hin).
  apply list_elem_of_In in Hin.
  apply (find_none _ _ Hfind) in Hin. unfold inContext in Hin.
  unfold contextOf in Hb. injection Hb as -> -> ->.
  rewrite !bool_decide_eq_true_2 in Hin by reflexivity. discriminate.
Qed.

Lemma storeHandler_lookup ns context group w b w1 :
  storeHandler (GetBlockedByContext ns context group) w = ((b, None), w1) ->
  store w1 = store w /\ b = blockedByContext (store w) ns context group.
Proof.
  unfold storeHandler. simpl. destruct (faults w) as [|[e|] rest]; simpl.
  - intros [= <- <-]. auto.
  - discriminate.
  - intros [= <- <-]. auto.
Qed.

Lemma storeHandler_upsert_absent row w :
  contextOf row ∉ contextOf <$> Store.blocked (store w) ->
  oneBlockerPerContext (store w) ->
  oneBlockerPerContext (store (storeHandler (UpsertBlocked row false) w).2).
Proof.
  unfold oneBlockerPerContext, storeHandler. intros Habsent Hw. simpl.
  assert (Hadd : NoDup (contextOf <$> Store.blocked (store w) ++ [row])).
  { rewrite fmap_app. apply NoDup_app. split; [exact Hw|]. split.
    - intros x Hx Hin. apply list_elem_of_singleton in Hin. subst x. contradiction.
    - apply NoDup_singleton. }
  destruct (faults w) as [|[e|] rest]; simpl; try exact Hw.
  all: destruct (existsb _ _); simpl; [exact Hw|exact Hadd].
Qed.

Lemma checkUpdateContextBlocked_oneBlocker msg complete :
  preserves (fun w => oneBlockerPerContext (store w)) (checkUpdateContextBlocked msg complete).
Proof.
  intros w Hw. unfold checkUpdateContextBlocked, call. cbn [bind run].
  pose proof (storeHandler_oneBlocker
                (GetBlockedByContext (MessageHeader.Namespace (Message.Header msg))
                   (MessageHeader.Context (Message.Header msg))
                   (MessageHeader.Group (Message.Header msg))) w eq_refl Hw) as Hw1.
  pose proof (storeHandler_lookup (MessageHeader.Namespace (Message.Header msg))
                (MessageHeader.Context (Message.Header msg))
                (MessageHeader.Group (Message.Header msg)) w) as Hlookup.
  destruct (storeHandler _ w) as [[b err] w1]. simpl in Hw1.
  destruct err as [e|]; [exact Hw1|].
  destruct (Hlookup b w1 eq_refl) as [Hstore Hb].
  destruct b as [b|]; [exact Hw1|]. destruct complete; [exact Hw1|].
  cbn [bind run]. unfold storeHandler at 1 2. cbn [canFail perform].
  match goal with
  | |- context [storeHandler (UpsertBlocked ?row false) ?w3] =>
      pose proof (storeHandler_upsert_absent row w3) as Hup;
      destruct (storeHandler (UpsertBlocked row false) w3) as [err w4]
  end.
  simpl in Hup.
  assert (Hw4 : oneBlockerPerContext (store w4)).
  { apply Hup; [|exact Hw1]. rewrite Hstore. apply blockedByContext_None. symmetry. exact Hb. }
  destruct err; exact Hw4.
Qed.

Ltac preserves_step :=
  match goal with
  | |- preserves _ (bind (checkUpdateContextBlocked _ _) _) =>
      apply preserves_bind; [apply checkUpdateContextBlocked_oneBlocker|]
  | |- preserves _ (bind _ _) => apply preserves_bind
  | |- preserves _ (match ?x with _ => _ end) => destruct x
  | |- preserves _ (Call _ _) =>
      apply preserves_call; [intros ? ?; apply storeHandler_oneBlocker; [reflexivity|assumption]|]
  | |- preserves _ (Ret _) => apply preserves_ret
  | |- preserves _ (Panic _) => apply preserves_panic
  | |- forall _, _ => intros ?
  end.

Lemma checkMessageComplete_oneBlocker msg lookahead event :
  preserves (fun w => oneBlockerPerContext (store w)) (checkMessageComplete msg lookahead event).
Proof.
  unfold checkMessageComplete, completeAndConfirm, unblockContext, NewEvent, deref, call.
  repeat preserves_step.
Qed.

Lemma processDataArrived_range_oneBlocker lookahead event msgs repoll :
  preserves (fun w => oneBlockerPerContext (store w))
    (processDataArrived_range lookahead event msgs repoll).
Proof.
  revert repoll. induction msgs as [|msg msgs IH]; intros repoll; cbn [processDataArrived_range].
  - apply preserves_ret.
  - unfold deref.
    repeat first [ apply IH | apply checkMessageComplete_oneBlocker | preserves_step ].
Qed.

Lemma processEvent_oneBlocker batchRefs event :
  preserves (fun w => oneBlockerPerContext (store w)) (processEvent batchRefs event).
Proof.
  unfold processEvent, processDataArrived, call.
  repeat first [ apply processDataArrived_range_oneBlocker
               | apply checkMessageComplete_oneBlocker | preserves_step ].
Qed.

Lemma processEvents_range_oneBlocker all lookahead events repoll :
  preserves (fun w => oneBlockerPerContext (store w))
    (processEvents_range all lookahead events repoll).
Proof.
  revert lookahead repoll.
  induction events as [|ev events IH]; intros lookahead repoll; cbn [processEvents_range].
  - unfold call. repeat preserves_step.
  - unfold deref. destruct (Event.ID ev) as [id|]; cbn [bind]; [|apply preserves_panic].
    destruct (remove lookahead id) as [lookahead' removed].
    repeat first [ apply IH | apply processEvent_oneBlocker | preserves_step ].
Qed.

Lemma processEvents_oneBlocker events :
  preserves (fun w => oneBlockerPerContext (store w)) (processEvents events).
Proof.
  unfold processEvents.
  destruct (buildLookahead_cases ∅ events) as [[lookahead Hb]|Hb]; rewrite Hb; cbn [bind].
  - apply processEvents_range_oneBlocker.
  - apply preserves_panic.
Qed.

(** In every state of the store that ingestion and the batches of the
    aggregator can reach from the empty store, whatever calls the store
    fails on the way (a failed batch being rolled back), no two Blocked rows
    block the same (namespace, context, group): the aggregator creates a row
    only after the lookup of the context found none. *)
Theorem one_blocker_per_context (w : World) :
  attainable w -> oneBlockerPerContext (store w).
Proof.
  intros Hreach.
  apply (rtc_ind_r (R := evolves) (fun w => oneBlockerPerContext (store w)) initialWorld);
    [| |exact Hreach]; clear w Hreach.
  - apply NoDup_nil_2.
  - intros w1 w2 Hreach Hstep IH.
    destruct Hstep as [w w' Hstep|w fs]; [|exact IH].
    destruct Hstep as [w dataID ns|w hdr data|w n o w' t Hbatch Hrun]; [exact IH..|].
    unfold processEventRetryAndGroup, RunAsGroup in Hrun.
    pose proof (processEvents_oneBlocker (take n (pending (store w))) w IH) as Hkeep.
    destruct (run storeHandler (processEvents (take n (pending (store w)))) w)
      as [[o' w''] t'].
    destruct (failed o'); injection Hrun as <- <- <-; [exact IH|exact Hkeep].
Qed.

Lemma one_blocker_per_context_witness :
  attainable Cases.afterRetry /\
  (processEventRetryAndGroup (take 1 (pending (store Cases.failingUpsert)))
     Cases.failingUpsert).1.1
  = Returned (false, Some "connection lost") /\
  length (Store.blocked (store Cases.afterRetry)) = 1%nat /\
  oneBlockerPerContext (store Cases.afterRetry).
Proof.
  assert (H : attainable Cases.afterRetry).
  { unfold attainable.
    eapply rtc_l;
      [apply evolves_step, (step_message initialWorld (Scenario.header 101) [201%N])|].
    eapply rtc_l;
      [apply (evolves_faults Cases.envelope101 [None; None; None; Some "connection lost"])|].
    eapply rtc_l;
      [apply evolves_step, (step_batch_of Cases.failingUpsert 1); vm_compute; discriminate|].
    apply rtc_once.
    apply evolves_step, (step_batch_of Cases.afterFailure 1). vm_compute. discriminate. }
  split; [exact H|]. split; [vm_compute; reflexivity|]. split; [vm_compute; reflexivity|].
  exact (one_blocker_per_context _ H).
Defined.

(** ** Confirmed messages and their events *)

Lemma ensures_call (P Q : World -> Prop) op (M : Answer op -> World -> Prop)
    (k : Answer op -> Prog result) :
  (forall w, P w -> M (storeHandler op w).1 (storeHandler op w).2) ->
  (forall r, ensures (M r) Q (k r)) ->
  ensures P Q (Call op k).
Proof.
  intros Hop Hk w Hw. simpl. specialize (Hop w Hw).
  destruct (storeHandler op w) as [r w1]. specialize (Hk r w1 Hop).
  destruct (run storeHandler (k r) w1) as [[o w2] t]. exact Hk.
Qed.

Lemma ensures_bind {A} (P Q : World -> Prop) (m : Prog A) (f : A -> Prog result) :
  preserves P m -> (forall a, ensures P Q (f a)) -> ensures P Q (bind m f).
Proof.
  intros Hm Hf w Hw. rewrite run_bind. specialize (Hm w Hw).
  destruct (run storeHandler m w) as [[[a|q] w1] t1]; [|discriminate].
  specialize (Hf a w1 Hm). destruct (run storeHandler (f a) w1) as [[o w2] t2]. exact Hf.
Qed.

Lemma ensures_result (P Q : World -> Prop) (m : Prog result) (f : result -> Prog result) :
  ensures P P m ->
  (forall r, ensures P Q (f (r, None))) ->
  (forall r e, f (r, Some e) = Ret (false, Some e)) ->
  ensures P Q (bind m f).
Proof.
  intros Hm Hf Herr w Hw. rewrite run_bind. specialize (Hm w Hw).
  destruct (run storeHandler m w) as [[[[r [e|]]|q] w1] t1]; [| |discriminate].
  - rewrite Herr. discriminate.
  - specialize (Hf r w1 (Hm eq_refl)).
    destruct (run storeHandler (f (r, None)) w1) as [[o w2] t2]. exact Hf.
Qed.

Lemma ensures_ret (P : World -> Prop) r : ensures P P (Ret r).
Proof. intros w Hw _. exact Hw. Qed.

Lemma ensures_error (P Q : World -> Prop) r e : ensures P Q (Ret (r, Some e)).
Proof. intros w Hw Hf. discriminate Hf. Qed.

Lemma ensures_panic (P Q : World -> Prop) q : ensures P Q (Panic q).
Proof. intros w Hw Hf. discriminate Hf. Qed.

Lemma ensures_weaken (P P' Q : World -> Prop) p :
  (forall w, P' w -> P w) -> ensures P Q p -> ensures P' Q p.
Proof. intros HP Hp w Hw. apply Hp, HP, Hw. Qed.

(** The answer and the world of a call on the store: the call failed and
    left the store alone, or it was performed on the store. *)
Lemma storeHandler_cases op w :
  (exists e, (storeHandler op w).1 = failWith op e /\ canFail op = true /\
             store (storeHandler op w).2 = store w) \/
  (exists w0, store w0 = store w /\ storeHandler op w = perform op w0).
Proof.
  unfold storeHandler. destruct (canFail op); [|right; exists w; auto].
  destruct (faults w) as [|[e|] rest].
  - right. exists w. auto.
  - left. exists e. auto.
  - right. eexists. split; [|reflexivity]. reflexivity.
Qed.

Lemma perform_messages op w :
  isUpdateMessage op = false ->
  Store.messages (store (perform op w).2) = Store.messages (store w).
Proof.
  intros Hop. destruct op; simpl in *; try reflexivity; try discriminate.
  all: destruct (existsb _ _); [destruct allowExisting|]; reflexivity.
Qed.

Lemma announced_grows s s' :
  Store.messages s' = Store.messages s ->
  Store.events s `prefix_of` Store.events s' ->
  confirmedAreAnnounced s -> confirmedAreAnnounced s'.
Proof.
  intros Hm [l He] H m Hin Hc. rewrite Hm in Hin.
  destruct (H m Hin Hc) as (e & Hein & Hann). exists e. split; [|exact Hann].
  rewrite He. apply elem_of_app. left. exact Hein.
Qed.

Lemma announcedBut_grows id s s' :
  Store.messages s' = Store.messages s ->
  Store.events s `prefix_of` Store.events s' ->
  announcedBut id s -> announcedBut id s'.
Proof.
  intros Hm [l He] H m Hin Hc. rewrite Hm in Hin.
  destruct (H m Hin Hc) as [Hid|(e & Hein & Hann)]; [left; exact Hid|right].
  exists e. split; [|exact Hann]. rewrite He. apply elem_of_app. left. exact Hein.
Qed.

(** The calls other than the update of a message. *)
Lemma storeHandler_announced op w :
  aggregatorCall op = true -> isUpdateMessage op = false ->
  confirmedAreAnnounced (store w) -> confirmedAreAnnounced (store (storeHandler op w).2).
Proof.
  intros Hop Hnot Hw.
  destruct (storeHandler_cases op w) as [(e & _ & _ & Hs)|(w0 & Hs & Hp)].
  - rewrite Hs. exact Hw.
  - rewrite Hp. rewrite <- Hs in Hw. pose proof (perform_grows op w0 Hop) as (_ & He & _).
    exact (announced_grows _ _ (perform_messages op w0 Hnot) He Hw).
Qed.

Lemma storeHandler_confirm id now w :
  confirmedAreAnnounced (store w) ->
  (storeHandler (UpdateMessage id (Set_ "confirmed" (VTime now))) w).1 = None ->
  announcedBut id
    (store (storeHandler (UpdateMessage id (Set_ "confirmed" (VTime now))) w).2).
Proof.
  intros Hw.
  destruct (storeHandler_cases (UpdateMessage id (Set_ "confirmed" (VTime now))) w)
    as [(e & Hr & _ & Hs)|(w0 & Hs & Hp)].
  - rewrite Hr. discriminate.
  - rewrite Hp. intros _. rewrite <- Hs in Hw. simpl.
    intros m Hin Hc. simpl in Hin.
    apply list_elem_of_fmap in Hin as (m0 & -> & Hin0).
    unfold hasID in *. case_bool_decide as Hid.
    + left. exact Hid.
    + right. apply (Hw m0 Hin0 Hc).
Qed.

Lemma storeHandler_announce id e w :
  Event.Typ e = EventTypeMessageConfirmed -> Event.Reference e = id ->
  announcedBut id (store w) ->
  (storeHandler (UpsertEvent e false) w).1 = None ->
  confirmedAreAnnounced (store (storeHandler (UpsertEvent e false) w).2).
Proof.
  intros Hty Href Hw.
  destruct (storeHandler_cases (UpsertEvent e false) w) as [(err & Hr & _ & Hs)|(w0 & Hs & Hp)].
  - rewrite Hr. discriminate.
  - rewrite Hp. rewrite <- Hs in Hw. simpl.
    destruct (existsb _ _); simpl; [discriminate|]. intros _ m Hin Hc.
    destruct (Hw m Hin Hc) as [Hid|(e' & Hein & Hann)].
    + exists (withSequence (nextSequence (store w0)) e). split.
      * apply elem_of_app. right. apply list_elem_of_singleton. reflexivity.
      * split; simpl; congruence.
    + exists e'. split; [|exact Hann]. apply elem_of_app. left. exact Hein.
Qed.

Lemma ensures_confirm id now ns (k : Prog result) :
  ensures (fun w => confirmedAreAnnounced (store w))
    (fun w => confirmedAreAnnounced (store w)) k ->
  ensures (fun w => confirmedAreAnnounced (store w))
    (fun w => confirmedAreAnnounced (store w))
    (Call (UpdateMessage id (Set_ "confirmed" (VTime now)))
       (fun err : option error =>
          match err with
          | Some _ => Ret (false, err)
          | None =>
              Call NewUUID
                (fun i : UUID =>
                   Call (UpsertEvent (Event.mk (Some i) 0 EventTypeMessageConfirmed ns id)
                           false)
                     (fun err : option error =>
                        match err with
                        | Some _ => Ret (false, err)
                        | None => k
                        end))
          end)).
Proof.
  intros Hk.
  apply (ensures_call _ _ (UpdateMessage id (Set_ "confirmed" (VTime now)))
           (fun err w => err = None -> announcedBut id (store w))).
  { intros w Hw. apply storeHandler_confirm, Hw. }
  intros [e|]; [apply ensures_error|].
  apply (ensures_call _ _ NewUUID (fun _ w => announcedBut id (store w))).
  { intros w Hbut. apply (Hbut eq_refl). }
  intros i.
  apply (ensures_call _ _
           (UpsertEvent (Event.mk (Some i) 0 EventTypeMessageConfirmed ns id) false)
           (fun err w => err = None -> confirmedAreAnnounced (store w))).
  { intros w Hw. apply (storeHandler_announce id); [reflexivity|reflexivity|exact Hw]. }
  intros [e|]; [apply ensures_error|].
  apply (ensures_weaken (fun w => confirmedAreAnnounced (store w))); [|exact Hk].
  intros w Hann. apply (Hann eq_refl).
Qed.

Ltac ensures_step :=
  cbn [bind];
  match goal with
  | |- ensures _ _ (match ?x with _ => _ end) => destruct x
  | |- ensures _ _ (bind (match ?x with _ => _ end) _) => destruct x
  | |- ensures _ _ (Ret (_, Some _)) => apply ensures_error
  | |- ensures _ _ (Ret _) => apply ensures_ret
  | |- ensures _ _ (Panic _) => apply ensures_panic
  | |- ensures _ _ (Call (UpdateMessage _ _) _) => apply ensures_confirm
  | |- ensures _ _ (Call ?op _) =>
      apply (ensures_call _ _ op (fun _ w => confirmedAreAnnounced (store w)));
      [intros ? ?; apply storeHandler_announced; [reflexivity|reflexivity|assumption]|]
  | |- forall _, _ => intros ?
  end.

Lemma checkMessageComplete_announced msg lookahead event :
  ensures (fun w => confirmedAreAnnounced (store w))
    (fun w => confirmedAreAnnounced (store w))
    (checkMessageComplete msg lookahead event).
Proof.
  unfold checkMessageComplete, completeAndConfirm, checkUpdateContextBlocked,
    unblockContext, NewEvent, deref, call.
  repeat ensures_step.
Qed.

Lemma processDataArrived_range_announced lookahead event msgs repoll :
  ensures (fun w => confirmedAreAnnounced (store w))
    (fun w => confirmedAreAnnounced (store w))
    (processDataArrived_range lookahead event msgs repoll).
Proof.
  revert repoll. induction msgs as [|msg msgs IH]; intros repoll; cbn [processDataArrived_range].
  - apply ensures_ret.
  - unfold deref. destruct (MessageHeader.ID (Message.Header msg)) as [id|]; cbn [bind];
      [|apply ensures_panic].
    destruct (hasAnyOf lookahead id [EventTypeMessageSequencedBroadcast]); [apply IH|].
    apply ensures_result; [apply checkMessageComplete_announced|intros r; apply IH|].
    reflexivity.
Qed.

Lemma processEvent_announced batchRefs event :
  ensures (fun w => confirmedAreAnnounced (store w))
    (fun w => confirmedAreAnnounced (store w))
    (processEvent batchRefs event).
Proof.
  unfold processEvent, processDataArrived, call.
  repeat first [ apply processDataArrived_range_announced
               | apply checkMessageComplete_announced | ensures_step ].
Qed.

Lemma processEvents_range_announced all lookahead events repoll :
  ensures (fun w => confirmedAreAnnounced (store w))
    (fun w => confirmedAreAnnounced (store w))
    (processEvents_range all lookahead events repoll).
Proof.
  revert lookahead repoll.
  induction events as [|ev events IH]; intros lookahead repoll; cbn [processEvents_range].
  - unfold call. repeat ensures_step.
  - unfold deref. destruct (Event.ID ev) as [id|]; cbn [bind]; [|apply ensures_panic].
    destruct (remove lookahead id) as [lookahead' removed].
    apply ensures_result; [apply processEvent_announced|intros r; apply IH|].
    reflexivity.
Qed.

Lemma processEvents_announced events :
  ensures (fun w => confirmedAreAnnounced (store w))
    (fun w => confirmedAreAnnounced (store w))
    (processEvents events).
Proof.
  unfold processEvents.
  destruct (buildLookahead_cases ∅ events) as [[lookahead Hb]|Hb]; rewrite Hb; cbn [bind].
  - apply processEvents_range_announced.
  - apply ensures_panic.
Qed.

(** In every state of the store that ingestion and the batches of the
    aggregator can reach from the empty store, whatever calls the store
    fails on the way, every confirmed message has a message-confirmed event
    that references it: a batch in which the update that confirms a message
    succeeds and the insertion of the event fails returns the error and is
    rolled back as a whole. *)
Theorem confirmed_messages_are_announced (w : World) :
  attainable w -> confirmedAreAnnounced (store w).
Proof.
  intros Hreach.
  apply (rtc_ind_r (R := evolves) (fun w => confirmedAreAnnounced (store w)) initialWorld);
    [| |exact Hreach]; clear w Hreach.
  - intros m Hin. inversion Hin.
  - intros w1 w2 Hreach Hstep IH.
    destruct Hstep as [w w' Hstep|w fs]; [|exact IH].
    destruct Hstep as [w dataID ns|w hdr data|w n o w' t Hbatch Hrun].
    + intros m Hin Hc. destruct (IH m Hin Hc) as (e & Hein & Hann).
      exists e. split; [|exact Hann]. simpl. apply elem_of_app. left. exact Hein.
    + intros m Hin Hc. simpl in Hin. apply elem_of_app in Hin as [Hin|Hin].
      * destruct (IH m Hin Hc) as (e & Hein & Hann).
        exists e. split; [|exact Hann]. simpl. apply elem_of_app. left. exact Hein.
      * apply list_elem_of_singleton in Hin. subst m. simpl in Hc. congruence.
    + unfold processEventRetryAndGroup, RunAsGroup in Hrun.
      pose proof (processEvents_announced (take n (pending (store w))) w IH) as Hkeep.
      destruct (run storeHandler (processEvents (take n (pending (store w)))) w)
        as [[o' w''] t'].
      simpl in Hkeep.
      destruct (failed o'); injection Hrun as <- <- <-; [exact IH|exact (Hkeep eq_refl)].
Qed.

Lemma confirmed_messages_are_announced_witness :
  attainable Cases.failedInsert.1.2 /\
  Called (UpdateMessage (Some 102%N) (Set_ "confirmed" (VTime 1))) None
    ∈ Cases.failedInsert.2 /\
  Called (UpsertEvent Cases.confirmed102 false) (Some "connection lost")
    ∈ Cases.failedInsert.2 /\
  Cases.failedInsert.1.1 = Returned (false, Some "connection lost") /\
  store Cases.failedInsert.1.2 = store Scenario.message2Arrived /\
  confirmedAreAnnounced (store Cases.failedInsert.1.2).
Proof.
  assert (H : attainable Cases.failedInsert.1.2).
  { unfold attainable.
    eapply rtc_l; [apply evolves_step, (step_data initialWorld 202%N "ns1")|].
    eapply rtc_l;
      [apply evolves_step,
         (step_message Scenario.dataArrived (Scenario.header 101) [201%N])|].
    eapply rtc_l;
      [apply evolves_step,
         (step_message Scenario.message1Arrived (Scenario.header 102) [202%N])|].
    eapply rtc_l;
      [apply (evolves_faults Scenario.message2Arrived
                (replicate 5 None ++ [Some "connection lost"]))|].
    apply rtc_once.
    apply evolves_step, (step_batch_of Cases.failingInsert 1). vm_compute. discriminate. }
  split; [exact H|].
  split; [vm_compute; do 5 apply list_elem_of_further; apply list_elem_of_here|].
  split; [vm_compute; do 7 apply list_elem_of_further; apply list_elem_of_here|].
  split; [vm_compute; reflexivity|]. split; [vm_compute; reflexivity|].
  exact (confirmed_messages_are_announced _ H).
Defined.

(** ** The confirmation of a complete message *)

Lemma storeHandler_no_fault op w :
  faults w = [] -> storeHandler op w = perform op w.
Proof. intros H. unfold storeHandler. rewrite H. destruct (canFail op); reflexivity. Qed.

Lemma completeAndConfirm_confirms (w : World) (msg : Message.t) (lookahead : eventsByRef) :
  let hdr := Message.Header msg in
  let s := store w in
  faults w = [] ->
  dataAvailable s msg = true ->
  blockedByContext s (MessageHeader.Namespace hdr) (MessageHeader.Context hdr)
    (MessageHeader.Group hdr) = None ->
  existsb (fun e => bool_decide (Event.ID e = Some (nextUUID w))) (Store.events s) = false ->
  (run storeHandler (completeAndConfirm msg lookahead) w).1
  = (Returned (false, None),
     mkWorld
       (Store.mk (confirmAt (MessageHeader.ID hdr) (clock w) <$> Store.messages s)
          (Store.events s
           ++ [Event.mk (Some (nextUUID w)) (nextSequence s) EventTypeMessageConfirmed
                 (MessageHeader.Namespace hdr) (MessageHeader.ID hdr)])
          (Store.blocked s) (Store.data s) (Store.offset s))
       [] (nextUUID w + 1)%N (clock w + 1)).
Proof.
  intros hdr s Hfaults Hdata Hblocked Hfresh.
  destruct w as [s0 fs next now]. simpl in *. subst fs s.
  unfold completeAndConfirm, checkUpdateContextBlocked, unblockContext, NewEvent, call.
  fold hdr. cbn [bind run]. unfold storeHandler at 1. cbn. rewrite Hdata. cbn.
  rewrite Hblocked. unfold confirmAt.
  destruct (bool_decide (MessageHeader.Namespace hdr = SystemNamespace));
    cbn; rewrite Hfresh; reflexivity.
Qed.

(** On a store that fails no call: checkMessageComplete, for a message
    whose envelope has arrived (the triggering event references the message,
    or the store holds a message-sequenced-broadcast event for it), whose
    data is all available and whose context has no Blocked row, returns
    (false, nil) and leaves the store with exactly two changes: the messages
    with the ID of the message have confirmed = the time read, and one
    message-confirmed event for the message is appended under a fresh ID
    with the next sequence.  The Blocked rows, the data and the offset are
    as before. *)
Theorem checkMessageComplete_confirms_complete_message (w : World) (msg : Message.t)
    (lookahead : eventsByRef) (event : Event.t) :
  let hdr := Message.Header msg in
  let s := store w in
  faults w = [] ->
  (Event.Reference event = MessageHeader.ID hdr \/
   query eventField (sequencedFilter msg) (Store.events s) <> []) ->
  dataAvailable s msg = true ->
  blockedByContext s (MessageHeader.Namespace hdr) (MessageHeader.Context hdr)
    (MessageHeader.Group hdr) = None ->
  existsb (fun e => bool_decide (Event.ID e = Some (nextUUID w))) (Store.events s) = false ->
  (run storeHandler (checkMessageComplete msg lookahead event) w).1
  = (Returned (false, None),
     mkWorld
       (Store.mk (confirmAt (MessageHeader.ID hdr) (clock w) <$> Store.messages s)
          (Store.events s
           ++ [Event.mk (Some (nextUUID w)) (nextSequence s) EventTypeMessageConfirmed
                 (MessageHeader.Namespace hdr) (MessageHeader.ID hdr)])
          (Store.blocked s) (Store.data s) (Store.offset s))
       [] (nextUUID w + 1)%N (clock w + 1)).
Proof.
  intros hdr s Hfaults Harrived Hdata Hblocked Hfresh.
  pose proof (completeAndConfirm_confirms w msg lookahead Hfaults Hdata Hblocked Hfresh)
    as Hconfirm.
  fold hdr s in Hconfirm. unfold checkMessageComplete. fold hdr.
  destruct (Equals (Event.Reference event) (MessageHeader.ID hdr)) eqn:Heq; cbn [negb].
  - exact Hconfirm.
  - unfold call. cbn [bind run]. rewrite (storeHandler_no_fault _ w Hfaults). cbn [perform].
    fold s.
    destruct Harrived as [Href|Hseq].
    + unfold Equals in Heq. apply bool_decide_eq_false in Heq. contradiction.
    + destruct (query eventField (sequencedFilter msg) (Store.events s)) as [|e l];
        [contradiction|].
      rewrite bool_decide_eq_false_2 by (simpl; lia).
      destruct (run storeHandler (completeAndConfirm msg lookahead) w) as [[o w2] t].
      exact Hconfirm.
Qed.

Lemma checkMessageComplete_confirms_complete_message_witness :
  let w := Scenario.message2Arrived in
  let s := store w in
  faults w = [] /\
  query eventField (sequencedFilter Cases.waiting2) (Store.events s) <> [] /\
  dataAvailable s Cases.waiting2 = true /\
  blockedByContext s "ns1" "ctx1" None = None /\
  (run storeHandler (checkMessageComplete Cases.waiting2 ∅ (Scenario.arrived 1 1 202)) w).1
  = (Returned (false, None),
     mkWorld
       (Store.mk (confirmAt (Some 102%N) (clock w) <$> Store.messages s)
          (Store.events s
           ++ [Event.mk (Some (nextUUID w)) (nextSequence s) EventTypeMessageConfirmed
                 "ns1" (Some 102%N)])
          (Store.blocked s) (Store.data s) (Store.offset s))
       [] (nextUUID w + 1)%N (clock w + 1)).
Proof.
  intros w s.
  assert (Harrived : query eventField (sequencedFilter Cases.waiting2) (Store.events s) <> [])
    by (vm_compute; discriminate).
  split; [reflexivity|]. split; [exact Harrived|].
  split; [reflexivity|]. split; [reflexivity|].
  apply (checkMessageComplete_confirms_complete_message w Cases.waiting2 ∅
           (Scenario.arrived 1 1 202)).
  - reflexivity.
  - right. exact Harrived.
  - reflexivity.
  - reflexivity.
  - reflexivity.
Defined.

(** ** Panics *)

Lemma neverPanics_bind {A B} (m : Prog A) (f : A -> Prog B) :
  neverPanics m -> (forall a, neverPanics (f a)) -> neverPanics (bind m f).
Proof.
  intros Hm Hf. induction m as [a|q|op k IH]; simpl in *; [apply Hf|contradiction|].
  intros r Hr. apply IH, Hm, Hr.
Qed.

Lemma neverPanics_run {A} (p : Prog A) (w : World) :
  (forall op w, identified (store w) ->
                answersIdentified op (storeHandler op w).1 /\
                identified (store (storeHandler op w).2)) ->
  identified (store w) -> neverPanics p ->
  forall q, (run storeHandler p w).1.1 <> Panicked q.
Proof.
  intros Hstep. revert w. induction p as [a|q0|op k IH]; intros w Hw Hp q; simpl in *.
  - discriminate.
  - contradiction.
  - destruct (Hstep op w Hw) as [Hr Hw1]. destruct (storeHandler op w) as [r w1].
    specialize (IH r w1 Hw1 (Hp r Hr) q).
    destruct (run storeHandler (k r) w1) as [[o w2] t]. exact IH.
Qed.

Lemma query_subset {A} (fieldOf : A -> string -> FieldValue) f rows x :
  x ∈ query fieldOf f rows -> x ∈ rows.
Proof.
  unfold query. intros Hin.
  assert (Hsorted : x ∈ match sortBy f with
                        | [] => List.filter (fun r => forallb (holds (fieldOf r)) (conds f)) rows
                        | fields =>
                            sortOn (fun r => sortKey (fieldOf r) fields)
                              (List.filter (fun r => forallb (holds (fieldOf r)) (conds f)) rows)
                        end).
  { destruct (limit f) as [n|]; [|exact Hin].
    match goal with |- _ ∈ ?l => rewrite <- (take_drop n l) end.
    apply elem_of_app. left. exact Hin. }
  assert (Hsel : x ∈ List.filter (fun r => forallb (holds (fieldOf r)) (conds f)) rows).
  { destruct (sortBy f); [exact Hsorted|]. rewrite sortOn_perm in Hsorted. exact Hsorted. }
  apply list_elem_of_In, filter_In in Hsel. apply list_elem_of_In, Hsel.
Qed.

Lemma updateMessage_header u m : Message.Header (updateMessage u m) = Message.Header m.
Proof.
  unfold updateMessage. revert m. induction u as [|[field value] u IH]; intros m; simpl.
  - reflexivity.
  - rewrite IH. destruct (String.eqb field "confirmed"); reflexivity.
Qed.

Lemma perform_identified op w :
  identified (store w) ->
  answersIdentified op (perform op w).1 /\ identified (store (perform op w).2).
Proof.
  unfold identified. intros Hw. destruct op; simpl; try (split; [exact I|exact Hw]).
  - split; [|exact Hw]. apply Forall_forall. intros m Hin.
    apply query_subset, list_elem_of_In, filter_In in Hin as [Hin _].
    apply list_elem_of_In in Hin. exact (proj1 (Forall_forall _ _) Hw m Hin).
  - split; [|exact Hw]. apply Forall_forall. intros r Hin.
    apply list_elem_of_fmap in Hin as (m & -> & Hin). apply query_subset in Hin.
    exact (proj1 (Forall_forall _ _) Hw m Hin).
  - destruct (existsb _ _); [destruct allowExisting|]; split; solve [exact I|exact Hw].
  - split; [exact I|]. apply Forall_fmap. eapply Forall_impl; [exact Hw|].
    intros m Hm. simpl. destruct (hasID id m); [rewrite updateMessage_header|]; exact Hm.
  - destruct (existsb _ _); [destruct allowExisting|]; split; solve [exact I|exact Hw].
Qed.

Lemma storeHandler_identified op w :
  identified (store w) ->
  answersIdentified op (storeHandler op w).1 /\ identified (store (storeHandler op w).2).
Proof.
  intros Hw.
  destruct (storeHandler_cases op w) as [(e & Hr & _ & Hs)|(w0 & Hs & Hp)].
  - rewrite Hr, Hs. split; [|exact Hw]. destruct op; simpl; try exact I; constructor.
  - rewrite Hp. apply perform_identified. rewrite Hs. exact Hw.
Qed.

Ltac safe_step :=
  cbn [neverPanics bind];
  match goal with
  | |- neverPanics (match ?x with _ => _ end) =>
      tryif is_var x then destruct x else destruct x eqn:?
  | |- neverPanics (bind (match ?x with _ => _ end) _) =>
      tryif is_var x then destruct x else destruct x eqn:?
  | H : Forall _ (?m :: _), Hnil : MessageRef.ID ?m = None |- _ =>
      inversion H; subst; contradiction
  | |- forall _, _ => intros ?
  | |- True => exact I
  end.

Lemma checkMessageComplete_neverPanics msg lookahead event :
  neverPanics (checkMessageComplete msg lookahead event).
Proof.
  unfold checkMessageComplete, completeAndConfirm, checkUpdateContextBlocked,
    unblockContext, NewEvent, deref, call.
  repeat safe_step.
  all: simpl in *.
  all: try match goal with
           | H : Forall _ (?m :: _), Hnil : MessageRef.ID ?m = None |- _ =>
               inversion H; subst; contradiction
           end.
Qed.

Lemma processDataArrived_range_neverPanics lookahead event msgs repoll :
  Forall (fun m => MessageHeader.ID (Message.Header m) <> None) msgs ->
  neverPanics (processDataArrived_range lookahead event msgs repoll).
Proof.
  revert repoll. induction msgs as [|msg msgs IH]; intros repoll Hids;
    cbn [processDataArrived_range]; [exact I|].
  inversion Hids as [|? ? Hid Hrest]; subst. unfold deref.
  destruct (MessageHeader.ID (Message.Header msg)) as [id|]; [|contradiction]. cbn [bind].
  destruct (hasAnyOf lookahead id [EventTypeMessageSequencedBroadcast]); [apply IH, Hrest|].
  apply neverPanics_bind; [apply checkMessageComplete_neverPanics|].
  intros [msgRepoll [e|]]; [exact I|apply IH, Hrest].
Qed.

Lemma processEvent_neverPanics batchRefs event : neverPanics (processEvent batchRefs event).
Proof.
  unfold processEvent, processDataArrived, call.
  destruct (Event.Typ event); cbn [bind neverPanics]; try exact I.
  all: intros [x [e|]] Hx; cbn [neverPanics]; try exact I.
  - apply processDataArrived_range_neverPanics. exact Hx.
  - destruct x as [m|]; [|exact I].
    destruct (bool_decide (Message.Confirmed m = None));
      [apply checkMessageComplete_neverPanics|exact I].
Qed.

Lemma processEvents_range_neverPanics all lookahead events repoll :
  all <> [] -> Forall (fun ev => Event.ID ev <> None) events ->
  neverPanics (processEvents_range all lookahead events repoll).
Proof.
  intros Hall. revert lookahead repoll.
  induction events as [|ev events IH]; intros lookahead repoll Hids; cbn [processEvents_range].
  - destruct (last all) as [lastEvent|] eqn:Hlast.
    + unfold call. cbn [bind neverPanics]. intros r _. exact I.
    + apply last_None in Hlast. contradiction.
  - inversion Hids as [|? ? Hid Hrest]; subst. unfold deref.
    destruct (Event.ID ev) as [id|]; [|contradiction]. cbn [bind].
    destruct (remove lookahead id) as [lookahead' removed].
    apply neverPanics_bind; [apply processEvent_neverPanics|].
    intros [r [e|]]; [exact I|apply IH, Hrest].
Qed.

(** On a store whose messages all have an ID, whatever calls fail:
    processEvents does not panic on a non-empty batch of events with non-nil
    ID and Reference (so the group is not aborted by a nil dereference of a
    message or message reference handed out by the store). *)
Theorem processEvents_never_panics_on_identified_store (events : list Event.t) (w : World)
    (q : panic) :
  events <> [] -> Forall wellFormed events -> identified (store w) ->
  (run storeHandler (processEvents events) w).1.1 <> Panicked q.
Proof.
  intros Hne Hwf Hw. apply neverPanics_run; [apply storeHandler_identified|exact Hw|].
  unfold processEvents.
  destruct (buildLookahead_ok ∅ events) as [lookahead Hb].
  { eapply Forall_impl; [exact Hwf|]. intros ev [_ H]. exact H. }
  rewrite Hb. cbn [bind]. apply processEvents_range_neverPanics; [exact Hne|].
  eapply Forall_impl; [exact Hwf|]. intros ev [H _]. exact H.
Qed.

Lemma processEvents_never_panics_on_identified_store_witness :
  Scenario.repollBatch <> [] /\ Forall wellFormed Scenario.repollBatch /\
  identified (store Scenario.beforeRepollBatch) /\
  (run storeHandler (processEvents Scenario.repollBatch) Scenario.beforeRepollBatch).1.1
  <> Panicked NilMessageID.
Proof.
  assert (Hne : Scenario.repollBatch <> []) by (vm_compute; discriminate).
  assert (Hwf : Forall wellFormed Scenario.repollBatch)
    by (vm_compute; repeat constructor; discriminate).
  assert (Hid : identified (store Scenario.beforeRepollBatch))
    by (vm_compute; repeat constructor; discriminate).
  split; [exact Hne|]. split; [exact Hwf|]. split; [exact Hid|].
  exact (processEvents_never_panics_on_identified_store Scenario.repollBatch
           Scenario.beforeRepollBatch NilMessageID Hne Hwf Hid).
Defined.
